(** * repstags-atlas: the selection index and material-state engine of the viewer

    A shallow embedding of [src/viewer.js] (and of the chip search of the older
    viewer variant kept next to it), with the properties the specification
    states about them.

    Conventions of the embedding.
    - A JavaScript string is a [string]: a sequence of code units.  Only the
      code units 0..255 (the Latin-1 range of UTF-16) are represented; the
      character classes below ([\s], line terminators, [toLowerCase]) are the
      ECMAScript ones restricted to that range.
    - A [Set] of strings is a [gset string]; a [Map] that is iterated
      ([groupByKey]) is an association list in insertion order.
    - Objects that are mutated through references (materials, scene nodes)
      live in stores indexed by address; a reference is an address. *)

From Stdlib Require Import PrimFloat.
From Stdlib Require Import Ascii String.
From stdpp Require Import gmap strings list sorting.

Set Warnings "-inexact-float,-clear-no-such-hyp".
Set Default Proof Using "Type".
Open Scope string_scope.
Open Scope list_scope.
Open Scope nat_scope.

(** ** Strings *)

Module Str.

Definition code (c : ascii) : N := N_of_ascii c.

Definition between (lo hi : N) (c : ascii) : bool :=
  ((lo <=? code c) && (code c <=? hi))%N.

(** ECMAScript WhiteSpace and LineTerminator code units below 256: TAB, LF,
    VT, FF, CR, SP, NBSP.  Both [String.prototype.trim] and the class [\s]
    use this set. *)
Definition isWhiteSpace (c : ascii) : bool :=
  between 9 13 c || (code c =? 32)%N || (code c =? 160)%N.

(** What [.] does not match in a regular expression without the [s] flag. *)
Definition isLineTerminator (c : ascii) : bool :=
  (code c =? 10)%N || (code c =? 13)%N.

(** The class [[a-z0-9]]. *)
Definition isLowerAlnum (c : ascii) : bool :=
  between 97 122 c || between 48 57 c.

Definition isUnderscore (c : ascii) : bool := (code c =? 95)%N.

(** [String.prototype.toLowerCase] on one code unit: A-Z, and the Latin-1
    capitals U+00C0..U+00DE other than the multiplication sign U+00D7. *)
Definition toLowerChar (c : ascii) : ascii :=
  if between 65 90 c || (between 192 222 c && negb (code c =? 215)%N)
  then ascii_of_N (code c + 32) else c.

(** Canonicalisation of the [i] flag (no [u] flag): a code unit maps to its
    upper case, except that a non-ASCII unit never maps to an ASCII one.  For
    the ASCII letters of the patterns used here this is ASCII case folding. *)
Definition foldCase (c : ascii) : ascii :=
  if between 97 122 c then ascii_of_N (code c - 32) else c.

Definition eqCI (a b : ascii) : bool := (code (foldCase a) =? code (foldCase b))%N.

Fixpoint dropWhile (p : ascii → bool) (l : list ascii) : list ascii :=
  match l with
  | [] => []
  | c :: r => if p c then dropWhile p r else l
  end.

(** The same from the end: the longest suffix of [p]-characters goes. *)
Fixpoint dropWhileEnd (p : ascii → bool) (l : list ascii) : list ascii :=
  match l with
  | [] => []
  | c :: r =>
      match dropWhileEnd p r with
      | [] => if p c then [] else [c]
      | r' => c :: r'
      end
  end.

(** [s.trim()] *)
Definition trim (l : list ascii) : list ascii :=
  dropWhileEnd isWhiteSpace (dropWhile isWhiteSpace l).

(** [s.replace(/\u0000/g, '')] *)
Definition removeNul (l : list ascii) : list ascii :=
  List.filter (λ c, negb (code c =? 0)%N) l.

(** Does [l] start with [p], compared under the [i] flag? *)
Fixpoint startsWithCI (p l : list ascii) : bool :=
  match p, l with
  | [], _ => true
  | a :: p', b :: l' => eqCI a b && startsWithCI p' l'
  | _ :: _, [] => false
  end.

Definition endsWithCI (suffix l : list ascii) : bool :=
  startsWithCI (rev suffix) (rev l).

Definition Model : list ascii := list_ascii_of_string "Model".
Definition Geometry : list ascii := list_ascii_of_string "Geometry".

(** [s.replace(/(Model|Geometry)$/i, '')]: the pattern is anchored at the end
    of the input, so the only possible match is the suffix itself; a string
    cannot end in both words, so the order of the two tests is immaterial. *)
Definition stripExporterSuffix (l : list ascii) : list ascii :=
  if endsWithCI Model l then take (length l - 5) l
  else if endsWithCI Geometry l then take (length l - 8) l
  else l.

Definition isSideLetter (c : ascii) : bool :=
  eqCI c "l" || eqCI c "r" || eqCI c "j".

(** The side suffix: [s.match] against the pattern "any run of characters,
    a dot, one of l r j, end of input" (flag [i]), then [s = m[1].trim()].
    The match succeeds when the string is [m1 ++ "." ++ [c]] with [c] one of
    l, r, j in either case and [m1] free of line terminators ([.] does not
    match them). *)
Definition stripSideSuffix (l : list ascii) : list ascii :=
  match rev l with
  | c :: dot :: m1 =>
      if isSideLetter c && (code dot =? 46)%N
         && forallb (λ x, negb (isLineTerminator x)) m1
      then trim (rev m1) else l
  | _ => l
  end.

(** [s.replace(/C+/g, sep)] for a character class [C]: every maximal run of
    characters of the class becomes one [sep].  [inRun] tells whether the
    previous character belonged to the class. *)
Fixpoint collapseRuns (p : ascii → bool) (sep : ascii) (inRun : bool)
    (l : list ascii) : list ascii :=
  match l with
  | [] => []
  | c :: r =>
      if p c then (if inRun then collapseRuns p sep true r
                   else sep :: collapseRuns p sep true r)
      else c :: collapseRuns p sep false r
  end.

Definition normalizeLabelChars (raw : list ascii) : list ascii :=
  let s := trim (removeNul raw) in
  match s with
  | [] => []
  | _ =>
      let s := trim (stripExporterSuffix s) in
      let s := stripSideSuffix s in
      trim (collapseRuns isWhiteSpace " " false s)
  end.

(** [s.replace(/[^a-z0-9]+/g, '_').replace(/^_+|_+$/g, '')] after
    [toLowerCase]. *)
Definition slugifyChars (raw : list ascii) : list ascii :=
  let s := map toLowerChar (normalizeLabelChars raw) in
  let s := collapseRuns (λ c, negb (isLowerAlnum c)) "_" false s in
  dropWhileEnd isUnderscore (dropWhile isUnderscore s).

(** [s.includes(q)] *)
Fixpoint startsWith (p l : list ascii) : bool :=
  match p, l with
  | [], _ => true
  | a :: p', b :: l' => (code a =? code b)%N && startsWith p' l'
  | _ :: _, [] => false
  end.

Fixpoint includesChars (l q : list ascii) : bool :=
  startsWith q l ||
  match l with
  | [] => false
  | _ :: r => includesChars r q
  end.

End Str.

(** [normalizeLabel(raw)]: trimmed label without the exporter and side
    suffixes, white space collapsed. *)
Definition normalizeLabel (raw : string) : string :=
  string_of_list_ascii (Str.normalizeLabelChars (list_ascii_of_string raw)).

(** [slugify(raw)]: the canonical key of a raw name. *)
Definition slugify (raw : string) : string :=
  string_of_list_ascii (Str.slugifyChars (list_ascii_of_string raw)).

Definition partKeyFromName (rawName : string) : string := slugify rawName.

(** [s.trim()], [s.toLowerCase()], [s.includes(q)] and [s.length] on strings. *)
Definition jsTrim (s : string) : string :=
  string_of_list_ascii (Str.trim (list_ascii_of_string s)).

Definition toLowerCase (s : string) : string :=
  string_of_list_ascii (map Str.toLowerChar (list_ascii_of_string s)).

Definition includes (s q : string) : bool :=
  Str.includesChars (list_ascii_of_string s) (list_ascii_of_string q).

Definition isEmpty (s : string) : bool :=
  match s with EmptyString => true | _ => false end.

(** Does the key end in one of the exporter suffixes, as
    [normalizeLabel] tests it? *)
Definition endsWithExporterSuffix (s : string) : bool :=
  Str.endsWithCI Str.Model (list_ascii_of_string s)
  || Str.endsWithCI Str.Geometry (list_ascii_of_string s).


(** ** The shape of a key *)

Module KeyShape.
Import Str.

(** The characters of a key: lower-case letters, digits, the separator. *)
Definition slugChar (c : ascii) : bool := isLowerAlnum c || isUnderscore c.

(** No two separators in a row; [prevU]: the character before was one. *)
Fixpoint sepOk (prevU : bool) (l : list ascii) : bool :=
  match l with
  | [] => true
  | c :: r =>
      if isLowerAlnum c then sepOk false r
      else isUnderscore c && negb prevU && sepOk true r
  end.

Definition noLead (p : ascii → bool) (l : list ascii) : bool :=
  match l with [] => true | c :: _ => negb (p c) end.

(** The shape of every key. *)
Record isKey (t : list ascii) : Prop := {
  key_sep : sepOk false t = true;
  key_lead : noLead isUnderscore t = true;
  key_trail : dropWhileEnd isUnderscore t = t
}.

End KeyShape.
(** ** Maps that are iterated

    A JavaScript [Map] keeps its keys in insertion order, and [set] on a key
    that is present keeps the key's position. *)

Fixpoint mapGet {V} (k : string) (m : list (string * V)) : option V :=
  match m with
  | [] => None
  | (k', v) :: r => if decide (k = k') then Some v else mapGet k r
  end.

Definition mapHas {V} (k : string) (m : list (string * V)) : bool :=
  match mapGet k m with Some _ => true | None => false end.

Fixpoint mapSet {V} (k : string) (v : V) (m : list (string * V)) : list (string * V) :=
  match m with
  | [] => [(k, v)]
  | (k', v') :: r => if decide (k = k') then (k, v) :: r else (k', v') :: mapSet k v r
  end.

Definition mapValues {V} (m : list (string * V)) : list V := snd <$> m.

(** ** The group index *)

Module Group.
(** [{ key, name, meshKeys }] *)
Record t := mk { key : string; name : string; meshKeys : gset string }.
End Group.

(** One value of the variants object: an array of raw names, or anything
    else ([Array.isArray] fails).  A raw name stands for [String(raw ?? '')],
    the string [normalizeLabel] computes from it first. *)
Inductive VariantValue :=
| VArray (raws : list string)
| VOther.

(** A metadata value [v] as the code reads it: [name] is [Some s] when
    [typeof v.name === 'string'], [variants] is [Some vs] when [v.variants] is
    a non-null object, [vs] being [Object.values(v.variants)].  A value that
    is null or not an object has neither. *)
Module Meta.
Record t := mk { name : option string; variants : option (list VariantValue) }.
End Meta.

(** [Object.entries(groupsJson || {})] *)
Abbreviation GroupsJson := (list (string * Meta.t)).

(** [v && typeof v.name === 'string' && v.name.trim().length ? v.name.trim() : String(k)] *)
Definition displayName (k : string) (v : Meta.t) : string :=
  match Meta.name v with
  | Some n => if isEmpty (jsTrim n) then k else jsTrim n
  | None => k
  end.

(** The two nested loops over [Object.values(v.variants)]. *)
Definition addRaw (meshKeys : gset string) (raw : string) : gset string :=
  let mk := slugify raw in
  if isEmpty mk then meshKeys else meshKeys ∪ {[mk]}.

Definition addVariant (meshKeys : gset string) (arr : VariantValue) : gset string :=
  match arr with
  | VArray raws => foldl addRaw meshKeys raws
  | VOther => meshKeys
  end.

Definition variantMeshKeys (v : Meta.t) : gset string :=
  match Meta.variants v with
  | Some vs => foldl addVariant ∅ vs
  | None => ∅
  end.

(** The body of the loop of [buildGroupIndex]. *)
Definition buildGroupStep (groupByKey : list (string * Group.t)) (e : string * Meta.t)
    : list (string * Group.t) :=
  let name := displayName e.1 e.2 in
  let groupKey := slugify name in
  if isEmpty groupKey then groupByKey
  else
    let meshKeys := variantMeshKeys e.2 ∪ {[groupKey]} in
    match mapGet groupKey groupByKey with
    | None => mapSet groupKey (Group.mk groupKey name meshKeys) groupByKey
    | Some g =>
        mapSet groupKey
          (Group.mk (Group.key g) (Group.name g) (Group.meshKeys g ∪ meshKeys))
          groupByKey
    end.

(** [buildGroupIndex(groupsJson)]: the new value of [groupByKey]. *)
Definition buildGroupIndex (groupsJson : GroupsJson) : list (string * Group.t) :=
  foldl buildGroupStep [] groupsJson.

(** ** Selection *)

(** The set update of [toggleGroup(key)]. *)
Definition toggleKey (key : string) (selectedGroupKeys : gset string) : gset string :=
  if isEmpty key then selectedGroupKeys
  else if bool_decide (key ∈ selectedGroupKeys) then selectedGroupKeys ∖ {[key]}
  else selectedGroupKeys ∪ {[key]}.

(** The body of the loop of [computeSelectedMeshKeys]. *)
Definition expandKey (groupByKey : list (string * Group.t)) (out : gset string)
    (gk : string) : gset string :=
  match mapGet gk groupByKey with
  | Some g =>
      if bool_decide (size (Group.meshKeys g) ≠ 0) then out ∪ Group.meshKeys g
      else out ∪ {[gk]}
  | None => out ∪ {[gk]}
  end.

(** [computeSelectedMeshKeys()] *)
Definition computeSelectedMeshKeys (groupByKey : list (string * Group.t))
    (selectedGroupKeys : gset string) : gset string :=
  foldl (expandKey groupByKey) ∅ (elements selectedGroupKeys).

(** ** Materials

    A [THREE.Color] is represented by its hex value; [copy], [clone] and [set]
    move that value.  Every property the code tests for before use
    ([m.color], [typeof m.opacity === 'number'], ['depthWrite' in m], ...) is
    optional in the record. *)

Definition Color := Z.

Module Material.
Record t := mk {
  color : option Color;
  emissive : option Color;
  opacity : option float;
  transparent : option bool;
  depthWrite : option bool;
  depthTest : option bool;
  needsUpdate : bool
}.

Definition set_color (x : option Color) (r : t) : t :=
  {| color := x; emissive := emissive r; opacity := opacity r; transparent := transparent r; depthWrite := depthWrite r; depthTest := depthTest r; needsUpdate := needsUpdate r |}.
Definition set_emissive (x : option Color) (r : t) : t :=
  {| color := color r; emissive := x; opacity := opacity r; transparent := transparent r; depthWrite := depthWrite r; depthTest := depthTest r; needsUpdate := needsUpdate r |}.
Definition set_opacity (x : option float) (r : t) : t :=
  {| color := color r; emissive := emissive r; opacity := x; transparent := transparent r; depthWrite := depthWrite r; depthTest := depthTest r; needsUpdate := needsUpdate r |}.
Definition set_transparent (x : option bool) (r : t) : t :=
  {| color := color r; emissive := emissive r; opacity := opacity r; transparent := x; depthWrite := depthWrite r; depthTest := depthTest r; needsUpdate := needsUpdate r |}.
Definition set_depthWrite (x : option bool) (r : t) : t :=
  {| color := color r; emissive := emissive r; opacity := opacity r; transparent := transparent r; depthWrite := x; depthTest := depthTest r; needsUpdate := needsUpdate r |}.
Definition set_depthTest (x : option bool) (r : t) : t :=
  {| color := color r; emissive := emissive r; opacity := opacity r; transparent := transparent r; depthWrite := depthWrite r; depthTest := x; needsUpdate := needsUpdate r |}.
Definition set_needsUpdate (x : bool) (r : t) : t :=
  {| color := color r; emissive := emissive r; opacity := opacity r; transparent := transparent r; depthWrite := depthWrite r; depthTest := depthTest r; needsUpdate := x |}.

(** [m.clone()]: a new material with the same appearance. *)
Definition clone (m : t) : t := set_needsUpdate false m.

(** [new THREE.MeshStandardMaterial({ color: 0x888888 })] *)
Definition standard (c : Color) : t :=
  mk (Some c) (Some 0%Z) (Some 1%float) (Some false) (Some true) (Some true) false.
End Material.

Module Snapshot.
Record t := mk {
  hasColor : bool;
  color : option Color;
  hasEmissive : bool;
  emissive : option Color;
  opacity : float;
  transparent : bool;
  depthWrite : bool;
  depthTest : bool
}.
End Snapshot.

Definition isSome {A} (o : option A) : bool :=
  match o with Some _ => true | None => false end.

(** [snapshotMaterial(m)] *)
Definition snapshotMaterial (m : Material.t) : Snapshot.t :=
  {| Snapshot.hasColor := isSome (Material.color m);
     Snapshot.color := Material.color m;
     Snapshot.hasEmissive := isSome (Material.emissive m);
     Snapshot.emissive := Material.emissive m;
     Snapshot.opacity := default 1%float (Material.opacity m);
     Snapshot.transparent := default false (Material.transparent m);
     Snapshot.depthWrite := default true (Material.depthWrite m);
     Snapshot.depthTest := default true (Material.depthTest m) |}.

Inductive MeshState := Base | Dim | Sel.

(** [if (m.color && src) m.color.copy(src)] and its emissive twin. *)
Definition copyColor (src : option Color) (m : Material.t) : Material.t :=
  match Material.color m, src with
  | Some _, Some c => Material.set_color (Some c) m
  | _, _ => m
  end.

Definition copyEmissive (src : option Color) (m : Material.t) : Material.t :=
  match Material.emissive m, src with
  | Some _, Some c => Material.set_emissive (Some c) m
  | _, _ => m
  end.

(** [if (m.color) m.color.set(hex)] and its emissive twin. *)
Definition setColorHex (hex : Z) (m : Material.t) : Material.t :=
  if isSome (Material.color m) then Material.set_color (Some hex) m else m.

Definition setEmissiveHex (hex : Z) (m : Material.t) : Material.t :=
  if isSome (Material.emissive m) then Material.set_emissive (Some hex) m else m.

(** [if ('depthWrite' in m) m.depthWrite = b] and its depth-test twin. *)
Definition setDepthWrite (b : bool) (m : Material.t) : Material.t :=
  if isSome (Material.depthWrite m) then Material.set_depthWrite (Some b) m else m.

Definition setDepthTest (b : bool) (m : Material.t) : Material.t :=
  if isSome (Material.depthTest m) then Material.set_depthTest (Some b) m else m.

(** The body of the loop of [setMeshState] for one material [m] with its
    snapshot [o = base[i] || null]. *)
Definition setMaterialState (state : MeshState) (o : option Snapshot.t) (m : Material.t)
    : Material.t :=
  let m :=
    match state with
    | Base =>
        match o with
        | Some o =>
            let m := copyColor (Snapshot.color o) m in
            let m := copyEmissive (Snapshot.emissive o) m in
            let m := Material.set_opacity (Some (Snapshot.opacity o)) m in
            let m := Material.set_transparent (Some (Snapshot.transparent o)) m in
            let m := setDepthWrite (Snapshot.depthWrite o) m in
            setDepthTest (Snapshot.depthTest o) m
        | None => m
        end
    | Dim =>
        let m := setColorHex 0x444444 m in
        let m := setEmissiveHex 0x000000 m in
        let m := Material.set_transparent (Some true) m in
        let m := Material.set_opacity (Some 0.07%float) m in
        let m := setDepthWrite false m in
        setDepthTest true m
    | Sel =>
        let m := match o with Some o => copyColor (Snapshot.color o) m | None => m end in
        let m := setEmissiveHex 0xff2222 m in
        let m := Material.set_transparent (Some false) m in
        let m := Material.set_opacity (Some 1%float) m in
        let m := setDepthWrite true m in
        setDepthTest true m
    end in
  Material.set_needsUpdate true m.

(** ** Scene objects and the object store *)

(** [mesh.material]: one material or an array of them; a slot may be null.
    A material is referred to by its address in the material store. *)
Inductive MaterialSlot :=
| Single (m : option nat)
| Multi (ms : list (option nat)).

(** [Array.isArray(mesh.material) ? mesh.material : [mesh.material]] *)
Definition matsOf (s : MaterialSlot) : list (option nat) :=
  match s with Single m => [m] | Multi ms => ms end.

Module Object3D.
(** A node of a loaded model: [partKey] and [matBase] are
    [userData.partKey] and [userData._matBase]. *)
Record t := mk {
  isMesh : bool;
  name : string;
  hasGeometry : bool;
  material : MaterialSlot;
  partKey : option string;
  matBase : option (list Snapshot.t);
  renderOrder : Z
}.

Definition set_isMesh (x : bool) (r : t) : t :=
  {| isMesh := x; name := name r; hasGeometry := hasGeometry r; material := material r; partKey := partKey r; matBase := matBase r; renderOrder := renderOrder r |}.
Definition set_name (x : string) (r : t) : t :=
  {| isMesh := isMesh r; name := x; hasGeometry := hasGeometry r; material := material r; partKey := partKey r; matBase := matBase r; renderOrder := renderOrder r |}.
Definition set_hasGeometry (x : bool) (r : t) : t :=
  {| isMesh := isMesh r; name := name r; hasGeometry := x; material := material r; partKey := partKey r; matBase := matBase r; renderOrder := renderOrder r |}.
Definition set_material (x : MaterialSlot) (r : t) : t :=
  {| isMesh := isMesh r; name := name r; hasGeometry := hasGeometry r; material := x; partKey := partKey r; matBase := matBase r; renderOrder := renderOrder r |}.
Definition set_partKey (x : option string) (r : t) : t :=
  {| isMesh := isMesh r; name := name r; hasGeometry := hasGeometry r; material := material r; partKey := x; matBase := matBase r; renderOrder := renderOrder r |}.
Definition set_matBase (x : option (list Snapshot.t)) (r : t) : t :=
  {| isMesh := isMesh r; name := name r; hasGeometry := hasGeometry r; material := material r; partKey := partKey r; matBase := x; renderOrder := renderOrder r |}.
Definition set_renderOrder (x : Z) (r : t) : t :=
  {| isMesh := isMesh r; name := name r; hasGeometry := hasGeometry r; material := material r; partKey := partKey r; matBase := matBase r; renderOrder := x |}.
End Object3D.

Module Store.
(** The objects the loader and [clone] allocate.  An address is a position
    in [materials] or [objects]; nothing is ever freed.  The two logs record
    the calls of [dispose]: on the geometry of the mesh at an address, and on
    the material at an address. *)
Record t := mk {
  materials : list Material.t;
  objects : list Object3D.t;
  disposedGeometries : list nat;
  disposedMaterials : list nat
}.

Definition set_materials (x : list Material.t) (r : t) : t :=
  {| materials := x; objects := objects r; disposedGeometries := disposedGeometries r; disposedMaterials := disposedMaterials r |}.
Definition set_objects (x : list Object3D.t) (r : t) : t :=
  {| materials := materials r; objects := x; disposedGeometries := disposedGeometries r; disposedMaterials := disposedMaterials r |}.
Definition set_disposedGeometries (x : list nat) (r : t) : t :=
  {| materials := materials r; objects := objects r; disposedGeometries := x; disposedMaterials := disposedMaterials r |}.
Definition set_disposedMaterials (x : list nat) (r : t) : t :=
  {| materials := materials r; objects := objects r; disposedGeometries := disposedGeometries r; disposedMaterials := x |}.

Definition empty : t := mk [] [] [] [].
End Store.

(** A loaded [Object3D] tree is the list of the addresses of its nodes in
    [traverse] order, the root first. *)
Abbreviation Object3DRef := (list nat).

(** What the model loader produces, before it is placed in the store:
    material references are positions in the asset's own material table, so
    two nodes that name the same position share one material object. *)
Module Asset.
Record node := mkNode {
  isMesh : bool;
  name : string;
  hasGeometry : bool;
  material : MaterialSlot
}.
Record t := mk { materials : list Material.t; nodes : list node }.
End Asset.

Definition shiftRef (b : nat) (r : option nat) : option nat :=
  match r with Some i => Some (b + i) | None => None end.

Definition shiftSlot (b : nat) (s : MaterialSlot) : MaterialSlot :=
  match s with
  | Single r => Single (shiftRef b r)
  | Multi rs => Multi (map (shiftRef b) rs)
  end.

Definition instantiate (b : nat) (n : Asset.node) : Object3D.t :=
  Object3D.mk (Asset.isMesh n) (Asset.name n) (Asset.hasGeometry n)
    (shiftSlot b (Asset.material n)) None None 0.

(** The loader's result [obj] enters the store: fresh addresses for its
    materials and nodes. *)
Definition allocAsset (a : Asset.t) (s : Store.t) : Store.t * Object3DRef :=
  let bm := length (Store.materials s) in
  let bo := length (Store.objects s) in
  (Store.set_objects (Store.objects s ++ (instantiate bm <$> Asset.nodes a))
     (Store.set_materials (Store.materials s ++ Asset.materials a) s),
   seq bo (length (Asset.nodes a))).

(** The callback of [root.traverse] in [disposeObject]. *)
Definition disposeMaterial (s : Store.t) (r : option nat) : Store.t :=
  match r with
  | Some a =>
      match Store.materials s !! a with
      | Some _ => Store.set_disposedMaterials (Store.disposedMaterials s ++ [a]) s
      | None => s
      end
  | None => s
  end.

Definition disposeNode (s : Store.t) (a : nat) : Store.t :=
  match Store.objects s !! a with
  | Some obj =>
      if Object3D.isMesh obj then
        let s := if Object3D.hasGeometry obj
                 then Store.set_disposedGeometries (Store.disposedGeometries s ++ [a]) s
                 else s in
        foldl disposeMaterial s (matsOf (Object3D.material obj))
      else s
  | None => s
  end.

(** [disposeObject(root)] *)
Definition disposeObject (root : option Object3DRef) (s : Store.t) : Store.t :=
  match root with
  | Some nodes => foldl disposeNode s nodes
  | None => s
  end.

(** [m && m.clone ? m.clone() : null], then the basic material in place of
    null. *)
Definition cloneOrDefault (ms : list Material.t) (r : option nat) : Material.t :=
  match r ≫= (ms !!.) with
  | Some m => Material.clone m
  | None => Material.standard 0x888888%Z
  end.

(** [ensureUniqueMaterials(mesh)] for the mesh at address [a].  The fresh
    materials take consecutive fresh addresses, in the order of the slots. *)
Definition ensureUniqueMaterials (a : nat) (s : Store.t) : Store.t :=
  match Store.objects s !! a with
  | None => s
  | Some mesh =>
      let mats := matsOf (Object3D.material mesh) in
      let cloned := cloneOrDefault (Store.materials s) <$> mats in
      let addrs := seq (length (Store.materials s)) (length mats) in
      let slot := match Object3D.material mesh with
                  | Multi _ => Multi (Some <$> addrs)
                  | Single _ => Single (head addrs)
                  end in
      let mesh := Object3D.set_matBase (Some (snapshotMaterial <$> cloned)) mesh in
      let mesh := Object3D.set_material slot mesh in
      Store.set_objects (<[a := mesh]> (Store.objects s))
        (Store.set_materials (Store.materials s ++ cloned) s)
  end.

(** The loop of [setMeshState] over [mats], [base] consumed in step. *)
Fixpoint paintMaterials (state : MeshState) (base : list Snapshot.t)
    (mats : list (option nat)) (ms : list Material.t) : list Material.t :=
  match mats with
  | [] => ms
  | r :: mats' =>
      let ms' :=
        match r with
        | Some a =>
            match ms !! a with
            | Some m => <[a := setMaterialState state (head base) m]> ms
            | None => ms
            end
        | None => ms
        end in
      paintMaterials state (tail base) mats' ms'
  end.

(** [setMeshState(mesh, state)] for the mesh at address [a]. *)
Definition setMeshState (a : nat) (state : MeshState) (s : Store.t) : Store.t :=
  match Store.objects s !! a with
  | None => s
  | Some mesh =>
      let ms := paintMaterials state (default [] (Object3D.matBase mesh))
                  (matsOf (Object3D.material mesh)) (Store.materials s) in
      let mesh := Object3D.set_renderOrder
                    (match state with Sel => 2 | _ => 0 end) mesh in
      Store.set_objects (<[a := mesh]> (Store.objects s)) (Store.set_materials ms s)
  end.
(** ** The system catalogue *)

Module System.
Record t := mk { label : string; fbx : string; groups : string }.
End System.

(** The own properties of the object literal [SYSTEMS]. *)
Definition SYSTEMS_own : list (string * System.t) :=
  [ ("bones",   System.mk "Bones"   "./assets/bones.fbx"   "./meta/bones_groups.json");
    ("muscles", System.mk "Muscles" "./assets/muscles.fbx" "./meta/muscles_groups.json");
    ("nerves",  System.mk "Nerves"  "./assets/nerves.fbx"  "./meta/nerves_groups.json");
    ("vessels", System.mk "Vessels" "./assets/vessels.fbx" "./meta/vessels_groups.json");
    ("organs",  System.mk "Organs"  "./assets/organs.fbx"  "./meta/organs_groups.json") ].

(** [SYSTEMS] is an object literal, so a property read that finds no own
    property continues in [Object.prototype].  These are the names defined
    there; each holds a function (or, for [__proto__], the prototype object):
    a truthy value without [label], [fbx] or [groups]. *)
Definition objectPrototypeNames : list string :=
  [ "constructor"; "hasOwnProperty"; "isPrototypeOf"; "propertyIsEnumerable";
    "toLocaleString"; "toString"; "valueOf"; "__proto__";
    "__defineGetter__"; "__defineSetter__"; "__lookupGetter__"; "__lookupSetter__" ].

(** The value of [SYSTEMS[systemKey]]. *)
Inductive Lookup :=
| Own (sys : System.t)
| Inherited
| Undefined.

Definition SYSTEMS (systemKey : string) : Lookup :=
  match mapGet systemKey SYSTEMS_own with
  | Some sys => Own sys
  | None => if bool_decide (systemKey ∈ objectPrototypeNames) then Inherited else Undefined
  end.

(** [sys.label], [sys.fbx], [sys.groups]: undefined on an inherited value. *)
Definition sysLabel (sys : Lookup) : option string :=
  match sys with Own s => Some (System.label s) | _ => None end.

Definition sysFbx (sys : Lookup) : option string :=
  match sys with Own s => Some (System.fbx s) | _ => None end.

Definition sysGroups (sys : Lookup) : option string :=
  match sys with Own s => Some (System.groups s) | _ => None end.

(** ** The page: status line, loading overlay, chips, filter box *)

Inductive Error :=
| UnknownSystem (systemKey : string)
| FetchFailed
| LoadFailed.

(** The texts the code writes, by template. *)
Inductive UiText :=
| TextEmpty
| TextLoading
| TextLoadingMetadata (label : option string)
| TextLoadingModel (label : option string)
| TextSwitching (label : option string)
| TextSummary (label : option string) (meshes selected_groups highlighted_meshes : nat)
| TextError (e : Error).

Module Chip.
(** A chip button: [key] and [search] are its [dataset] entries, [selected]
    is the class of that name. *)
Record t := mk {
  textContent : string;
  key : string;
  search : string;
  selected : bool;
  hidden : bool
}.

Definition set_textContent (x : string) (r : t) : t :=
  {| textContent := x; key := key r; search := search r; selected := selected r; hidden := hidden r |}.
Definition set_key (x : string) (r : t) : t :=
  {| textContent := textContent r; key := x; search := search r; selected := selected r; hidden := hidden r |}.
Definition set_search (x : string) (r : t) : t :=
  {| textContent := textContent r; key := key r; search := x; selected := selected r; hidden := hidden r |}.
Definition set_selected (x : bool) (r : t) : t :=
  {| textContent := textContent r; key := key r; search := search r; selected := x; hidden := hidden r |}.
Definition set_hidden (x : bool) (r : t) : t :=
  {| textContent := textContent r; key := key r; search := search r; selected := selected r; hidden := x |}.
End Chip.

Module Dom.
Record t := mk {
  chips : list Chip.t;
  filterValue : string;
  status : UiText;
  loadingShown : bool;
  loadingText : UiText
}.

Definition set_chips (x : list Chip.t) (r : t) : t :=
  {| chips := x; filterValue := filterValue r; status := status r; loadingShown := loadingShown r; loadingText := loadingText r |}.
Definition set_filterValue (x : string) (r : t) : t :=
  {| chips := chips r; filterValue := x; status := status r; loadingShown := loadingShown r; loadingText := loadingText r |}.
Definition set_status (x : UiText) (r : t) : t :=
  {| chips := chips r; filterValue := filterValue r; status := x; loadingShown := loadingShown r; loadingText := loadingText r |}.
Definition set_loadingShown (x : bool) (r : t) : t :=
  {| chips := chips r; filterValue := filterValue r; status := status r; loadingShown := x; loadingText := loadingText r |}.
Definition set_loadingText (x : UiText) (r : t) : t :=
  {| chips := chips r; filterValue := filterValue r; status := status r; loadingShown := loadingShown r; loadingText := x |}.

Definition empty : t := mk [] "" TextEmpty false TextEmpty.
End Dom.

(** ** Asynchronous work *)

(** Where a call of [loadSystem] stands: suspended at one of its two
    [await]s, or settled. *)
Inductive Phase := AwaitGroups | AwaitModel | Fulfilled | Rejected.

Module Task.
Record t := mk { systemKey : string; token : Z; phase : Phase }.
Definition set_phase (p : Phase) (r : t) : t := mk (systemKey r) (token r) p.
End Task.

(** The I/O the viewer issues, with the URL it passes. *)
Inductive Request :=
| Fetch (url : option string)
| LoadFbx (url : option string).

(** ** The viewer state: the module-level variables, the stores, the page *)

Record Viewer := mkViewer {
  store : Store.t;
  dom : Dom.t;
  scene : list Object3DRef;
  modelRoot : option Object3DRef;
  meshList : list nat;
  meshByKey : list (string * list nat);
  groupByKey : list (string * Group.t);
  selectedGroupKeys : gset string;
  activeSystem : string;
  loadToken : Z;
  tasks : list Task.t;
  requests : list Request
}.

Definition set_store (x : Store.t) (r : Viewer) : Viewer :=
  {| store := x; dom := dom r; scene := scene r; modelRoot := modelRoot r; meshList := meshList r; meshByKey := meshByKey r; groupByKey := groupByKey r; selectedGroupKeys := selectedGroupKeys r; activeSystem := activeSystem r; loadToken := loadToken r; tasks := tasks r; requests := requests r |}.
Definition set_dom (x : Dom.t) (r : Viewer) : Viewer :=
  {| store := store r; dom := x; scene := scene r; modelRoot := modelRoot r; meshList := meshList r; meshByKey := meshByKey r; groupByKey := groupByKey r; selectedGroupKeys := selectedGroupKeys r; activeSystem := activeSystem r; loadToken := loadToken r; tasks := tasks r; requests := requests r |}.
Definition set_scene (x : list Object3DRef) (r : Viewer) : Viewer :=
  {| store := store r; dom := dom r; scene := x; modelRoot := modelRoot r; meshList := meshList r; meshByKey := meshByKey r; groupByKey := groupByKey r; selectedGroupKeys := selectedGroupKeys r; activeSystem := activeSystem r; loadToken := loadToken r; tasks := tasks r; requests := requests r |}.
Definition set_modelRoot (x : option Object3DRef) (r : Viewer) : Viewer :=
  {| store := store r; dom := dom r; scene := scene r; modelRoot := x; meshList := meshList r; meshByKey := meshByKey r; groupByKey := groupByKey r; selectedGroupKeys := selectedGroupKeys r; activeSystem := activeSystem r; loadToken := loadToken r; tasks := tasks r; requests := requests r |}.
Definition set_meshList (x : list nat) (r : Viewer) : Viewer :=
  {| store := store r; dom := dom r; scene := scene r; modelRoot := modelRoot r; meshList := x; meshByKey := meshByKey r; groupByKey := groupByKey r; selectedGroupKeys := selectedGroupKeys r; activeSystem := activeSystem r; loadToken := loadToken r; tasks := tasks r; requests := requests r |}.
Definition set_meshByKey (x : list (string * list nat)) (r : Viewer) : Viewer :=
  {| store := store r; dom := dom r; scene := scene r; modelRoot := modelRoot r; meshList := meshList r; meshByKey := x; groupByKey := groupByKey r; selectedGroupKeys := selectedGroupKeys r; activeSystem := activeSystem r; loadToken := loadToken r; tasks := tasks r; requests := requests r |}.
Definition set_groupByKey (x : list (string * Group.t)) (r : Viewer) : Viewer :=
  {| store := store r; dom := dom r; scene := scene r; modelRoot := modelRoot r; meshList := meshList r; meshByKey := meshByKey r; groupByKey := x; selectedGroupKeys := selectedGroupKeys r; activeSystem := activeSystem r; loadToken := loadToken r; tasks := tasks r; requests := requests r |}.
Definition set_selectedGroupKeys (x : gset string) (r : Viewer) : Viewer :=
  {| store := store r; dom := dom r; scene := scene r; modelRoot := modelRoot r; meshList := meshList r; meshByKey := meshByKey r; groupByKey := groupByKey r; selectedGroupKeys := x; activeSystem := activeSystem r; loadToken := loadToken r; tasks := tasks r; requests := requests r |}.
Definition set_activeSystem (x : string) (r : Viewer) : Viewer :=
  {| store := store r; dom := dom r; scene := scene r; modelRoot := modelRoot r; meshList := meshList r; meshByKey := meshByKey r; groupByKey := groupByKey r; selectedGroupKeys := selectedGroupKeys r; activeSystem := x; loadToken := loadToken r; tasks := tasks r; requests := requests r |}.
Definition set_loadToken (x : Z) (r : Viewer) : Viewer :=
  {| store := store r; dom := dom r; scene := scene r; modelRoot := modelRoot r; meshList := meshList r; meshByKey := meshByKey r; groupByKey := groupByKey r; selectedGroupKeys := selectedGroupKeys r; activeSystem := activeSystem r; loadToken := x; tasks := tasks r; requests := requests r |}.
Definition set_tasks (x : list Task.t) (r : Viewer) : Viewer :=
  {| store := store r; dom := dom r; scene := scene r; modelRoot := modelRoot r; meshList := meshList r; meshByKey := meshByKey r; groupByKey := groupByKey r; selectedGroupKeys := selectedGroupKeys r; activeSystem := activeSystem r; loadToken := loadToken r; tasks := x; requests := requests r |}.
Definition set_requests (x : list Request) (r : Viewer) : Viewer :=
  {| store := store r; dom := dom r; scene := scene r; modelRoot := modelRoot r; meshList := meshList r; meshByKey := meshByKey r; groupByKey := groupByKey r; selectedGroupKeys := selectedGroupKeys r; activeSystem := activeSystem r; loadToken := loadToken r; tasks := tasks r; requests := x |}.

(** The state when the module has been evaluated, before the first
    [loadSystem(activeSystem)]. *)
Definition initial : Viewer :=
  mkViewer Store.empty Dom.empty [] None [] [] [] ∅ "muscles" 0 [] [].

(** [Array.prototype.sort] with a comparator: a stable sort.  [insertBy]
    places [x] before the first element it does not follow. *)
Fixpoint insertBy {A} (cmp : A → A → Z) (x : A) (l : list A) : list A :=
  match l with
  | [] => [x]
  | y :: r => if (cmp x y <=? 0)%Z then x :: l else y :: insertBy cmp x r
  end.

Definition jsSort {A} (cmp : A → A → Z) (l : list A) : list A :=
  foldr (insertBy cmp) [] l.

Definition setStatus (msg : UiText) (v : Viewer) : Viewer :=
  set_dom (Dom.set_status msg (dom v)) v.

Definition setLoading (show : bool) (msg : UiText) (v : Viewer) : Viewer :=
  set_dom (Dom.set_loadingText msg (Dom.set_loadingShown show (dom v))) v.

(** [updateChipSelectionUI()] *)
Definition updateChipSelectionUI (v : Viewer) : Viewer :=
  set_dom
    (Dom.set_chips
       ((λ c, Chip.set_selected (bool_decide (Chip.key c ∈ selectedGroupKeys v)) c)
          <$> Dom.chips (dom v))
       (dom v)) v.

(** The body of the loop of [applyFilter] for the normalised query [q]. *)
Definition filterChip (q : string) (c : Chip.t) : Chip.t :=
  if isEmpty q then Chip.set_hidden false c
  else Chip.set_hidden (negb (includes (Chip.search c) q)) c.

(** [applyFilter(text)] *)
Definition applyFilter (text : string) (v : Viewer) : Viewer :=
  let q := slugify text in
  set_dom (Dom.set_chips (filterChip q <$> Dom.chips (dom v)) (dom v)) v.

(** The body of the loop of [applySelectionToMeshes]. *)
Definition partKeyOf (s : Store.t) (a : nat) : string :=
  default "" (Store.objects s !! a ≫= Object3D.partKey).

Definition paintMesh (selectedMeshKeys : gset string) (hasSelection : bool)
    (acc : Store.t * nat) (a : nat) : Store.t * nat :=
  let mk := partKeyOf acc.1 a in
  if negb hasSelection then (setMeshState a Base acc.1, acc.2)
  else if negb (isEmpty mk) && bool_decide (mk ∈ selectedMeshKeys)
       then (setMeshState a Sel acc.1, S acc.2)
       else (setMeshState a Dim acc.1, acc.2).

(** [applySelectionToMeshes()].  The status line reads
    [SYSTEMS[activeSystem].label]; [activeSystem] only ever holds a key that
    passed the guard of [loadSystem], so that lookup is never undefined. *)
Definition applySelectionToMeshes (v : Viewer) : Viewer :=
  let selectedMeshKeys := computeSelectedMeshKeys (groupByKey v) (selectedGroupKeys v) in
  let hasSelection := bool_decide (0 < size selectedMeshKeys) in
  let r := foldl (paintMesh selectedMeshKeys hasSelection) (store v, 0) (meshList v) in
  setStatus
    (TextSummary (sysLabel (SYSTEMS (activeSystem v))) (length (meshList v))
       (size (selectedGroupKeys v)) r.2)
    (set_store r.1 v).

(** [toggleGroup(key)] *)
Definition toggleGroup (key : string) (v : Viewer) : Viewer :=
  if isEmpty key then v
  else
    let v := set_selectedGroupKeys (toggleKey key (selectedGroupKeys v)) v in
    applySelectionToMeshes (updateChipSelectionUI v).

(** [clearSelection()] *)
Definition clearSelection (v : Viewer) : Viewer :=
  applySelectionToMeshes (updateChipSelectionUI (set_selectedGroupKeys ∅ v)).

(** The callback of [modelRoot.traverse] in [loadModel]. *)
Definition registerMesh (v : Viewer) (a : nat) : Viewer :=
  match Store.objects (store v) !! a with
  | None => v
  | Some child =>
      if Object3D.isMesh child then
        let key := partKeyFromName (Object3D.name child) in
        let s := Store.set_objects
                   (<[a := Object3D.set_partKey (Some key) child]> (Store.objects (store v)))
                   (store v) in
        let v := set_store (ensureUniqueMaterials a s) v in
        let v := set_meshList (meshList v ++ [a]) v in
        set_meshByKey
          (mapSet key (default [] (mapGet key (meshByKey v)) ++ [a]) (meshByKey v)) v
      else v
  end.

(** [loadModel] after its [await]: [token] is the token the call captured,
    [asset] what the loader produced.  [fitCameraToObject] moves the camera and
    recentres the root; neither is part of this model. *)
Definition loadModel_resume (token : Z) (asset : Asset.t) (v : Viewer) : Viewer :=
  let alloc := allocAsset asset (store v) in
  let obj := alloc.2 in
  let v := set_store alloc.1 v in
  if negb (token =? loadToken v)%Z then
    set_store (disposeObject (Some obj) (store v)) v
  else
    let v :=
      match modelRoot v with
      | Some root =>
          let v := set_scene (filter (λ x, x ≠ root) (scene v)) v in
          let v := set_store (disposeObject (Some root) (store v)) v in
          set_modelRoot None v
      | None => v
      end in
    let v := set_modelRoot (Some obj) v in
    let v := set_scene (scene v ++ [obj]) v in
    let v := set_meshList [] v in
    let v := set_meshByKey [] v in
    let v := foldl registerMesh v obj in
    let v := setLoading false TextLoading v in
    applySelectionToMeshes v.

(** [loadModel] up to its [await]: the guard, the overlay, the request. *)
Definition loadModel_call (systemKey : string) (v : Viewer) : Viewer + Error :=
  match SYSTEMS systemKey with
  | Undefined => inr (UnknownSystem systemKey)
  | sys =>
      let v := setLoading true (TextLoadingModel (sysLabel sys)) v in
      inl (set_requests (requests v ++ [LoadFbx (sysFbx sys)]) v)
  end.

(** [loadGroups] up to its [await]. *)
Definition loadGroups_call (systemKey : string) (v : Viewer) : Viewer + Error :=
  match SYSTEMS systemKey with
  | Undefined => inr (UnknownSystem systemKey)
  | sys =>
      let v := setLoading true (TextLoadingMetadata (sysLabel sys)) v in
      inl (set_requests (requests v ++ [Fetch (sysGroups sys)]) v)
  end.

Section Collation.

(** [a.localeCompare(b, undefined, { sensitivity: 'base' })]: the collation of
    the browser's locale, a parameter of the model. *)
Variable localeCompare : string → string → Z.

(** [renderChips()] *)
Definition renderChips (v : Viewer) : Viewer :=
  let groups :=
    jsSort (λ a b, localeCompare (Group.name a) (Group.name b))
      (mapValues (groupByKey v)) in
  let chips :=
    (λ g, Chip.mk (Group.name g) (Group.key g) (slugify (Group.name g)) false false)
      <$> groups in
  let v := set_dom (Dom.set_chips chips (dom v)) v in
  applyFilter (Dom.filterValue (dom v)) (updateChipSelectionUI v).

(** [loadGroups] after its [await]. *)
Definition loadGroups_resume (token : Z) (groupsJson : GroupsJson) (v : Viewer) : Viewer :=
  if negb (token =? loadToken v)%Z then v
  else
    let v := set_groupByKey (buildGroupIndex groupsJson) v in
    setLoading false TextLoading (renderChips v).

(** [loadSystem(systemKey)] up to its first suspension.  The result is the
    error when the call throws; otherwise a new task waits for the metadata.
    [++loadToken] is exact: a double counts integers without loss far beyond
    any number of calls. *)
Definition loadSystem (systemKey : string) (v : Viewer) : Viewer * option Error :=
  match SYSTEMS systemKey with
  | Undefined => (v, Some (UnknownSystem systemKey))
  | sys =>
      let v := set_activeSystem systemKey v in
      let v := set_selectedGroupKeys ∅ v in
      let v := updateChipSelectionUI v in
      let v := setStatus (TextSwitching (sysLabel sys)) v in
      let token := (loadToken v + 1)%Z in
      let v := set_loadToken token v in
      match loadGroups_call systemKey v with
      | inl v => (set_tasks (tasks v ++ [Task.mk systemKey token AwaitGroups]) v, None)
      | inr e => (set_tasks (tasks v ++ [Task.mk systemKey token Rejected]) v, Some e)
      end
  end.

(** What the page and the network do to the viewer. *)
Inductive Event :=
| CallLoadSystem (systemKey : string)
| FetchSettled (task : nat) (result : option GroupsJson)
| ModelSettled (task : nat) (result : option Asset.t)
| ChipClick (key : string)
| Pick (hit : option nat)
| ClearSelection
| FilterInput (text : string)
| ClearFilter.

Definition setPhase (i : nat) (p : Phase) (v : Viewer) : Viewer :=
  match tasks v !! i with
  | Some t => set_tasks (<[i := Task.set_phase p t]> (tasks v)) v
  | None => v
  end.

(** The continuation of task [i] when its metadata request settles:
    the rest of [loadGroups], then [loadModel] up to its [await]. *)
Definition onFetchSettled (i : nat) (t : Task.t) (result : option GroupsJson)
    (v : Viewer) : Viewer :=
  match result with
  | None => setStatus (TextError FetchFailed) (setPhase i Rejected v)
  | Some groupsJson =>
      let v := loadGroups_resume (Task.token t) groupsJson v in
      match loadModel_call (Task.systemKey t) v with
      | inl v => setPhase i AwaitModel v
      | inr e => setStatus (TextError e) (setPhase i Rejected v)
      end
  end.

(** The continuation of task [i] when its model request settles. *)
Definition onModelSettled (i : nat) (t : Task.t) (result : option Asset.t)
    (v : Viewer) : Viewer :=
  match result with
  | None => setStatus (TextError LoadFailed) (setPhase i Rejected v)
  | Some asset => setPhase i Fulfilled (loadModel_resume (Task.token t) asset v)
  end.

(** [pick(clientX, clientY)] with the nearest hit of the ray, if any. *)
Definition pick (hit : option nat) (v : Viewer) : Viewer :=
  match hit with
  | None => v
  | Some a =>
      let obj := Store.objects (store v) !! a in
      let k := match obj ≫= Object3D.partKey with
               | Some k => if isEmpty k
                           then partKeyFromName (default "" (Object3D.name <$> obj))
                           else k
               | None => partKeyFromName (default "" (Object3D.name <$> obj))
               end in
      if isEmpty k then v else toggleGroup k v
  end.

(** One event.  [None]: the event cannot happen in this state (no such
    request is in flight). *)
Definition step (v : Viewer) (e : Event) : option Viewer :=
  match e with
  | CallLoadSystem systemKey =>
      match loadSystem systemKey v with
      | (v, None) => Some v
      | (v, Some err) => Some (setStatus (TextError err) v)
      end
  | FetchSettled i result =>
      match tasks v !! i with
      | Some t =>
          match Task.phase t with
          | AwaitGroups => Some (onFetchSettled i t result v)
          | _ => None
          end
      | None => None
      end
  | ModelSettled i result =>
      match tasks v !! i with
      | Some t =>
          match Task.phase t with
          | AwaitModel => Some (onModelSettled i t result v)
          | _ => None
          end
      | None => None
      end
  | ChipClick key => Some (toggleGroup key v)
  | Pick hit => Some (pick hit v)
  | ClearSelection => Some (clearSelection v)
  | FilterInput text =>
      Some (applyFilter text (set_dom (Dom.set_filterValue text (dom v)) v))
  | ClearFilter =>
      Some (applyFilter "" (set_dom (Dom.set_filterValue "" (dom v)) v))
  end.

Fixpoint run (v : Viewer) (es : list Event) : option Viewer :=
  match es with
  | [] => Some v
  | e :: es' =>
      match step v e with
      | Some v' => run v' es'
      | None => None
      end
  end.

(** The states the viewer can be in. *)
Definition reachable (v : Viewer) : Prop := ∃ es, run initial es = Some v.

End Collation.

(** ** What the specification says, in its own terms *)

(** The group key an entry of the metadata derives, and the member keys it
    contributes: the keys of its variant lists and the group key itself. *)
Definition entryKey (e : string * Meta.t) : string := slugify (displayName e.1 e.2).

Definition entryMembers (e : string * Meta.t) : gset string :=
  variantMeshKeys e.2 ∪ {[entryKey e]}.

(** The union of the members of all entries with key [k]. *)
Definition membersOf (k : string) (groupsJson : GroupsJson) : gset string :=
  foldl (λ acc e, if decide (entryKey e = k) then acc ∪ entryMembers e else acc)
    ∅ groupsJson.

(** The group of key [k] the metadata describes: named after the first
    entry with that key, none for the empty key. *)
Definition groupOf (k : string) (groupsJson : GroupsJson) : option Group.t :=
  match List.find (λ e, bool_decide (entryKey e = k)) groupsJson with
  | Some e =>
      if isEmpty k then None
      else Some (Group.mk k (displayName e.1 e.2) (membersOf k groupsJson))
  | None => None
  end.

(** The member set a selected key stands for: the group's, or the key alone
    when no group has that key. *)
Definition memberSet (groupByKey : list (string * Group.t)) (gk : string) : gset string :=
  match mapGet gk groupByKey with
  | Some g => Group.meshKeys g
  | None => {[gk]}
  end.

(** The expanded mesh-key set: the union over the selected keys. *)
Definition expand (groupByKey : list (string * Group.t)) (selectedGroupKeys : gset string)
    : gset string :=
  ⋃ (memberSet groupByKey <$> elements selectedGroupKeys).

(** Every group has a member: the condition under which [size] is never 0
    in [computeSelectedMeshKeys]. *)
Definition groupsInhabited (groupByKey : list (string * Group.t)) : Prop :=
  ∀ k g, mapGet k groupByKey = Some g → Group.meshKeys g ≠ ∅.

(** The state the specification assigns to a mesh: a function of the expanded
    mesh-key set and of the mesh's part key. *)
Definition stateFor (expandedKeySet : gset string) (partKey : string) : MeshState :=
  if decide (expandedKeySet = ∅) then Base
  else if decide (partKey ∈ expandedKeySet) then Sel
  else Dim.


(** A snapshot and a material agree on which colours exist. *)
Definition shapeOk (o : Snapshot.t) (m : Material.t) : Prop :=
  isSome (Snapshot.color o) = isSome (Material.color m)
  ∧ isSome (Snapshot.emissive o) = isSome (Material.emissive m).

Definition sameShape (m m' : Material.t) : Prop :=
  isSome (Material.color m) = isSome (Material.color m')
  ∧ isSome (Material.emissive m) = isSome (Material.emissive m').

(** [mesh.material] of the object at an address ([[]] when there is none). *)
Definition matsAt (s : Store.t) (a : nat) : list (option nat) :=
  match Store.objects s !! a with
  | Some mesh => matsOf (Object3D.material mesh)
  | None => []
  end.

(** The mesh at [a] as [ensureUniqueMaterials] leaves it and every repaint
    keeps it: its slots hold the distinct materials [addrs], and [base] holds
    one snapshot per slot, of the same shape as the material. *)
Record meshOk (s : Store.t) (a : nat) (addrs : list nat) (base : list Snapshot.t) : Prop := {
  mo_obj : ∃ mesh, Store.objects s !! a = Some mesh
                   ∧ matsOf (Object3D.material mesh) = Some <$> addrs
                   ∧ Object3D.matBase mesh = Some base;
  mo_nodup : NoDup addrs;
  mo_len : length base = length addrs;
  mo_mats : ∀ i addr, addrs !! i = Some addr →
              ∃ m o, Store.materials s !! addr = Some m ∧ base !! i = Some o ∧ shapeOk o m
}.

(** The mesh index: no mesh twice, every mesh as above, and no material
    shared between two meshes. *)
Record meshesOk (s : Store.t) (meshList : list nat) : Prop := {
  ms_nodup : NoDup meshList;
  ms_mesh : ∀ a, a ∈ meshList → ∃ addrs base, meshOk s a addrs base;
  ms_apart : ∀ a b x, a ∈ meshList → b ∈ meshList → a ≠ b →
               Some x ∈ matsAt s a → Some x ∉ matsAt s b
}.

(** What holds in every state the viewer reaches. *)
Record Inv (v : Viewer) : Prop := {
  inv_selected : "" ∉ selectedGroupKeys v;
  inv_groups : ∃ groupsJson, groupByKey v = buildGroupIndex groupsJson;
  inv_system : SYSTEMS (activeSystem v) ≠ Undefined;
  inv_meshes : meshesOk (store v) (meshList v)
}.

(** The mesh at [a] is painted as [st]: the draw order of [st], and every
    material a fixed point of the state with its snapshot. *)
Definition paintedAs (s : Store.t) (a : nat) (st : MeshState) : Prop :=
  ∃ mesh, Store.objects s !! a = Some mesh
    ∧ Object3D.renderOrder mesh = (match st with Sel => 2 | _ => 0 end)%Z
    ∧ ∀ i addr m,
        matsOf (Object3D.material mesh) !! i = Some (Some addr) →
        Store.materials s !! addr = Some m →
        setMaterialState st (default [] (Object3D.matBase mesh) !! i) m = m.

(** Painting the mesh at [a] with a list of states, one after the other. *)
Definition paintAll (a : nat) (l : list MeshState) (s : Store.t) : Store.t :=
  foldl (λ s st, setMeshState a st s) s l.

(** The state in which the traversal of the new root starts. *)
Definition replaceRoot (asset : Asset.t) (v : Viewer) : Viewer :=
  let alloc := allocAsset asset (store v) in
  let s := match modelRoot v with
           | Some root => disposeObject (Some root) alloc.1
           | None => alloc.1
           end in
  let sc := match modelRoot v with
            | Some root => filter (λ x, x ≠ root) (scene v)
            | None => scene v
            end in
  set_meshByKey [] (set_meshList [] (set_scene (sc ++ [alloc.2])
    (set_modelRoot (Some alloc.2) (set_store s v)))).


(** ** A concrete collation and concrete inputs for the examples *)

(** Comparison by code units: a stand-in for [localeCompare] where a concrete
    comparator is needed to run the model. *)
Definition codeUnitCompare (a b : string) : Z :=
  match String.compare a b with Lt => (-1)%Z | Eq => 0%Z | Gt => 1%Z end.

(** A model whose two meshes refer to ONE material object, and a third mesh
    with a material array that has an empty slot. *)
Definition sharedMaterialAsset : Asset.t :=
  Asset.mk
    [ Material.mk (Some 0xc08060%Z) (Some 0%Z) (Some 1%float) (Some false)
        (Some true) (Some true) false ]
    [ Asset.mkNode false "Armature" false (Single None);
      Asset.mkNode true "VastusLateralis.l" true (Single (Some 0));
      Asset.mkNode true "VastusLateralis.r" true (Single (Some 0));
      Asset.mkNode true "RectusFemorisModel" true (Multi [Some 0; None]) ].

Definition quadricepsJson : GroupsJson :=
  [ ("quad", Meta.mk (Some "Quadriceps")
               (Some [VArray ["VastusLateralis.l"]; VArray ["VastusLateralis.r"]])) ].

Definition musclesLoadedEvents : list (Event) :=
  [ CallLoadSystem "muscles";
    FetchSettled 0 (Some quadricepsJson);
    ModelSettled 0 (Some sharedMaterialAsset) ].

(** The viewer after the muscles have loaded, and after the quadriceps chip
    has been clicked. *)
Definition musclesLoaded : Viewer :=
  default initial (run codeUnitCompare initial musclesLoadedEvents).

Definition quadricepsSelected : Viewer :=
  default initial
    (run codeUnitCompare initial (musclesLoadedEvents ++ [ChipClick "quadriceps"])).

(** The store right after the loader has produced that model. *)
Definition freshAssetStore : Store.t := (allocAsset sharedMaterialAsset Store.empty).1.

(** The state [paintMesh] picks. *)
Definition pickedState (keys : gset string) (hasSelection : bool) (mk : string) : MeshState :=
  if negb hasSelection then Base
  else if negb (isEmpty mk) && bool_decide (mk ∈ keys) then Sel else Dim.

(** Two groups that share a member. *)
Definition expansionExample : GroupsJson :=
  [ ("m1", Meta.mk None (Some [VArray ["m2"]]));
    ("m3", Meta.mk None (Some [VArray ["m2"]])) ].

(** ** Overlapping loads, in the terms of the specification *)

(** The state the specification calls shared: group index, mesh index,
    selection, scene. *)
Definition sharedState (v : Viewer) :=
  (groupByKey v, meshList v, meshByKey v, selectedGroupKeys v, scene v, modelRoot v).

(** Every object and material of [s] is still there, unchanged, in [s']. *)
Definition storePreserved (s s' : Store.t) : Prop :=
  (∀ a o, Store.objects s !! a = Some o → Store.objects s' !! a = Some o)
  ∧ (∀ x m, Store.materials s !! x = Some m → Store.materials s' !! x = Some m).

Definition isCompletionOf (i : nat) (e : Event) : bool :=
  match e with
  | FetchSettled j _ | ModelSettled j _ => bool_decide (i = j)
  | _ => false
  end.

(** Along the run of [es] from [v], no completion of task [i] changes the
    shared state or any object or material that exists. *)
Fixpoint leavesShared (localeCompare : string → string → Z) (i : nat) (v : Viewer)
    (es : list Event) : Prop :=
  match es with
  | [] => True
  | e :: es' =>
      match step localeCompare v e with
      | Some v' =>
          (isCompletionOf i e = true →
             sharedState v' = sharedState v ∧ storePreserved (store v) (store v'))
          ∧ leavesShared localeCompare i v' es'
      | None => True
      end
  end.

(** The interleavings of the completions of two tasks. *)
Inductive Merge {A} : list A → list A → list A → Prop :=
| merge_nil : Merge [] [] []
| merge_left x l1 l2 l : Merge l1 l2 l → Merge (x :: l1) l2 (x :: l)
| merge_right x l1 l2 l : Merge l1 l2 l → Merge l1 (x :: l2) (x :: l).

(** The completions of a task: its metadata request settles; when that did
    not fail, its model request is issued and settles. *)
Definition completions (i : nat) (fetched : option GroupsJson) (loaded : option Asset.t)
    : list Event :=
  match fetched with
  | Some groupsJson => [FetchSettled i (Some groupsJson); ModelSettled i loaded]
  | None => [FetchSettled i None]
  end.

Definition isMeshAt (s : Store.t) (a : nat) : bool :=
  match Store.objects s !! a with
  | Some o => Object3D.isMesh o
  | None => false
  end.

(** [asset] is the active model: its nodes are the root in the scene, its
    meshes, each with the key of its name, are the mesh list, and the key
    map lists under every key the meshes of the mesh list with that key. *)
Definition modelActive (asset : Asset.t) (v : Viewer) : Prop :=
  ∃ bo,
    let obj := seq bo (length (Asset.nodes asset)) in
    modelRoot v = Some obj
    ∧ obj ∈ scene v
    ∧ meshList v = List.filter (isMeshAt (store v)) obj
    ∧ (∀ j node, Asset.nodes asset !! j = Some node →
         ∃ o, Store.objects (store v) !! (bo + j) = Some o
              ∧ Object3D.name o = Asset.name node
              ∧ Object3D.isMesh o = Asset.isMesh node
              ∧ Object3D.hasGeometry o = Asset.hasGeometry node
              ∧ (Asset.isMesh node = true →
                   Object3D.partKey o = Some (slugify (Asset.name node))))
    ∧ (∀ k, default [] (mapGet k (meshByKey v))
            = List.filter (λ a, bool_decide (partKeyOf (store v) a = k)) (meshList v))
    ∧ (∀ a, a ∈ meshList v → ∀ x, Some x ∈ matsAt (store v) a →
         is_Some (Store.materials (store v) !! x)).

(** [asset] was loaded and thrown away: its objects are in the store as the
    loader made them, none of them is in the mesh list, and [dispose] has been
    called on the geometry and on every material of every one of its
    meshes. *)
Definition modelDisposed (asset : Asset.t) (v : Viewer) : Prop :=
  ∃ bo bm,
    (∀ j node, Asset.nodes asset !! j = Some node →
       Store.objects (store v) !! (bo + j) = Some (instantiate bm node)
       ∧ ((bo + j) ∉ meshList v)
       ∧ (Asset.isMesh node = true → Asset.hasGeometry node = true →
            (bo + j) ∈ Store.disposedGeometries (store v))
       ∧ (Asset.isMesh node = true →
            ∀ k, Some k ∈ matsOf (Asset.material node) →
                 k < length (Asset.materials asset) →
                 (bm + k) ∈ Store.disposedMaterials (store v)))
    ∧ (∀ k m, Asset.materials asset !! k = Some m →
         Store.materials (store v) !! (bm + k) = Some m).

(** Two versions of a node that differ at most in the draw order. *)
Definition sameNode (o o' : Object3D.t) : Prop :=
  Object3D.isMesh o' = Object3D.isMesh o
  ∧ Object3D.name o' = Object3D.name o
  ∧ Object3D.hasGeometry o' = Object3D.hasGeometry o
  ∧ Object3D.material o' = Object3D.material o
  ∧ Object3D.partKey o' = Object3D.partKey o
  ∧ Object3D.matBase o' = Object3D.matBase o.

(** The key map lists, under every key, the meshes of the mesh list with
    that part key, in the order of the mesh list. *)
Definition meshByKeyOk (v : Viewer) : Prop :=
  ∀ k, default [] (mapGet k (meshByKey v))
       = List.filter (λ a, bool_decide (partKeyOf (store v) a = k)) (meshList v).

(** Where the two overlapping calls stand: task [n] (system [k1], token
    [T + 1]) is superseded by task [n + 1] (system [k2], token [T + 2], the
    current token); [p1] and [p2] are their phases. *)
Record Overlap (n : nat) (k1 k2 : string) (T : Z) (groupsJson2 : GroupsJson)
    (asset2 : Asset.t) (loaded1 : option Asset.t) (p1 p2 : Phase) (v : Viewer) : Prop := {
  ov_inv : Inv v;
  ov_token : loadToken v = (T + 2)%Z;
  ov_task1 : tasks v !! n = Some (Task.mk k1 (T + 1) p1);
  ov_task2 : tasks v !! S n = Some (Task.mk k2 (T + 2) p2);
  ov_selected : selectedGroupKeys v = ∅;
  ov_active : activeSystem v = k2;
  ov_groups : p2 ≠ AwaitGroups → groupByKey v = buildGroupIndex groupsJson2;
  ov_model : p2 = Fulfilled → modelActive asset2 v;
  ov_stale : p1 = Fulfilled → ∀ asset1, loaded1 = Some asset1 → modelDisposed asset1 v
}.

(** What is still to come of the superseded task [n] in phase [p], and the
    phase it ends in. *)
Definition pending1 (n : nat) (fetched1 : option GroupsJson) (loaded1 : option Asset.t)
    (p : Phase) : list Event :=
  match p with
  | AwaitGroups => completions n fetched1 loaded1
  | AwaitModel => [ModelSettled n loaded1]
  | Fulfilled | Rejected => []
  end.

Definition settled1 (fetched1 : option GroupsJson) (loaded1 : option Asset.t)
    (p : Phase) : Phase :=
  match p with
  | AwaitGroups =>
      match fetched1, loaded1 with
      | Some _, Some _ => Fulfilled
      | _, _ => Rejected
      end
  | AwaitModel => match loaded1 with Some _ => Fulfilled | None => Rejected end
  | p => p
  end.

(** The same for the current task [n + 1], whose requests succeed. *)
Definition pending2 (n : nat) (groupsJson2 : GroupsJson) (asset2 : Asset.t)
    (p : Phase) : list Event :=
  match p with
  | AwaitGroups => completions (S n) (Some groupsJson2) (Some asset2)
  | AwaitModel => [ModelSettled (S n) (Some asset2)]
  | Fulfilled | Rejected => []
  end.

Definition settled2 (p : Phase) : Phase :=
  match p with
  | AwaitGroups | AwaitModel => Fulfilled
  | p => p
  end.

(** A second model and its metadata, and one interleaving of the
    completions of two calls: the model of the superseded call arrives
    last. *)
Definition bonesAsset : Asset.t :=
  Asset.mk
    [ Material.mk (Some 0xe8e0d0%Z) (Some 0%Z) (Some 1%float) (Some false)
        (Some true) (Some true) false ]
    [ Asset.mkNode false "Skeleton" false (Single None);
      Asset.mkNode true "Femur.l" true (Single (Some 0));
      Asset.mkNode true "Tibia.l" true (Single (Some 0)) ].

Definition bonesJson : GroupsJson :=
  [ ("leg", Meta.mk (Some "Leg") (Some [VArray ["Femur.l"; "Tibia.l"]])) ].

Definition bonesThenMuscles : list Event :=
  [ CallLoadSystem "bones"; CallLoadSystem "muscles" ].

Definition staleModelLast : list Event :=
  [ FetchSettled 0 (Some bonesJson);
    FetchSettled 1 (Some quadricepsJson);
    ModelSettled 1 (Some sharedMaterialAsset);
    ModelSettled 0 (Some bonesAsset) ].

Definition afterOverlap : Viewer :=
  default initial (run codeUnitCompare initial (bonesThenMuscles ++ staleModelLast)).

(** ** Filtering the chips *)

(** What the page shows of a group: its key and its label. *)
Definition groupEntry (g : Group.t) : string * string := (Group.key g, Group.name g).

(** The chips that are not hidden, in document order. *)
Definition shownChips (v : Viewer) : list (string * string) :=
  (λ c, (Chip.key c, Chip.textContent c))
    <$> List.filter (λ c, negb (Chip.hidden c)) (Dom.chips (dom v)).

(** The groups in the order in which [renderChips] appends their chips. *)
Definition groupsByName (localeCompare : string → string → Z)
    (groupByKey : list (string * Group.t)) : list Group.t :=
  jsSort (λ a b, localeCompare (Group.name a) (Group.name b)) (mapValues groupByKey).

(** What [renderChips] writes into a chip, and the chips being those of the
    group index. *)
Definition chipData (c : Chip.t) : string * string * string :=
  (Chip.textContent c, Chip.key c, Chip.search c).

Definition chipsRendered (localeCompare : string → string → Z) (v : Viewer) : Prop :=
  chipData <$> Dom.chips (dom v)
  = (λ g, (Group.name g, Group.key g, slugify (Group.name g)))
      <$> groupsByName localeCompare (groupByKey v).

(** [(a.length - b.length) || cmp(a, b)] *)
Definition byLengthThen (cmp : string → string → Z) (a b : string) : Z :=
  let d := (Z.of_nat (String.length a) - Z.of_nat (String.length b))%Z in
  if (d =? 0)%Z then cmp a b else d.

(** [filterGroups] in the words of the specification: the groups whose
    normalized display name contains the normalized query, by length of the
    display name and then lexicographically, at most [cap] of them. *)
Definition filterGroups_spec (lexCompare : string → string → Z) (cap : nat)
    (groups : list Group.t) (queryText : string) : list (string * string) :=
  take cap
    (groupEntry <$>
       jsSort (λ a b, byLengthThen lexCompare (Group.name a) (Group.name b))
         (List.filter (λ g, includes (slugify (Group.name g)) (slugify queryText)) groups)).

(** The search of the earlier page ([part_000]), for metadata whose names,
    where present, are strings. *)
Module Legacy.

(** [v.name || k] *)
Definition itemName (k : string) (v : Meta.t) : string :=
  match Meta.name v with
  | Some n => if isEmpty n then k else n
  | None => k
  end.

(** The items, as pairs of key and name. *)
Definition items (groups : GroupsJson) : list (string * string) :=
  (λ e, (e.1, itemName e.1 e.2)) <$> groups.

(** [it.name.toLowerCase().includes(q) || it.key.includes(q)] *)
Definition matches (q : string) (it : string * string) : bool :=
  includes (toLowerCase it.2) q || includes it.1 q.

Definition query (searchValue : string) : string := toLowerCase (jsTrim searchValue).

(** [renderChipsFromSearch()]: the chips it appends, as key and label.
    [localeCompare] is the comparison without options. *)
Definition renderChipsFromSearch (localeCompare : string → string → Z)
    (searchValue : string) (groups : GroupsJson) : list (string * string) :=
  let q := query searchValue in
  let filtered := if isEmpty q then items groups else List.filter (matches q) (items groups) in
  let filtered := jsSort (λ a b, byLengthThen localeCompare a.2 b.2) filtered in
  take 140 filtered.

End Legacy.

(** Inputs for the examples: two groups whose order by length differs from
    their order by name, and the viewer with their chips; a group whose key
    differs from its name; many groups. *)
Definition twoNamesJson : GroupsJson :=
  [ ("bb", Meta.mk None None); ("c", Meta.mk None None) ].

Definition twoNames : Viewer :=
  default initial
    (run codeUnitCompare initial
       [CallLoadSystem "muscles"; FetchSettled 0 (Some twoNamesJson)]).

Definition filterInput (text : string) (v : Viewer) : Viewer :=
  default v (step codeUnitCompare v (FilterInput text)).

Definition keyedJson : GroupsJson :=
  [ ("zzz", Meta.mk (Some "Vastus Lateralis") None) ].

Definition letterName (i : nat) : string :=
  String (ascii_of_nat (97 + i / 26)) (String (ascii_of_nat (97 + i mod 26)) EmptyString).

Definition manyJson (n : nat) : GroupsJson :=
  (λ i, (letterName i, Meta.mk None None)) <$> seq 0 n.

Definition manyGroups (n : nat) : Viewer :=
  default initial
    (run codeUnitCompare initial
       [CallLoadSystem "muscles"; FetchSettled 0 (Some (manyJson n))]).

(** ** The page and the scene against the selection *)

(** The expanded mesh-key set of the viewer's selection. *)
Definition selectedMeshKeys (v : Viewer) : gset string :=
  computeSelectedMeshKeys (groupByKey v) (selectedGroupKeys v).

(** Every chip carries the class [selected] exactly when its key is
    selected. *)
Definition chipsInSync (v : Viewer) : Prop :=
  ∀ c, c ∈ Dom.chips (dom v) →
       Chip.selected c = bool_decide (Chip.key c ∈ selectedGroupKeys v).

Definition chipMark (c : Chip.t) : string * bool := (Chip.key c, Chip.selected c).



(** ** Load tokens *)

(** Tokens are issued in order, one per task: task [i] holds token [i + 1],
    and the current token is that of the last task. *)
Definition tokensOk (v : Viewer) : Prop :=
  loadToken v = Z.of_nat (length (tasks v))
  ∧ ∀ i t, tasks v !! i = Some t → Task.token t = Z.of_nat (S i).

(** The task is superseded: a later call of [loadSystem] has taken the
    token. *)
Definition superseded (v : Viewer) (i : nat) : Prop := S i < length (tasks v).

(** The viewer right after the two calls of [bonesThenMuscles]. *)
Definition twoCalls : Viewer :=
  default initial (run codeUnitCompare initial bonesThenMuscles).

(** ** The model in the scene *)

(** The scene holds the active model and no other; the mesh index is empty
    while there is none, and describes the active model otherwise. *)
Definition modelShown (v : Viewer) : Prop :=
  match modelRoot v with
  | None => scene v = [] ∧ meshList v = [] ∧ meshByKey v = []
  | Some root => scene v = [root] ∧ ∃ asset, modelActive asset v
  end.

(** The viewer while the muscles' model is still on its way. *)
Definition musclesPending : Viewer :=
  default initial
    (run codeUnitCompare initial
       [CallLoadSystem "muscles"; FetchSettled 0 (Some quadricepsJson);
        ChipClick "quadriceps"]).

(** The muscles are loaded and the bones' model is on its way. *)
Definition bonesPending : Viewer :=
  default initial
    (run codeUnitCompare initial
       (musclesLoadedEvents ++ [CallLoadSystem "bones"; FetchSettled 1 (Some bonesJson)])).

(** ** What [disposeObject] releases *)

(** The node at [a] is a mesh with a geometry. *)
Definition hasMeshGeometry (s : Store.t) (a : nat) : bool :=
  match Store.objects s !! a with
  | Some o => Object3D.isMesh o && Object3D.hasGeometry o
  | None => false
  end.

(** [m && m.dispose]: the slot holds a material. *)
Definition existingMaterial (s : Store.t) (r : option nat) : option nat :=
  match r with
  | Some x => match Store.materials s !! x with Some _ => Some x | None => None end
  | None => None
  end.

(** The materials in the slots of the mesh at [a], slot by slot; none for a
    node that is not a mesh. *)
Definition meshMaterials (s : Store.t) (a : nat) : list nat :=
  match Store.objects s !! a with
  | Some o =>
      if Object3D.isMesh o
      then omap (existingMaterial s) (matsOf (Object3D.material o))
      else []
  | None => []
  end.

(** ** Taps on the canvas ([initPicking])

    [clientX] and [clientY] are numbers, here binary64 floats; [pointerId] is
    an integer.  [hit] stands for what the ray through the pointer position
    hits first among the meshes of the mesh list. *)
Module Pointer.

Record t := mk {
  activePointers : gset Z;
  down : option (float * float)
}.

Definition initial : t := mk ∅ None.

(** The listener of [pointerdown]. *)
Definition pointerdown (id : Z) (x y : float) (p : t) : t :=
  let active := activePointers p ∪ {[id]} in
  mk active (if bool_decide (size active = 1) then Some (x, y) else None).

(** [dist2 > 36] *)
Definition isDrag (d : float * float) (x y : float) : bool :=
  let dx := (x - d.1)%float in
  let dy := (y - d.2)%float in
  (36 <? dx * dx + dy * dy)%float.

(** The listener of [pointerup]. *)
Definition pointerup (id : Z) (x y : float) (hit : option nat) (st : t * Viewer)
    : t * Viewer :=
  let active := activePointers st.1 ∖ {[id]} in
  match down st.1 with
  | None => (mk active None, st.2)
  | Some d =>
      if isDrag d x y then (mk active None, st.2)
      else (mk active None, pick hit st.2)
  end.

(** The listener of [pointercancel]. *)
Definition pointercancel (p : t) : t := mk ∅ None.

Inductive Event :=
| Down (id : Z) (x y : float)
| Up (id : Z) (x y : float) (hit : option nat)
| Cancel.

Definition handle (st : t * Viewer) (e : Event) : t * Viewer :=
  match e with
  | Down id x y => (pointerdown id x y st.1, st.2)
  | Up id x y hit => pointerup id x y hit st
  | Cancel => (pointercancel st.1, st.2)
  end.

Definition isDown (e : Event) : bool :=
  match e with Down _ _ _ => true | _ => false end.

End Pointer.

(** ** The earlier page ([part_000]): systems loaded side by side, one
    highlight, chips from a search

    Materials are objects whose identity is all that matters here; they are
    addresses, [highlightMat] being address 0.  The camera, the world offset
    and the button classes (which restate [loaded]) are left out. *)
Module Page.

(** One entry of the metadata: [name] and the lists under the tags [L], [R],
    [M] and [G] of [variants] ([[]] for a tag that is absent); lists of raw mesh
    names. *)
Record Meta := mkMeta {
  name : option string;
  variantsL : list string;
  variantsR : list string;
  variantsM : list string;
  variantsG : list string
}.

Abbreviation Groups := (list (string * Meta)).

(** The items [renderChipsFromSearch] builds: [{key, name, variants}]. *)
Record Item := mkItem { key : string; itemName : string; variants : Meta }.

Definition items (groups : Groups) : list Item :=
  (λ e, mkItem e.1
          (match name e.2 with
           | Some n => if isEmpty n then e.1 else n
           | None => e.1
           end) e.2) <$> groups.

Definition matches (q : string) (it : Item) : bool :=
  includes (toLowerCase (itemName it)) q || includes (key it) q.

(** What one run of [renderChipsFromSearch] appends for the query [q]. *)
Definition renderItems (localeCompare : string → string → Z) (q : string)
    (groups : Groups) : list Item :=
  let filtered := if isEmpty q then items groups else List.filter (matches q) (items groups) in
  let filtered := jsSort (λ a b, byLengthThen localeCompare (itemName a) (itemName b)) filtered in
  take 140 filtered.

Record Chip := mkChip { item : Item; on : bool }.

(** A node of a loaded tree.  [material] is what [obj.material] holds once
    the tree has been traversed; the loader's own materials are replaced
    before anything reads them. *)
Record Obj := mkObj {
  isMesh : bool;
  objName : string;
  hasGeometry : bool;
  parent : option nat;
  material : option nat;
  baseMat : option nat;
  system : option string;
  raw : option string
}.

Definition set_material (m : option nat) (o : Obj) : Obj :=
  mkObj (isMesh o) (objName o) (hasGeometry o) (parent o) m (baseMat o) (system o) (raw o).

(** What the loader produces: the nodes in [traverse] order, each with the
    position of its parent in that order. *)
Record Node := mkNode {
  nodeIsMesh : bool;
  nodeName : string;
  nodeHasGeometry : bool;
  nodeParent : option nat
}.

Abbreviation Asset := (list Node).

Record Entry := mkEntry {
  root : list nat;
  rawToMeshes : list (string * list nat);
  entryMat : nat
}.

Inductive Label :=
| LabelPicked (raw : string) (sysKey : string)
| LabelGroup (groupName : string).

Inductive Info :=
| InfoEmpty
| InfoLoading (sysKey : string)
| InfoLoaded (keys : list string)
| InfoLoadedAfterUnload (keys : list string)
| InfoNoSelection
| InfoCleared
| InfoLoadMusclesFirst
| InfoNotLoaded (groupName : string)
| InfoSelection (label : Label) (count : nat).

Inductive Phase := Pending | Done | Failed.

Record LoadTask := mkLoad { loadKey : string; loadMat : nat; loadPhase : Phase }.

(** A run of [renderChipsFromSearch] suspended at its [await]: the query it
    read, and the groups when [ensureGroups] found them in the cache. *)
Record RenderTask := mkRender {
  renderQuery : string;
  renderCached : option Groups;
  renderPhase : Phase
}.

Record t := mk {
  objects : list Obj;
  nextMat : nat;
  scene : list (list nat);
  loaded : list (string * Entry);
  metaCache : list (string * Groups);
  selectedMeshes : list nat;
  selectedChipKey : option string;
  chips : list Chip;
  searchValue : string;
  info : Info;
  disposedGeometries : list nat;
  disposedMaterials : list nat;
  loads : list LoadTask;
  renders : list RenderTask;
  requests : list Request
}.

Definition set_objects (x : list Obj) (r : t) : t :=
  {| objects := x; nextMat := nextMat r; scene := scene r; loaded := loaded r; metaCache := metaCache r; selectedMeshes := selectedMeshes r; selectedChipKey := selectedChipKey r; chips := chips r; searchValue := searchValue r; info := info r; disposedGeometries := disposedGeometries r; disposedMaterials := disposedMaterials r; loads := loads r; renders := renders r; requests := requests r |}.
Definition set_nextMat (x : nat) (r : t) : t :=
  {| objects := objects r; nextMat := x; scene := scene r; loaded := loaded r; metaCache := metaCache r; selectedMeshes := selectedMeshes r; selectedChipKey := selectedChipKey r; chips := chips r; searchValue := searchValue r; info := info r; disposedGeometries := disposedGeometries r; disposedMaterials := disposedMaterials r; loads := loads r; renders := renders r; requests := requests r |}.
Definition set_scene (x : list (list nat)) (r : t) : t :=
  {| objects := objects r; nextMat := nextMat r; scene := x; loaded := loaded r; metaCache := metaCache r; selectedMeshes := selectedMeshes r; selectedChipKey := selectedChipKey r; chips := chips r; searchValue := searchValue r; info := info r; disposedGeometries := disposedGeometries r; disposedMaterials := disposedMaterials r; loads := loads r; renders := renders r; requests := requests r |}.
Definition set_loaded (x : list (string * Entry)) (r : t) : t :=
  {| objects := objects r; nextMat := nextMat r; scene := scene r; loaded := x; metaCache := metaCache r; selectedMeshes := selectedMeshes r; selectedChipKey := selectedChipKey r; chips := chips r; searchValue := searchValue r; info := info r; disposedGeometries := disposedGeometries r; disposedMaterials := disposedMaterials r; loads := loads r; renders := renders r; requests := requests r |}.
Definition set_metaCache (x : list (string * Groups)) (r : t) : t :=
  {| objects := objects r; nextMat := nextMat r; scene := scene r; loaded := loaded r; metaCache := x; selectedMeshes := selectedMeshes r; selectedChipKey := selectedChipKey r; chips := chips r; searchValue := searchValue r; info := info r; disposedGeometries := disposedGeometries r; disposedMaterials := disposedMaterials r; loads := loads r; renders := renders r; requests := requests r |}.
Definition set_selectedMeshes (x : list nat) (r : t) : t :=
  {| objects := objects r; nextMat := nextMat r; scene := scene r; loaded := loaded r; metaCache := metaCache r; selectedMeshes := x; selectedChipKey := selectedChipKey r; chips := chips r; searchValue := searchValue r; info := info r; disposedGeometries := disposedGeometries r; disposedMaterials := disposedMaterials r; loads := loads r; renders := renders r; requests := requests r |}.
Definition set_selectedChipKey (x : option string) (r : t) : t :=
  {| objects := objects r; nextMat := nextMat r; scene := scene r; loaded := loaded r; metaCache := metaCache r; selectedMeshes := selectedMeshes r; selectedChipKey := x; chips := chips r; searchValue := searchValue r; info := info r; disposedGeometries := disposedGeometries r; disposedMaterials := disposedMaterials r; loads := loads r; renders := renders r; requests := requests r |}.
Definition set_chips (x : list Chip) (r : t) : t :=
  {| objects := objects r; nextMat := nextMat r; scene := scene r; loaded := loaded r; metaCache := metaCache r; selectedMeshes := selectedMeshes r; selectedChipKey := selectedChipKey r; chips := x; searchValue := searchValue r; info := info r; disposedGeometries := disposedGeometries r; disposedMaterials := disposedMaterials r; loads := loads r; renders := renders r; requests := requests r |}.
Definition set_searchValue (x : string) (r : t) : t :=
  {| objects := objects r; nextMat := nextMat r; scene := scene r; loaded := loaded r; metaCache := metaCache r; selectedMeshes := selectedMeshes r; selectedChipKey := selectedChipKey r; chips := chips r; searchValue := x; info := info r; disposedGeometries := disposedGeometries r; disposedMaterials := disposedMaterials r; loads := loads r; renders := renders r; requests := requests r |}.
Definition set_info (x : Info) (r : t) : t :=
  {| objects := objects r; nextMat := nextMat r; scene := scene r; loaded := loaded r; metaCache := metaCache r; selectedMeshes := selectedMeshes r; selectedChipKey := selectedChipKey r; chips := chips r; searchValue := searchValue r; info := x; disposedGeometries := disposedGeometries r; disposedMaterials := disposedMaterials r; loads := loads r; renders := renders r; requests := requests r |}.
Definition set_disposedGeometries (x : list nat) (r : t) : t :=
  {| objects := objects r; nextMat := nextMat r; scene := scene r; loaded := loaded r; metaCache := metaCache r; selectedMeshes := selectedMeshes r; selectedChipKey := selectedChipKey r; chips := chips r; searchValue := searchValue r; info := info r; disposedGeometries := x; disposedMaterials := disposedMaterials r; loads := loads r; renders := renders r; requests := requests r |}.
Definition set_disposedMaterials (x : list nat) (r : t) : t :=
  {| objects := objects r; nextMat := nextMat r; scene := scene r; loaded := loaded r; metaCache := metaCache r; selectedMeshes := selectedMeshes r; selectedChipKey := selectedChipKey r; chips := chips r; searchValue := searchValue r; info := info r; disposedGeometries := disposedGeometries r; disposedMaterials := x; loads := loads r; renders := renders r; requests := requests r |}.
Definition set_loads (x : list LoadTask) (r : t) : t :=
  {| objects := objects r; nextMat := nextMat r; scene := scene r; loaded := loaded r; metaCache := metaCache r; selectedMeshes := selectedMeshes r; selectedChipKey := selectedChipKey r; chips := chips r; searchValue := searchValue r; info := info r; disposedGeometries := disposedGeometries r; disposedMaterials := disposedMaterials r; loads := x; renders := renders r; requests := requests r |}.
Definition set_renders (x : list RenderTask) (r : t) : t :=
  {| objects := objects r; nextMat := nextMat r; scene := scene r; loaded := loaded r; metaCache := metaCache r; selectedMeshes := selectedMeshes r; selectedChipKey := selectedChipKey r; chips := chips r; searchValue := searchValue r; info := info r; disposedGeometries := disposedGeometries r; disposedMaterials := disposedMaterials r; loads := loads r; renders := x; requests := requests r |}.
Definition set_requests (x : list Request) (r : t) : t :=
  {| objects := objects r; nextMat := nextMat r; scene := scene r; loaded := loaded r; metaCache := metaCache r; selectedMeshes := selectedMeshes r; selectedChipKey := selectedChipKey r; chips := chips r; searchValue := searchValue r; info := info r; disposedGeometries := disposedGeometries r; disposedMaterials := disposedMaterials r; loads := loads r; renders := renders r; requests := x |}.

Definition highlightMat : nat := 0.

Definition initial : t :=
  mk [] 1 [] [] [] [] None [] "" InfoEmpty [] [] [] [] [].

(** [clearSelection()] *)
Definition restoreBase (objs : list Obj) (m : nat) : list Obj :=
  match objs !! m with
  | Some o =>
      match baseMat o with
      | Some b => <[m := set_material (Some b) o]> objs
      | None => objs
      end
  | None => objs
  end.

Definition clearSelection (st : t) : t :=
  let st := set_objects (foldl restoreBase (objects st) (selectedMeshes st)) st in
  let st := set_selectedMeshes [] st in
  let st := set_selectedChipKey None st in
  set_chips ((λ c, mkChip (item c) false) <$> chips st) st.

(** [selectMeshes(meshes, labelHtml)] *)
Definition highlight (objs : list Obj) (m : nat) : list Obj :=
  match objs !! m with
  | Some o => <[m := set_material (Some highlightMat) o]> objs
  | None => objs
  end.

Definition selectMeshes (meshes : list nat) (label : Label) (st : t) : t :=
  let st := clearSelection st in
  let st := set_selectedMeshes meshes st in
  let st := set_objects (foldl highlight (objects st) meshes) st in
  set_info (InfoSelection label (length meshes)) st.

(** [while (obj && !obj.isMesh) obj = obj.parent], at most [fuel] steps up. *)
Fixpoint firstMesh (fuel : nat) (objs : list Obj) (a : nat) : option nat :=
  match objs !! a with
  | None => None
  | Some o =>
      if isMesh o then Some a
      else match fuel, parent o with
           | S fuel', Some p => firstMesh fuel' objs p
           | _, _ => None
           end
  end.

(** [x || y] on strings: [x] unless it is undefined or empty. *)
Definition orElse (x : option string) (y : string) : string :=
  match x with
  | Some s => if isEmpty s then y else s
  | None => y
  end.

(** [pick(clientX, clientY)]; [hit] is the object the ray hits first under
    the loaded roots. *)
Definition pick (hit : option nat) (st : t) : t :=
  match hit with
  | None => set_info InfoNoSelection (clearSelection st)
  | Some a =>
      match firstMesh (length (objects st)) (objects st) a with
      | None => st
      | Some m =>
          let o := objects st !! m in
          let sysKey := orElse (o ≫= system) "unknown" in
          let rawName := orElse (o ≫= raw) (orElse (objName <$> o) "(unnamed)") in
          selectMeshes [m] (LabelPicked rawName sysKey) st
      end
  end.

(** [disposeObject3D(root)] *)
Definition disposeNode (st : t) (a : nat) : t :=
  match objects st !! a with
  | Some o =>
      if isMesh o then
        let st := if hasGeometry o
                  then set_disposedGeometries (disposedGeometries st ++ [a]) st
                  else st in
        match material o with
        | Some m => set_disposedMaterials (disposedMaterials st ++ [m]) st
        | None => st
        end
      else st
  | None => st
  end.

Definition disposeObject3D (nodes : list nat) (st : t) : t := foldl disposeNode st nodes.

(** [unloadSystem(sysKey)] *)
Definition unloadSystem (sysKey : string) (st : t) : t :=
  match mapGet sysKey (loaded st) with
  | None => st
  | Some entry =>
      let st := clearSelection st in
      let st := set_scene (filter (λ x, x ≠ root entry) (scene st)) st in
      let st := disposeObject3D (root entry) st in
      let st := set_loaded (List.filter (λ e, negb (String.eqb e.1 sysKey)) (loaded st)) st in
      set_info (InfoLoadedAfterUnload (loaded st).*1) st
  end.

(** [renderChipsFromSearch()] up to its [await]. *)
Definition renderChipsFromSearch_call (st : t) : t :=
  let q := toLowerCase (jsTrim (searchValue st)) in
  let st := set_chips [] st in
  match mapGet "muscles" (metaCache st) with
  | Some groups => set_renders (renders st ++ [mkRender q (Some groups) Pending]) st
  | None =>
      let st := set_requests (requests st ++ [Fetch (sysGroups (SYSTEMS "muscles"))]) st in
      set_renders (renders st ++ [mkRender q None Pending]) st
  end.

Definition setRenderPhase (i : nat) (p : Phase) (st : t) : t :=
  match renders st !! i with
  | Some r => set_renders (<[i := mkRender (renderQuery r) (renderCached r) p]> (renders st)) st
  | None => st
  end.

Definition setLoadPhase (i : nat) (p : Phase) (st : t) : t :=
  match loads st !! i with
  | Some l => set_loads (<[i := mkLoad (loadKey l) (loadMat l) p]> (loads st)) st
  | None => st
  end.

Section PageCollation.
Variable localeCompare : string → string → Z.

(** The rest of [renderChipsFromSearch] for run [i]: [fetched] is the
    outcome of the request when the groups were not in the cache. *)
Definition renderChipsFromSearch_resume (i : nat) (r : RenderTask)
    (fetched : option Groups) (st : t) : t :=
  let append groups st :=
    set_chips (chips st ++ ((λ it, mkChip it false) <$> renderItems localeCompare (renderQuery r) groups))
      st in
  match renderCached r with
  | Some groups => setRenderPhase i Done (append groups st)
  | None =>
      match fetched with
      | Some groups =>
          let st := set_metaCache (mapSet "muscles" groups (metaCache st)) st in
          setRenderPhase i Done (append groups st)
      | None => setRenderPhase i Failed st
      end
  end.

End PageCollation.

(** [loadSystem(sysKey)] up to its [await]. *)
Definition loadSystem_call (sysKey : string) (st : t) : t :=
  if mapHas sysKey (loaded st) then st
  else
    let st := set_info (InfoLoading sysKey) st in
    let mat := nextMat st in
    let st := set_nextMat (S mat) st in
    match SYSTEMS sysKey with
    | Undefined => set_loads (loads st ++ [mkLoad sysKey mat Failed]) st
    | sys =>
        let st := set_requests (requests st ++ [LoadFbx (sysFbx sys)]) st in
        set_loads (loads st ++ [mkLoad sysKey mat Pending]) st
    end.

Definition instantiate (bo : nat) (sysKey : string) (mat : nat) (n : Node) : Obj :=
  if nodeIsMesh n
  then mkObj true (nodeName n) (nodeHasGeometry n) ((λ p, bo + p) <$> nodeParent n)
         (Some mat) (Some mat) (Some sysKey) (Some (nodeName n))
  else mkObj false (nodeName n) (nodeHasGeometry n) ((λ p, bo + p) <$> nodeParent n)
         None None None None.

(** The callback of [root.traverse] for the raw-name index. *)
Definition indexMesh (objs : list Obj) (acc : list (string * list nat)) (a : nat)
    : list (string * list nat) :=
  match objs !! a with
  | Some o =>
      if isMesh o
      then mapSet (objName o) (default [] (mapGet (objName o) acc) ++ [a]) acc
      else acc
  | None => acc
  end.

(** The rest of [loadSystem] when the loader has produced [asset]. *)
Definition loadSystem_resume (i : nat) (l : LoadTask) (asset : Asset) (st : t) : t :=
  let bo := length (objects st) in
  let nodes := seq bo (length asset) in
  let st := set_objects (objects st ++ (instantiate bo (loadKey l) (loadMat l) <$> asset)) st in
  let index := foldl (indexMesh (objects st)) [] nodes in
  let st := set_scene (scene st ++ [nodes]) st in
  let st := set_loaded (mapSet (loadKey l) (mkEntry nodes index (loadMat l)) (loaded st)) st in
  let st := set_info (InfoLoaded (loaded st).*1) st in
  let st := setLoadPhase i Done st in
  if String.eqb (loadKey l) "muscles" then renderChipsFromSearch_call st else st.

(** The raw names of an item: those of its variants [L], [R], [M] and [G],
    in that order. *)
Definition variantRaws (it : Item) : list string :=
  variantsL (variants it) ++ variantsR (variants it)
  ++ variantsM (variants it) ++ variantsG (variants it).

(** The meshes a chip stands for: those the index of the muscles lists under
    its raw names. *)
Definition chipMeshes (mus : Entry) (it : Item) : list nat :=
  concat ((λ r, default [] (mapGet r (rawToMeshes mus))) <$> variantRaws it).

(** The listener of a chip, for the chip at position [i]. *)
Definition chipClick (i : nat) (st : t) : t :=
  match chips st !! i with
  | None => st
  | Some chip =>
      let it := item chip in
      if bool_decide (selectedChipKey st = Some (key it))
      then set_info InfoCleared (clearSelection st)
      else
        match mapGet "muscles" (loaded st) with
        | None => set_info InfoLoadMusclesFirst st
        | Some mus =>
            let st := set_chips (<[i := mkChip it true]> ((λ c, mkChip (item c) false) <$> chips st)) st in
            let st := set_selectedChipKey (Some (key it)) st in
            let meshes := chipMeshes mus it in
            match meshes with
            | [] => set_info (InfoNotLoaded (itemName it)) st
            | _ => selectMeshes meshes (LabelGroup (itemName it)) st
            end
        end
  end.

(** What happens on the page: a press on the button of a system; a call of
    [loadSystem] and the arrival (or failure) of the model of its call
    [task]; a call of [renderChipsFromSearch], typing into the search field,
    the button that clears it, and the arrival (or failure) of the metadata
    for the run [task]; a click on the chip at position [i]; a pointer that
    goes down and up again within six pixels, [hit] being the first object
    under it; the button that clears the selection. *)
Inductive Event :=
| ClickSystem (sysKey : string)
| CallLoadSystem (sysKey : string)
| LoadSettled (task : nat) (result : option Asset)
| CallRender
| SearchInput (text : string)
| ClearSearch
| RenderSettled (task : nat) (fetched : option Groups)
| ChipClick (i : nat)
| Tap (hit : option nat)
| ClearSel.

Section Steps.
Variable localeCompare : string → string → Z.

Definition step (st : t) (e : Event) : option t :=
  match e with
  | ClickSystem sysKey =>
      match SYSTEMS sysKey with
      | Undefined => Some st
      | _ => if mapHas sysKey (loaded st) then Some (unloadSystem sysKey st)
             else Some (loadSystem_call sysKey st)
      end
  | CallLoadSystem sysKey => Some (loadSystem_call sysKey st)
  | LoadSettled i result =>
      match loads st !! i with
      | Some l =>
          match loadPhase l, result with
          | Pending, Some asset => Some (loadSystem_resume i l asset st)
          | Pending, None => Some (setLoadPhase i Failed st)
          | _, _ => None
          end
      | None => None
      end
  | CallRender => Some (renderChipsFromSearch_call st)
  | SearchInput text => Some (renderChipsFromSearch_call (set_searchValue text st))
  | ClearSearch => Some (renderChipsFromSearch_call (set_searchValue "" st))
  | RenderSettled i fetched =>
      match renders st !! i with
      | Some r =>
          match renderPhase r with
          | Pending => Some (renderChipsFromSearch_resume localeCompare i r fetched st)
          | _ => None
          end
      | None => None
      end
  | ChipClick i => Some (chipClick i st)
  | Tap hit => Some (pick hit st)
  | ClearSel => Some (set_info InfoCleared (clearSelection st))
  end.

Fixpoint run (st : t) (es : list Event) : option t :=
  match es with
  | [] => Some st
  | e :: es' =>
      match step st e with
      | Some st' => run st' es'
      | None => None
      end
  end.

Definition reachable (st : t) : Prop := ∃ es, run initial es = Some st.

End Steps.

(** *** What the page keeps true *)

Definition isMeshAt (objs : list Obj) (a : nat) : bool :=
  match objs !! a with
  | Some o => isMesh o
  | None => false
  end.

Definition meshNamed (objs : list Obj) (n : string) (a : nat) : bool :=
  match objs !! a with
  | Some o => isMesh o && String.eqb (objName o) n
  | None => false
  end.

(** Two versions of an object that differ at most in the material worn. *)
Definition sameButMaterial (o o' : Obj) : Prop :=
  isMesh o' = isMesh o ∧ objName o' = objName o ∧ hasGeometry o' = hasGeometry o
  ∧ parent o' = parent o ∧ baseMat o' = baseMat o ∧ system o' = system o ∧ raw o' = raw o.

Definition sameShape (objs objs' : list Obj) : Prop :=
  length objs' = length objs
  ∧ ∀ a o, objs !! a = Some o → ∃ o', objs' !! a = Some o' ∧ sameButMaterial o o'.

(** Every mesh has a base material other than the highlight, and wears the
    highlight when it is selected and its base material when it is not. *)
Definition wears (st : t) : Prop :=
  ∀ a o, objects st !! a = Some o → isMesh o = true →
    ∃ b, baseMat o = Some b ∧ b ≠ highlightMat
         ∧ material o = Some (if bool_decide (a ∈ selectedMeshes st) then highlightMat else b).

(** The entry of a loaded system: its root is made of objects that exist,
    and its index lists under every name the meshes of the root with that
    name, in [traverse] order. *)
Definition entryOk (objs : list Obj) (e : Entry) : Prop :=
  (∀ a, a ∈ root e → a < length objs)
  ∧ ∀ n, default [] (mapGet n (rawToMeshes e)) = List.filter (meshNamed objs n) (root e).

Record Inv (st : t) : Prop := {
  inv_nextMat : nextMat st ≠ highlightMat;
  inv_loads : ∀ l, l ∈ loads st → loadMat l ≠ highlightMat;
  inv_wears : wears st;
  inv_selected : ∀ a, a ∈ selectedMeshes st → isMeshAt (objects st) a = true;
  inv_loaded : ∀ k e, (k, e) ∈ loaded st → entryOk (objects st) e;
  inv_disposed : highlightMat ∉ disposedMaterials st
}.


(** In [traverse] order a node comes after its parent. *)
Definition parentsFirst (objs : list Obj) : Prop :=
  ∀ a o p, objs !! a = Some o → parent o = Some p → p < a.

(** What the loader hands over is a tree in [traverse] order. *)
Definition treeOrder (asset : Asset) : Prop :=
  ∀ j n p, asset !! j = Some n → nodeParent n = Some p → p < j.

Definition loaderTrees (es : list Event) : Prop :=
  ∀ i asset, LoadSettled i (Some asset) ∈ es → treeOrder asset.

(** The steps of the page when it opens: the two default loads, and the two
    runs of [renderChipsFromSearch], one left running by the load of the
    muscles and one started after it, which settle afterwards. *)
Definition startup (bones muscles : Asset) (groups : Groups) : list Event :=
  [ CallLoadSystem "bones"; LoadSettled 0 (Some bones);
    CallLoadSystem "muscles"; LoadSettled 1 (Some muscles);
    CallRender;
    RenderSettled 0 (Some groups); RenderSettled 1 (Some groups) ].

(** Pressing the button of [sysKey] twice before its model has arrived. *)
Definition doubleClick (sysKey : string) : list Event :=
  [ ClickSystem sysKey; ClickSystem sysKey ].

Definition tinyAsset : Asset :=
  [ mkNode false "Root" false None;
    mkNode true "Biceps.l" true (Some 0);
    mkNode true "Biceps.r" true (Some 0) ].

Definition tinyGroups : Groups :=
  [ ("biceps", mkMeta (Some "Biceps") ["Biceps.l"] ["Biceps.r"] [] []) ].

Definition tinyBones : Asset :=
  [ mkNode false "Skeleton" false None;
    mkNode true "Femur.l" true (Some 0) ].

(** The page once it has opened, after a click on its first chip, and after
    the muscles have then been switched off. *)
Definition opened : t :=
  default initial (run codeUnitCompare initial (startup tinyBones tinyAsset tinyGroups)).

Definition chipClicked : t :=
  default initial
    (run codeUnitCompare initial (startup tinyBones tinyAsset tinyGroups ++ [ChipClick 0])).

(** The page while both runs of [renderChipsFromSearch] are waiting. *)
Definition rendersWaiting : t :=
  default initial
    (run codeUnitCompare initial
       [ CallLoadSystem "bones"; LoadSettled 0 (Some tinyBones);
         CallLoadSystem "muscles"; LoadSettled 1 (Some tinyAsset); CallRender ]).

(** The page after two presses on the button of the bones. *)
Definition pressedTwice : t :=
  default initial (run codeUnitCompare initial (doubleClick "bones")).

Definition musclesUnloaded : t :=
  default initial
    (run codeUnitCompare initial
       (startup tinyBones tinyAsset tinyGroups ++ [ChipClick 0; ClickSystem "muscles"])).

End Page.
Example slugify_side_suffix : slugify "Quadriceps.L" = "quadriceps".
Proof. reflexivity. Qed.

Example slugify_plain : slugify "quadriceps" = "quadriceps".
Proof. reflexivity. Qed.

Example slugify_exporter_suffix : slugify "BicepsBrachiiModel" = "bicepsbrachii".
Proof. reflexivity. Qed.

Example slugify_side_then_exporter : slugify "VastusLateralis.lModel" = "vastuslateralis".
Proof. reflexivity. Qed.

Example slugify_punctuation : slugify "  Hip  Flexors (deep) " = "hip_flexors_deep".
Proof. reflexivity. Qed.

(** ** Key normalisation *)

Module StrFacts.
Import Str KeyShape.

Ltac by_cases_on c :=
  destruct c as [[] [] [] [] [] [] [] []]; vm_compute; try reflexivity; try discriminate;
  try tauto.

Lemma underscore_eq c : isUnderscore c = true → c = "_"%char.
Proof. by_cases_on c. Qed.

Lemma slugChar_facts c :
  slugChar c = true →
  isWhiteSpace c = false ∧ (code c =? 0)%N = false ∧ toLowerChar c = c
  ∧ (code c =? 46)%N = false.
Proof. by_cases_on c. Qed.

Lemma alnum_not_underscore c : isLowerAlnum c = true → isUnderscore c = false.
Proof. by_cases_on c. Qed.

Lemma sepOk_slugChars b l : sepOk b l = true → Forall (λ c, slugChar c = true) l.
Proof.
  revert b. induction l as [|c r IH]; intros b H; [constructor|].
  simpl in H. unfold slugChar. destruct (isLowerAlnum c) eqn:Ha.
  - constructor; [simpl; by rewrite Ha | eauto].
  - apply andb_prop in H as [H1 H3]. apply andb_prop in H1 as [H1 H2].
    constructor; [simpl; by rewrite Ha, H1 | eauto].
Qed.

Lemma sepOk_weaken b l : sepOk b l = true → sepOk false l = true.
Proof.
  destruct l as [|c r]; [done|]. simpl. destruct (isLowerAlnum c); [done|].
  intros H. apply andb_prop in H as [H1 H3]. apply andb_prop in H1 as [H1 H2].
  by rewrite H1, H3.
Qed.

(** What [replace] of the runs produces is separated, and a separated
    string is left as it is. *)
Lemma collapse_sepOk b l :
  sepOk b (collapseRuns (λ c, negb (isLowerAlnum c)) "_" b l) = true.
Proof.
  revert b. induction l as [|c r IH]; intros b; [done|].
  simpl. destruct (isLowerAlnum c) eqn:Ha; simpl.
  - rewrite Ha. apply IH.
  - destruct b; [apply IH|]. simpl. apply IH.
Qed.

Lemma collapse_fixed b l :
  sepOk b l = true → collapseRuns (λ c, negb (isLowerAlnum c)) "_" b l = l.
Proof.
  revert b. induction l as [|c r IH]; intros b H; [done|].
  simpl in *. destruct (isLowerAlnum c) eqn:Ha; simpl.
  - f_equal. by apply IH.
  - apply andb_prop in H as [H1 H3]. apply andb_prop in H1 as [H1 H2].
    apply underscore_eq in H1 as ->. destruct b; [done|].
    f_equal. by apply IH.
Qed.

Lemma collapse_none p sep b l :
  Forall (λ c, p c = false) l → collapseRuns p sep b l = l.
Proof.
  intros H. revert b. induction H as [|c r Hc _ IH]; intros b; [done|].
  simpl. rewrite Hc. f_equal. apply IH.
Qed.

Lemma collapse_length p sep b l : length (collapseRuns p sep b l) ≤ length l.
Proof.
  revert b. induction l as [|c r IH]; intros b; [done|].
  simpl. destruct (p c); [destruct b|]; simpl; specialize (IH true) as IH1;
    specialize (IH false) as IH2; lia.
Qed.

Lemma dropWhile_none p l : noLead p l = true → dropWhile p l = l.
Proof. destruct l as [|c r]; [done|]. simpl. by destruct (p c). Qed.

Lemma dropWhile_noLead p l : noLead p (dropWhile p l) = true.
Proof.
  induction l as [|c r IH]; [done|]. simpl. destruct (p c) eqn:Hc; [done|].
  simpl. by rewrite Hc.
Qed.

Lemma dropWhile_length p l : length (dropWhile p l) ≤ length l.
Proof. induction l as [|c r IH]; [done|]. simpl. destruct (p c); simpl; lia. Qed.

Lemma dropWhile_sepOk b l : sepOk b l = true → sepOk false (dropWhile isUnderscore l) = true.
Proof.
  revert b. induction l as [|c r IH]; intros b H; [done|].
  simpl. destruct (isUnderscore c) eqn:Hu.
  - simpl in H. destruct (isLowerAlnum c) eqn:Ha.
    + by rewrite (alnum_not_underscore c Ha) in Hu.
    + apply andb_prop in H as [_ H3]. eauto.
  - by eapply sepOk_weaken.
Qed.

Lemma dropWhileEnd_idem p l : dropWhileEnd p (dropWhileEnd p l) = dropWhileEnd p l.
Proof.
  induction l as [|c r IH]; [done|]. simpl.
  destruct (dropWhileEnd p r) as [|c' r'] eqn:E.
  - destruct (p c) eqn:Hc; [done|]. simpl. by rewrite Hc.
  - simpl in *. by rewrite IH.
Qed.

Lemma dropWhileEnd_none p l : Forall (λ c, p c = false) l → dropWhileEnd p l = l.
Proof.
  induction 1 as [|c r Hc _ IH]; [done|]. simpl. rewrite IH.
  destruct r; [by rewrite Hc | done].
Qed.

Lemma dropWhileEnd_length p l : length (dropWhileEnd p l) ≤ length l.
Proof.
  induction l as [|c r IH]; [done|]. simpl.
  destruct (dropWhileEnd p r); [destruct (p c)|]; simpl in *; lia.
Qed.

Lemma dropWhileEnd_noLead p l : noLead p l = true → noLead p (dropWhileEnd p l) = true.
Proof.
  destruct l as [|c r]; [done|]. simpl. intros Hc.
  destruct (dropWhileEnd p r); [|done]. destruct (p c) eqn:E; [done|].
  simpl. by rewrite E.
Qed.

Lemma dropWhileEnd_sepOk b l :
  sepOk b l = true → sepOk b (dropWhileEnd isUnderscore l) = true.
Proof.
  revert b. induction l as [|c r IH]; intros b H; [done|].
  simpl in *. destruct (isLowerAlnum c) eqn:Ha.
  - specialize (IH false H). destruct (dropWhileEnd isUnderscore r) eqn:E.
    + rewrite (alnum_not_underscore c Ha). simpl. by rewrite Ha.
    + simpl. by rewrite Ha.
  - apply andb_prop in H as [H1 H3]. apply andb_prop in H1 as [H1 H2].
    specialize (IH true H3). destruct (dropWhileEnd isUnderscore r) eqn:E.
    + by rewrite H1.
    + simpl in *. by rewrite Ha, H1, H2.
Qed.

Lemma Forall_noLead (p q : ascii → bool) l :
  (∀ c, q c = true → p c = false) → Forall (λ c, q c = true) l → noLead p l = true.
Proof. intros Hpq [|c r Hc _]; [done|]. simpl. by rewrite (Hpq c Hc). Qed.

Lemma trim_none l : Forall (λ c, slugChar c = true) l → trim l = l.
Proof.
  intros H. unfold trim.
  assert (Forall (λ c, isWhiteSpace c = false) l) as Hw.
  { eapply Forall_impl; [exact H|]. intros c Hc. by apply slugChar_facts in Hc as [? _]. }
  rewrite dropWhile_none.
  - by apply dropWhileEnd_none.
  - destruct Hw as [|c r Hc _]; [done|]. simpl. by rewrite Hc.
Qed.

Lemma trim_length l : length (trim l) ≤ length l.
Proof.
  unfold trim. etrans; [apply dropWhileEnd_length|]. apply dropWhile_length.
Qed.

Lemma removeNul_none l : Forall (λ c, slugChar c = true) l → removeNul l = l.
Proof.
  induction 1 as [|c r Hc _ IH]; [done|]. unfold removeNul in *. simpl.
  apply slugChar_facts in Hc as (_ & -> & _). simpl. by rewrite IH.
Qed.

Lemma lower_none l : Forall (λ c, slugChar c = true) l → map toLowerChar l = l.
Proof.
  induction 1 as [|c r Hc _ IH]; [done|]. simpl.
  apply slugChar_facts in Hc as (_ & _ & -> & _). by rewrite IH.
Qed.

Lemma stripSideSuffix_none l :
  Forall (λ c, slugChar c = true) l → stripSideSuffix l = l.
Proof.
  intros H. unfold stripSideSuffix.
  destruct (rev l) as [|c [|dot m1]] eqn:E; [done..|].
  assert (slugChar dot = true) as Hd.
  { rewrite Forall_forall in H. apply H. apply list_elem_of_In, in_rev.
    rewrite E. right. by left. }
  apply slugChar_facts in Hd as (_ & _ & _ & ->).
  by rewrite andb_false_r.
Qed.

Lemma stripSideSuffix_length l : length (stripSideSuffix l) ≤ length l.
Proof.
  unfold stripSideSuffix. destruct (rev l) as [|c [|dot m1]] eqn:E; [done..|].
  destruct (_ && _); [|done].
  etrans; [apply trim_length|]. rewrite length_rev.
  rewrite <- (length_rev l), E. simpl. lia.
Qed.

Lemma startsWithCI_length p l : startsWithCI p l = true → length p ≤ length l.
Proof.
  revert l. induction p as [|a p IH]; intros [|b l] H; simpl in *; try lia; try done.
  apply andb_prop in H as [_ H]. apply IH in H. lia.
Qed.

Lemma stripExporterSuffix_cases l :
  (endsWithCI Model l || endsWithCI Geometry l = false ∧ stripExporterSuffix l = l)
  ∨ (endsWithCI Model l || endsWithCI Geometry l = true
     ∧ length (stripExporterSuffix l) < length l).
Proof.
  unfold stripExporterSuffix.
  destruct (endsWithCI Model l) eqn:E1; [right|destruct (endsWithCI Geometry l) eqn:E2; [right|left]];
    try done.
  - split; [done|]. apply startsWithCI_length in E1.
    rewrite !length_rev in E1. simpl in E1. rewrite length_take. lia.
  - split; [done|]. apply startsWithCI_length in E2.
    rewrite !length_rev in E2. simpl in E2. rewrite length_take. lia.
Qed.




Lemma slugifyChars_isKey l : isKey (slugifyChars l).
Proof.
  unfold slugifyChars. split.
  - apply dropWhileEnd_sepOk. eapply dropWhile_sepOk. apply collapse_sepOk.
  - apply dropWhileEnd_noLead, dropWhile_noLead.
  - apply dropWhileEnd_idem.
Qed.

Lemma isKey_chars t : isKey t → Forall (λ c, slugChar c = true) t.
Proof. intros [H _ _]. by eapply sepOk_slugChars. Qed.

(** A key without exporter suffix is a fixed point; one with the suffix
    gets shorter. *)
Lemma normalizeLabelChars_key t :
  isKey t → endsWithCI Model t || endsWithCI Geometry t = false →
  normalizeLabelChars t = t.
Proof.
  intros Hk Hs. pose proof (isKey_chars t Hk) as Hc.
  unfold normalizeLabelChars. rewrite (removeNul_none t Hc), (trim_none t Hc).
  destruct t as [|c r] eqn:Et; [done|]. rewrite <- Et in *.
  destruct (stripExporterSuffix_cases t) as [[_ ->]|[Hs' _]]; [|congruence].
  rewrite (trim_none t Hc), (stripSideSuffix_none t Hc).
  rewrite collapse_none; [by apply trim_none|].
  eapply Forall_impl; [exact Hc|]. intros x Hx. by apply slugChar_facts in Hx as [? _].
Qed.

Lemma slugifyChars_key t :
  isKey t → endsWithCI Model t || endsWithCI Geometry t = false → slugifyChars t = t.
Proof.
  intros Hk Hs. pose proof (isKey_chars t Hk) as Hc. destruct Hk as [H1 H2 H3].
  unfold slugifyChars. rewrite (normalizeLabelChars_key t); [|by split|done].
  rewrite (lower_none t Hc), (collapse_fixed false t H1).
  by rewrite (dropWhile_none _ t H2).
Qed.

Lemma slugifyChars_key_suffix t :
  isKey t → endsWithCI Model t || endsWithCI Geometry t = true →
  length (slugifyChars t) < length t.
Proof.
  intros Hk Hs. pose proof (isKey_chars t Hk) as Hc.
  unfold slugifyChars. eapply Nat.le_lt_trans; [apply dropWhileEnd_length|].
  eapply Nat.le_lt_trans; [apply dropWhile_length|].
  eapply Nat.le_lt_trans; [apply collapse_length|]. rewrite length_map.
  unfold normalizeLabelChars. rewrite (removeNul_none t Hc), (trim_none t Hc).
  destruct t as [|c r] eqn:Et; [done|]. rewrite <- Et in *.
  destruct (stripExporterSuffix_cases t) as [[Hs' _]|[_ Hlt]]; [congruence|].
  eapply Nat.le_lt_trans; [apply trim_length|].
  eapply Nat.le_lt_trans; [apply collapse_length|].
  eapply Nat.le_lt_trans; [apply stripSideSuffix_length|].
  eapply Nat.le_lt_trans; [apply trim_length|]. done.
Qed.

End StrFacts.

Lemma chars_of_string l : list_ascii_of_string (string_of_list_ascii l) = l.
Proof. apply list_ascii_of_string_of_list_ascii. Qed.

Lemma string_of_chars s : string_of_list_ascii (list_ascii_of_string s) = s.
Proof. apply string_of_list_ascii_of_string. Qed.

Lemma slugify_chars s :
  list_ascii_of_string (slugify s) = Str.slugifyChars (list_ascii_of_string s).
Proof. unfold slugify. apply chars_of_string. Qed.


Lemma isEmpty_false s : isEmpty s = false ↔ s ≠ "".
Proof. destruct s; simpl; split; congruence. Qed.

(** A key that does not end in an exporter suffix is its own key. *)
Lemma slugify_fixed s :
  endsWithExporterSuffix (slugify s) = false → slugify (slugify s) = slugify s.
Proof.
  unfold endsWithExporterSuffix. rewrite slugify_chars. intros H.
  unfold slugify at 1. rewrite slugify_chars.
  rewrite StrFacts.slugifyChars_key; [done| apply StrFacts.slugifyChars_isKey | done].
Qed.

Lemma slugify_shrinks s :
  endsWithExporterSuffix (slugify s) = true → slugify (slugify s) ≠ slugify s.
Proof.
  unfold endsWithExporterSuffix. rewrite slugify_chars. intros H E.
  apply (f_equal list_ascii_of_string) in E. rewrite !slugify_chars in E.
  pose proof (StrFacts.slugifyChars_key_suffix _ (StrFacts.slugifyChars_isKey _) H) as Hlt.
  rewrite E in Hlt. lia.
Qed.

(** C4, as the specification states it, fails: the key of a name whose
    exporter suffix sits before a side suffix still ends in the exporter
    suffix, and normalising that key strips it. *)
Lemma slugify_not_idempotent :
  slugify "BicepsModel.l" = "bicepsmodel"
  ∧ slugify (slugify "BicepsModel.l") = "biceps"
  ∧ slugify (slugify "BicepsModel.l") ≠ slugify "BicepsModel.l".
Proof. split; [reflexivity|]. split; [reflexivity|]. discriminate. Qed.

(** C4, amended: [slugify (slugify s) = slugify s] holds exactly for the
    strings [s] whose key does not itself end in [model] or [geometry]; the
    key of every other string loses that suffix when it is normalised again. *)
Theorem slugify_idempotent_iff (s : string) :
  slugify (slugify s) = slugify s ↔ endsWithExporterSuffix (slugify s) = false.
Proof.
  split.
  - intros E. destruct (endsWithExporterSuffix (slugify s)) eqn:H; [|done].
    by apply slugify_shrinks in H.
  - apply slugify_fixed.
Qed.

(** ** Insertion-ordered maps *)

Section OrderedMap.
Context {V : Type}.
Implicit Types (m : list (string * V)) (k : string) (v : V).

Lemma mapGet_mapSet_eq k v m : mapGet k (mapSet k v m) = Some v.
Proof.
  induction m as [|[k' v'] r IH]; simpl.
  - by rewrite decide_True.
  - destruct (decide (k = k')) as [->|Hne]; simpl.
    + by rewrite decide_True.
    + by rewrite decide_False.
Qed.

Lemma mapGet_mapSet_ne k k' v m : k ≠ k' → mapGet k' (mapSet k v m) = mapGet k' m.
Proof.
  intros Hne. induction m as [|[k0 v0] r IH]; simpl.
  - by rewrite decide_False.
  - destruct (decide (k = k0)) as [->|Hne0]; simpl.
    + by rewrite !decide_False by done.
    + destruct (decide (k' = k0)); [done|apply IH].
Qed.

Lemma mapGet_mapSet k k' v m :
  mapGet k' (mapSet k v m) = if decide (k = k') then Some v else mapGet k' m.
Proof.
  destruct (decide (k = k')) as [->|Hne];
    [apply mapGet_mapSet_eq | by apply mapGet_mapSet_ne].
Qed.


Lemma mapGet_elem_of k v m : mapGet k m = Some v → (k, v) ∈ m.
Proof.
  induction m as [|[k' v'] r IH]; simpl; [done|].
  destruct (decide (k = k')) as [->|Hne].
  - intros [= ->]. left.
  - intros H. right. by apply IH.
Qed.



End OrderedMap.

(** ** The group index *)

Lemma buildGroupIndex_snoc es e :
  buildGroupIndex (es ++ [e]) = buildGroupStep (buildGroupIndex es) e.
Proof. unfold buildGroupIndex. by rewrite foldl_app. Qed.

Lemma membersOf_snoc k es e :
  membersOf k (es ++ [e])
  = if decide (entryKey e = k) then membersOf k es ∪ entryMembers e else membersOf k es.
Proof. unfold membersOf. by rewrite foldl_app. Qed.

Lemma elem_of_membersOf k es mk :
  mk ∈ membersOf k es ↔ ∃ e, e ∈ es ∧ entryKey e = k ∧ mk ∈ entryMembers e.
Proof.
  induction es as [|e es IH] using rev_ind.
  - unfold membersOf. simpl. split; [set_solver|]. intros (e & He & _). by apply elem_of_nil in He.
  - rewrite membersOf_snoc. setoid_rewrite elem_of_app. setoid_rewrite list_elem_of_singleton.
    destruct (decide (entryKey e = k)) as [Hk|Hk].
    + rewrite elem_of_union, IH. naive_solver.
    + rewrite IH. naive_solver.
Qed.

Lemma find_snoc {A} (f : A → bool) l x :
  List.find f (l ++ [x])
  = match List.find f l with Some y => Some y | None => if f x then Some x else None end.
Proof. induction l as [|y l IH]; simpl; [done|]. by destruct (f y). Qed.

Lemma membersOf_unmatched k es :
  List.find (λ e, bool_decide (entryKey e = k)) es = None → membersOf k es = ∅.
Proof.
  induction es as [|e es IH] using rev_ind; [done|].
  rewrite find_snoc, membersOf_snoc.
  destruct (List.find _ es); [done|]. case_bool_decide; [done|].
  intros _. rewrite decide_False by done. by apply IH.
Qed.

(** The index holds, under every key, exactly the group the metadata
    describes. *)
Lemma buildGroupIndex_lookup groupsJson k :
  mapGet k (buildGroupIndex groupsJson) = groupOf k groupsJson.
Proof.
  revert k. induction groupsJson as [|e es IH] using rev_ind; intros k; [done|].
  rewrite buildGroupIndex_snoc. unfold buildGroupStep, groupOf.
  rewrite find_snoc, membersOf_snoc. fold (entryKey e).
  destruct (isEmpty (entryKey e)) eqn:Hempty.
  - rewrite IH. unfold groupOf.
    destruct (List.find (λ e1, bool_decide (entryKey e1 = k)) es) eqn:Hfind.
    + destruct (isEmpty k) eqn:Hk; [done|]. rewrite decide_False; [done|].
      intros <-. congruence.
    + case_bool_decide as Hk; [|done]. subst k. by rewrite Hempty.
  - destruct (mapGet (entryKey e) (buildGroupIndex es)) as [g|] eqn:Hg.
    + rewrite mapGet_mapSet.
      rewrite IH in Hg. unfold groupOf in Hg.
      destruct (List.find (λ e0, bool_decide (entryKey e0 = entryKey e)) es) as [e0|]
        eqn:Hfind0; [|done].
      rewrite Hempty in Hg. injection Hg as <-. simpl.
      destruct (decide (entryKey e = k)) as [<-|Hne].
      * by rewrite Hfind0, Hempty.
      * rewrite IH. unfold groupOf.
        destruct (List.find (λ e1, bool_decide (entryKey e1 = k)) es); [done|].
        by rewrite bool_decide_false.
    + rewrite mapGet_mapSet.
      rewrite IH in Hg. unfold groupOf in Hg.
      destruct (decide (entryKey e = k)) as [<-|Hne].
      * destruct (List.find (λ e0, bool_decide (entryKey e0 = entryKey e)) es) as [e0|]
          eqn:Hfind0.
        { by rewrite Hempty in Hg. }
        rewrite bool_decide_true, Hempty by done.
        by rewrite (membersOf_unmatched _ _ Hfind0), (left_id_L ∅ (∪)).
      * rewrite IH. unfold groupOf.
        destruct (List.find (λ e1, bool_decide (entryKey e1 = k)) es); [done|].
        by rewrite bool_decide_false.
Qed.


Lemma groupOf_Some k es g :
  groupOf k es = Some g →
  k ≠ "" ∧ Group.key g = k ∧ Group.meshKeys g = membersOf k es
  ∧ ∃ e, e ∈ es ∧ entryKey e = k ∧ Group.name g = displayName e.1 e.2.
Proof.
  unfold groupOf. destruct (List.find _ es) as [e|] eqn:Hfind; [|done].
  destruct (isEmpty k) eqn:Hk; [done|]. intros [= <-]. simpl.
  apply isEmpty_false in Hk. apply find_some in Hfind as [Hin He].
  apply bool_decide_eq_true in He. apply list_elem_of_In in Hin. eauto 10.
Qed.





Lemma buildGroupIndex_inhabited groupsJson : groupsInhabited (buildGroupIndex groupsJson).
Proof.
  intros k g. rewrite buildGroupIndex_lookup.
  intros (Hk & _ & Hm & e & Hin & He & _)%groupOf_Some.
  assert (k ∈ Group.meshKeys g) as H; [|set_solver].
  rewrite Hm, elem_of_membersOf. exists e. unfold entryMembers. set_solver.
Qed.




(** ** Selection *)

Lemma expandKey_memberSet G out gk :
  groupsInhabited G → expandKey G out gk = out ∪ memberSet G gk.
Proof.
  intros HG. unfold expandKey, memberSet. destruct (mapGet gk G) as [g|] eqn:Hg; [|done].
  rewrite bool_decide_true; [done|]. rewrite size_non_empty_iff.
  intros ?%leibniz_equiv. by eapply HG.
Qed.

Lemma foldl_expandKey G acc l :
  groupsInhabited G → foldl (expandKey G) acc l = acc ∪ ⋃ (memberSet G <$> l).
Proof.
  intros HG. revert acc. induction l as [|gk l IH]; intros acc; simpl.
  - by rewrite (right_id_L ∅ (∪)).
  - rewrite IH, expandKey_memberSet by done. by rewrite (assoc_L (∪)).
Qed.

Lemma computeSelectedMeshKeys_expand G sel :
  groupsInhabited G → computeSelectedMeshKeys G sel = expand G sel.
Proof.
  intros HG. unfold computeSelectedMeshKeys, expand.
  by rewrite foldl_expandKey, (left_id_L ∅ (∪)).
Qed.

Lemma elem_of_expand G sel mk :
  mk ∈ expand G sel ↔ ∃ gk, gk ∈ sel ∧ mk ∈ memberSet G gk.
Proof.
  unfold expand. rewrite elem_of_union_list. split.
  - intros (X & (gk & HX & Hgk%elem_of_elements)%list_elem_of_fmap & Hmk). subst X. eauto.
  - intros (gk & Hgk & Hmk). exists (memberSet G gk). split; [|done].
    apply list_elem_of_fmap. exists gk. by rewrite elem_of_elements.
Qed.

(** C5: on a group index in which every group has a member (every index
    [buildGroupIndex] builds is one: a group contains its own key), the set
    [computeSelectedMeshKeys] returns is the union, over the selected keys, of
    the group's member set when the index has a group under the key and of
    the key alone when it has none.  For two selected groups it is the union
    of their two member sets. *)
Theorem computeSelectedMeshKeys_correct (G : list (string * Group.t)) (sel : gset string)
    (HG : groupsInhabited G) :
  computeSelectedMeshKeys G sel = expand G sel
  ∧ (∀ mk, mk ∈ computeSelectedMeshKeys G sel
           ↔ ∃ gk, gk ∈ sel
                   ∧ match mapGet gk G with
                     | Some g => mk ∈ Group.meshKeys g
                     | None => mk = gk
                     end)
  ∧ (∀ A B gA gB, sel = {[A; B]} → mapGet A G = Some gA → mapGet B G = Some gB →
       computeSelectedMeshKeys G sel = Group.meshKeys gA ∪ Group.meshKeys gB).
Proof.
  assert (∀ mk, mk ∈ computeSelectedMeshKeys G sel
           ↔ ∃ gk, gk ∈ sel
                   ∧ match mapGet gk G with
                     | Some g => mk ∈ Group.meshKeys g
                     | None => mk = gk
                     end) as Hmem.
  { intros mk. rewrite computeSelectedMeshKeys_expand, elem_of_expand by done.
    unfold memberSet. split; intros (gk & ? & H); exists gk; split; try done;
      destruct (mapGet gk G); set_solver. }
  split; [by apply computeSelectedMeshKeys_expand|]. split; [done|].
  intros A B gA gB -> HA HB. apply set_eq. intros mk. rewrite Hmem. split.
  - intros (gk & [Hgk%elem_of_singleton|Hgk%elem_of_singleton]%elem_of_union & H); subst gk.
    + rewrite HA in H. set_solver.
    + rewrite HB in H. set_solver.
  - intros [H|H]%elem_of_union.
    + exists A. rewrite HA. set_solver.
    + exists B. rewrite HB. set_solver.
Qed.

Lemma computeSelectedMeshKeys_correct_witness :
  groupsInhabited (buildGroupIndex expansionExample)
  ∧ computeSelectedMeshKeys (buildGroupIndex expansionExample) {["m1"; "m3"]}
    = expand (buildGroupIndex expansionExample) {["m1"; "m3"]}.
Proof.
  split; [apply buildGroupIndex_inhabited|].
  exact (proj1 (computeSelectedMeshKeys_correct _ _
                  (buildGroupIndex_inhabited expansionExample))).
Defined.

Example expansion_of_two_groups :
  computeSelectedMeshKeys (buildGroupIndex expansionExample) {["m1"; "m3"]}
  = {["m1"; "m2"; "m3"]}.
Proof. vm_compute. reflexivity. Qed.

Example expansion_of_unknown_key :
  computeSelectedMeshKeys (buildGroupIndex expansionExample) {["m1"; "picked"]}
  = {["m1"; "m2"; "picked"]}.
Proof. vm_compute. reflexivity. Qed.

Lemma toggleKey_involution k (sel : gset string) : toggleKey k (toggleKey k sel) = sel.
Proof.
  unfold toggleKey. destruct (isEmpty k); [done|].
  destruct (decide (k ∈ sel)) as [Hk|Hk].
  - rewrite (bool_decide_true (k ∈ sel)) by done.
    rewrite bool_decide_false by set_solver.
    apply set_eq. intros x. destruct (decide (x = k)); set_solver.
  - rewrite (bool_decide_false (k ∈ sel)) by done.
    rewrite bool_decide_true by set_solver. set_solver.
Qed.

Lemma applySelectionToMeshes_selected v :
  selectedGroupKeys (applySelectionToMeshes v) = selectedGroupKeys v.
Proof. done. Qed.

Lemma toggleGroup_selected k v :
  selectedGroupKeys (toggleGroup k v) = toggleKey k (selectedGroupKeys v).
Proof. unfold toggleGroup, toggleKey. by destruct (isEmpty k). Qed.

(** C9: toggling the same key twice gives back the selection; one toggle
    removes the key when it is selected and adds it when it is not (the empty
    key, which [toggleGroup] ignores, is never selected nor added). *)
Theorem toggleGroup_involution (k : string) (v : Viewer) :
  selectedGroupKeys (toggleGroup k (toggleGroup k v)) = selectedGroupKeys v
  ∧ selectedGroupKeys (toggleGroup k v)
    = (if isEmpty k then selectedGroupKeys v
       else if bool_decide (k ∈ selectedGroupKeys v) then selectedGroupKeys v ∖ {[k]}
       else selectedGroupKeys v ∪ {[k]}).
Proof.
  rewrite !toggleGroup_selected. split; [apply toggleKey_involution|done].
Qed.

(** ** Materials *)

Lemma setMaterialState_sameShape st o m : sameShape m (setMaterialState st o m).
Proof.
  destruct m as [[c|] [e|] op tr [dw|] [dt|] nu],
           o as [[hc [oc|] he [oe|] oop otr odw odt]|], st; split; reflexivity.
Qed.

Lemma shapeOk_sameShape o m m' : shapeOk o m → sameShape m m' → shapeOk o m'.
Proof. intros [? ?] [? ?]. split; congruence. Qed.

Lemma snapshotMaterial_shapeOk m : shapeOk (snapshotMaterial m) m.
Proof. by split. Qed.

(** The state painted last decides: the material a state leaves does not
    depend on the state painted before. *)
Lemma setMaterialState_last st st' o m :
  shapeOk o m →
  setMaterialState st (Some o) (setMaterialState st' (Some o) m)
  = setMaterialState st (Some o) m.
Proof.
  destruct o as [hc [oc|] he [oe|] oop otr odw odt],
           m as [[c|] [e|] op tr [dw|] [dt|] nu]; intros [Hc He]; simpl in *;
    try discriminate; destruct st, st'; reflexivity.
Qed.

(** What [Base] restores. *)
Lemma setMaterialState_base m0 m :
  sameShape m0 m →
  isSome (Material.depthWrite m0) = isSome (Material.depthWrite m) →
  isSome (Material.depthTest m0) = isSome (Material.depthTest m) →
  let o := snapshotMaterial m0 in
  let m' := setMaterialState Base (Some o) m in
  snapshotMaterial m' = o
  ∧ Material.color m' = Snapshot.color o
  ∧ Material.emissive m' = Snapshot.emissive o
  ∧ Material.opacity m' = Some (Snapshot.opacity o)
  ∧ Material.transparent m' = Some (Snapshot.transparent o)
  ∧ Material.depthWrite m'
    = (if isSome (Material.depthWrite m0) then Some (Snapshot.depthWrite o) else None)
  ∧ Material.depthTest m'
    = (if isSome (Material.depthTest m0) then Some (Snapshot.depthTest o) else None).
Proof.
  destruct m0 as [[c0|] [e0|] op0 tr0 [dw0|] [dt0|] nu0],
           m as [[c|] [e|] op tr [dw|] [dt|] nu]; intros [Hc He] Hdw Hdt; simpl in *;
    try discriminate; repeat split; reflexivity.
Qed.

(** ** Painting the materials of a mesh *)

Lemma paintMaterials_length st base mats ms :
  length (paintMaterials st base mats ms) = length ms.
Proof.
  revert base ms. induction mats as [|[a|] mats IH]; intros base ms; simpl; [done| |by rewrite IH].
  destruct (ms !! a); rewrite IH; [by rewrite length_insert | done].
Qed.

(** Frame: a material that is in none of the slots is left alone. *)
Lemma paintMaterials_frame st base mats ms x :
  Some x ∉ mats → paintMaterials st base mats ms !! x = ms !! x.
Proof.
  revert base ms. induction mats as [|r mats IH]; intros base ms Hx; simpl; [done|].
  apply not_elem_of_cons in Hx as [Hr Hx]. rewrite IH by done.
  destruct r as [a|]; [|done]. destruct (ms !! a); [|done].
  apply list_lookup_insert_ne. congruence.
Qed.

Lemma paintMaterials_insert st base mats ms x m :
  Some x ∉ mats →
  paintMaterials st base mats (<[x := m]> ms) = <[x := m]> (paintMaterials st base mats ms).
Proof.
  revert base ms. induction mats as [|r mats IH]; intros base ms Hx; simpl; [done|].
  apply not_elem_of_cons in Hx as [Hr Hx].
  destruct r as [a|]; [|by apply IH].
  assert (x ≠ a) as Hne by congruence.
  rewrite list_lookup_insert_ne by done. destruct (ms !! a) as [ma|]; [|by apply IH].
  rewrite list_insert_insert_ne by done. by apply IH.
Qed.

Lemma paintMaterials_cons st base a addrs ms m :
  a ∉ addrs → ms !! a = Some m →
  paintMaterials st base (Some <$> (a :: addrs)) ms
  = <[a := setMaterialState st (head base) m]>
      (paintMaterials st (tail base) (Some <$> addrs) ms).
Proof.
  intros Ha Hm. simpl. rewrite Hm. apply paintMaterials_insert.
  intros (y & [= <-] & Hy)%list_elem_of_fmap. done.
Qed.

(** Every material keeps its shape, whichever slots are painted. *)
Lemma paintMaterials_shape st base mats ms x m :
  ms !! x = Some m →
  ∃ m', paintMaterials st base mats ms !! x = Some m' ∧ sameShape m m'.
Proof.
  revert base ms m. induction mats as [|r mats IH]; intros base ms m Hm; simpl.
  - exists m. by split.
  - destruct r as [a|]; [|by apply IH]. destruct (ms !! a) as [ma|] eqn:Hma; [|by apply IH].
    destruct (decide (a = x)) as [->|Hne].
    + edestruct (IH (tail base) (<[x := setMaterialState st (head base) ma]> ms)) as (m' & H1 & H2).
      { apply list_lookup_insert_eq. by eapply lookup_lt_Some. }
      exists m'. split; [done|]. assert (ma = m) as -> by congruence.
      destruct H2 as [? ?]. destruct (setMaterialState_sameShape st (head base) m) as [? ?].
      split; congruence.
    + apply IH. by rewrite list_lookup_insert_ne.
Qed.

(** The slot [i] of a well-formed mesh receives the state with its own
    snapshot. *)
Lemma paintMaterials_lookup st base addrs ms i a m :
  NoDup addrs → addrs !! i = Some a → ms !! a = Some m →
  (∀ j b, addrs !! j = Some b → is_Some (ms !! b)) →
  paintMaterials st base (Some <$> addrs) ms !! a
  = Some (setMaterialState st (base !! i) m).
Proof.
  revert base ms i. induction addrs as [|a0 addrs IH]; intros base ms i Hnd Hi Hm Hall; [done|].
  apply NoDup_cons in Hnd as [Ha0 Hnd].
  destruct (Hall 0 a0 eq_refl) as [m0 Hm0].
  rewrite (paintMaterials_cons _ _ _ _ _ _ Ha0 Hm0).
  destruct i as [|i]; simpl in Hi.
  - injection Hi as ->. assert (m0 = m) as -> by congruence.
    rewrite list_lookup_insert_eq.
    + by destruct base.
    + rewrite paintMaterials_length. by eapply lookup_lt_Some.
  - assert (a ≠ a0) as Hne.
    { intros ->. apply Ha0. by eapply list_elem_of_lookup_2. }
    rewrite list_lookup_insert_ne by done.
    rewrite (IH (tail base) ms i Hnd Hi Hm).
    + by destruct base.
    + intros j b Hj. apply (Hall (S j) b Hj).
Qed.

Lemma paintMaterials_last st st' base addrs ms :
  NoDup addrs →
  (∀ i a, addrs !! i = Some a → ∃ m o, ms !! a = Some m ∧ base !! i = Some o ∧ shapeOk o m) →
  paintMaterials st base (Some <$> addrs) (paintMaterials st' base (Some <$> addrs) ms)
  = paintMaterials st base (Some <$> addrs) ms.
Proof.
  intros Hnd Hall.
  assert (∀ j b, addrs !! j = Some b → is_Some (ms !! b)) as Hsome.
  { intros j b Hj. destruct (Hall j b Hj) as (m & _ & -> & _). eauto. }
  apply list_eq. intros x.
  destruct (decide (x ∈ addrs)) as [Hx|Hx].
  - apply list_elem_of_lookup in Hx as [i Hi].
    destruct (Hall i x Hi) as (m & o & Hm & Ho & Hshape).
    rewrite (paintMaterials_lookup st base addrs ms i x m) by done.
    rewrite (paintMaterials_lookup st base addrs _ i x (setMaterialState st' (base !! i) m)); try done.
    + rewrite Ho. by rewrite setMaterialState_last.
    + by apply paintMaterials_lookup.
    + intros j b Hj. destruct (Hsome j b Hj) as [mb Hmb].
      destruct (paintMaterials_shape st' base (Some <$> addrs) ms b mb Hmb) as (? & -> & _). eauto.
  - assert (Some x ∉ Some <$> addrs) as Hx'.
    { intros (y & [= <-] & Hy)%list_elem_of_fmap. done. }
    by rewrite !paintMaterials_frame.
Qed.

(** ** Painting a mesh *)


Lemma meshOk_valid s a addrs base j b :
  meshOk s a addrs base → addrs !! j = Some b → is_Some (Store.materials s !! b).
Proof. intros [_ _ _ H] Hj. destruct (H j b Hj) as (m & _ & -> & _). eauto. Qed.

Lemma matsAt_meshOk s a addrs base : meshOk s a addrs base → matsAt s a = Some <$> addrs.
Proof. intros [(mesh & Hm & Hmats & _) _ _ _]. unfold matsAt. by rewrite Hm. Qed.

Lemma matsAt_setMeshState a st s b : matsAt (setMeshState a st s) b = matsAt s b.
Proof.
  unfold setMeshState, matsAt. destruct (Store.objects s !! a) as [mesh|] eqn:Hm; [|done].
  simpl. destruct (decide (a = b)) as [<-|Hne].
  - rewrite list_lookup_insert_eq by (by eapply lookup_lt_Some). by rewrite Hm.
  - by rewrite list_lookup_insert_ne.
Qed.

(** Frame: [setMeshState] touches no material outside the slots of its
    mesh. *)
Lemma setMeshState_frame a st s x :
  Some x ∉ matsAt s a →
  Store.materials (setMeshState a st s) !! x = Store.materials s !! x.
Proof.
  unfold setMeshState, matsAt. destruct (Store.objects s !! a) as [mesh|]; [|done].
  simpl. apply paintMaterials_frame.
Qed.

Lemma setMeshState_objects_ne a st s b :
  a ≠ b → Store.objects (setMeshState a st s) !! b = Store.objects s !! b.
Proof.
  intros Hne. unfold setMeshState. destruct (Store.objects s !! a) as [mesh|]; [|done].
  simpl. by apply list_lookup_insert_ne.
Qed.

Lemma meshOk_setMeshState a st s b addrs base :
  meshOk s b addrs base → meshOk (setMeshState a st s) b addrs base.
Proof.
  intros [(mesh & Hm & Hmats & Hbase) Hnd Hlen Hall].
  unfold setMeshState. destruct (Store.objects s !! a) as [ma|] eqn:Hma; [|by split; eauto].
  split; try done; simpl.
  - destruct (decide (a = b)) as [->|Hne].
    + rewrite list_lookup_insert_eq by (by eapply lookup_lt_Some).
      assert (ma = mesh) as -> by congruence.
      eexists. split; [done|]. by destruct mesh.
    + rewrite list_lookup_insert_ne by done. eauto.
  - intros i addr Hi. destruct (Hall i addr Hi) as (m & o & Hm' & Ho & Hshape).
    destruct (paintMaterials_shape st (default [] (Object3D.matBase ma))
                (matsOf (Object3D.material ma)) _ _ _ Hm') as (m' & -> & Hsame).
    exists m', o. split; [done|]. split; [done|]. by eapply shapeOk_sameShape.
Qed.

Lemma setMeshState_last a st st' s addrs base :
  meshOk s a addrs base →
  setMeshState a st (setMeshState a st' s) = setMeshState a st s.
Proof.
  intros [(mesh & Hm & Hmats & Hbase) Hnd Hlen Hall].
  unfold setMeshState at 2. rewrite Hm. unfold setMeshState. simpl.
  rewrite list_lookup_insert_eq by (by eapply lookup_lt_Some). rewrite Hm.
  destruct mesh as [im nm hg mat pk mb ro]. simpl in *. subst mb. rewrite Hmats. simpl.
  rewrite list_insert_insert_eq. by rewrite paintMaterials_last.
Qed.

Lemma meshOk_paintAll a l s b addrs base :
  meshOk s b addrs base → meshOk (paintAll a l s) b addrs base.
Proof.
  revert s. induction l as [|st l IH]; intros s H; [done|].
  simpl. apply IH. by apply meshOk_setMeshState.
Qed.

(** The state painted last decides, for a whole mesh. *)
Lemma paintAll_last a l st s addrs base :
  meshOk s a addrs base → paintAll a (l ++ [st]) s = setMeshState a st s.
Proof.
  intros H. unfold paintAll. rewrite foldl_app. simpl. fold (paintAll a l s).
  revert s H. induction l as [|st' l IH]; intros s H; [done|].
  simpl. rewrite IH by (by apply meshOk_setMeshState).
  by eapply setMeshState_last.
Qed.

(** ** Cloning the materials of a mesh *)

Lemma matsOf_length_Single r : matsOf (Single r) = [r].
Proof. done. Qed.

Lemma ensureUniqueMaterials_unfold a s mesh :
  Store.objects s !! a = Some mesh →
  let mats := matsOf (Object3D.material mesh) in
  let cloned := cloneOrDefault (Store.materials s) <$> mats in
  let addrs := seq (length (Store.materials s)) (length mats) in
  ∃ mesh1,
    ensureUniqueMaterials a s
    = Store.set_objects (<[a := mesh1]> (Store.objects s))
        (Store.set_materials (Store.materials s ++ cloned) s)
    ∧ matsOf (Object3D.material mesh1) = Some <$> addrs
    ∧ Object3D.matBase mesh1 = Some (snapshotMaterial <$> cloned)
    ∧ Object3D.isMesh mesh1 = Object3D.isMesh mesh
    ∧ Object3D.name mesh1 = Object3D.name mesh
    ∧ Object3D.hasGeometry mesh1 = Object3D.hasGeometry mesh
    ∧ Object3D.partKey mesh1 = Object3D.partKey mesh.
Proof.
  intros Hm. unfold ensureUniqueMaterials. rewrite Hm. simpl.
  eexists. split; [done|]. destruct mesh as [im nm hg [r|rs] pk mb ro]; simpl; done.
Qed.

Lemma ensureUniqueMaterials_meshOk a s mesh :
  Store.objects s !! a = Some mesh →
  meshOk (ensureUniqueMaterials a s) a
    (seq (length (Store.materials s)) (length (matsOf (Object3D.material mesh))))
    (snapshotMaterial <$> (cloneOrDefault (Store.materials s) <$> matsOf (Object3D.material mesh))).
Proof.
  intros Hm. destruct (ensureUniqueMaterials_unfold a s mesh Hm) as (mesh1 & -> & Hmats & Hbase & _).
  split; simpl.
  - exists mesh1. rewrite list_lookup_insert_eq by (by eapply lookup_lt_Some). done.
  - apply NoDup_seq.
  - by rewrite !length_fmap, length_seq.
  - intros i addr Hi. apply lookup_seq in Hi as [-> Hi].
    destruct (lookup_lt_is_Some_2 (matsOf (Object3D.material mesh)) i Hi) as [r Hr].
    exists (cloneOrDefault (Store.materials s) r), (snapshotMaterial (cloneOrDefault (Store.materials s) r)).
    split; [|split].
    + rewrite lookup_app_r by lia. replace (_ + i - _) with i by lia.
      by rewrite list_lookup_fmap, Hr.
    + by rewrite !list_lookup_fmap, Hr.
    + apply snapshotMaterial_shapeOk.
Qed.

(** C3: a mesh whose materials [ensureUniqueMaterials] has cloned and
    snapshotted is painted with any sequence of states and then with [Base].
    Every one of its materials then has the appearance of its snapshot: the
    snapshot taken of it again is the stored one, colour and emissive are the
    snapshot's, opacity, transparency and the depth flags it has are the
    snapshot's.  And whatever was painted before, painting a state gives what
    painting it on the freshly snapshotted mesh gives. *)
Theorem setMeshState_base_restores (s : Store.t) (a : nat) (mesh : Object3D.t)
    (l : list MeshState) (Hmesh : Store.objects s !! a = Some mesh) :
  let s1 := ensureUniqueMaterials a s in
  let s2 := paintAll a (l ++ [Base]) s1 in
  (∃ mesh1 addrs base,
      Store.objects s1 !! a = Some mesh1
      ∧ matsOf (Object3D.material mesh1) = Some <$> addrs
      ∧ Object3D.matBase mesh1 = Some base
      ∧ length addrs = length (matsOf (Object3D.material mesh))
      ∧ ∀ i addr, addrs !! i = Some addr →
          ∃ o m1 m2,
            base !! i = Some o
            ∧ Store.materials s1 !! addr = Some m1 ∧ o = snapshotMaterial m1
            ∧ Store.materials s2 !! addr = Some m2
            ∧ snapshotMaterial m2 = o
            ∧ Material.color m2 = Snapshot.color o
            ∧ Material.emissive m2 = Snapshot.emissive o
            ∧ Material.opacity m2 = Some (Snapshot.opacity o)
            ∧ Material.transparent m2 = Some (Snapshot.transparent o)
            ∧ Material.depthWrite m2
              = (if isSome (Material.depthWrite m1) then Some (Snapshot.depthWrite o) else None)
            ∧ Material.depthTest m2
              = (if isSome (Material.depthTest m1) then Some (Snapshot.depthTest o) else None))
  ∧ ∀ st, paintAll a (l ++ [st]) s1 = setMeshState a st s1.
Proof.
  intros s1 s2. pose proof (ensureUniqueMaterials_meshOk a s mesh Hmesh) as Hok.
  fold s1 in Hok. split; [|intros st; by eapply paintAll_last].
  subst s2. rewrite (paintAll_last _ _ _ _ _ _ Hok).
  destruct Hok as [(mesh1 & Hm1 & Hmats & Hbase) Hnd Hlen Hall].
  eexists mesh1, _, _. split; [done|]. split; [exact Hmats|]. split; [exact Hbase|].
  split; [by rewrite length_seq|].
  intros i addr Hi. destruct (Hall i addr Hi) as (m1 & o & Hl1 & Ho & _).
  assert (o = snapshotMaterial m1) as Ho'.
  { subst s1. destruct (ensureUniqueMaterials_unfold a s mesh Hmesh) as (mesh1' & E & _).
    rewrite E in Hl1. simpl in Hl1. apply lookup_seq in Hi as [-> Hi].
    rewrite lookup_app_r in Hl1 by lia. replace (_ + i - _) with i in Hl1 by lia.
    rewrite !list_lookup_fmap in Ho. rewrite list_lookup_fmap in Hl1.
    destruct (matsOf (Object3D.material mesh) !! i); simpl in *; congruence. }
  exists o, m1, (setMaterialState Base (Some o) m1).
  split; [done|]. split; [done|]. split; [done|]. split.
  - unfold setMeshState. rewrite Hm1. simpl. rewrite Hbase, Hmats. simpl.
    rewrite (paintMaterials_lookup Base _ _ _ i addr m1); try done.
    + by rewrite Ho.
    + intros j b Hj. destruct (Hall j b Hj) as (? & ? & -> & _). eauto.
  - subst o. apply (setMaterialState_base m1 m1); done.
Qed.

(** ** Repainting the mesh list *)

Lemma meshesOk_setMeshState a st s ml :
  meshesOk s ml → meshesOk (setMeshState a st s) ml.
Proof.
  intros [Hnd Hmesh Hapart]. split; [done| |].
  - intros b Hb. destruct (Hmesh b Hb) as (addrs & base & Hok).
    exists addrs, base. by apply meshOk_setMeshState.
  - intros b c x. rewrite !matsAt_setMeshState. apply Hapart.
Qed.



Lemma setMeshState_paintedAs s a st addrs base :
  meshOk s a addrs base → paintedAs (setMeshState a st s) a st.
Proof.
  intros [(mesh & Hm & Hmats & Hbase) Hnd Hlen Hall].
  unfold paintedAs, setMeshState. rewrite Hm. simpl.
  rewrite list_lookup_insert_eq by (by eapply lookup_lt_Some).
  eexists. split; [done|]. split; [by destruct mesh, st|].
  destruct mesh as [im nm hg mat pk mb ro]. simpl in *. subst mb. rewrite Hmats. simpl.
  intros i addr m Hi Hm'. rewrite list_lookup_fmap in Hi.
  destruct (addrs !! i) as [addr'|] eqn:Hi'; [|done]. injection Hi as ->.
  destruct (Hall i addr Hi') as (m0 & o & Hm0 & Ho & Hshape).
  rewrite (paintMaterials_lookup st base addrs _ i addr m0) in Hm'; try done.
  - injection Hm' as <-. rewrite Ho. by apply setMaterialState_last.
  - intros j b Hj. destruct (Hall j b Hj) as (? & ? & -> & _). eauto.
Qed.

(** Painting another mesh, which shares no material with this one, leaves
    this one painted as it was. *)
Lemma paintedAs_other s a b st st' :
  a ≠ b → (∀ x, Some x ∈ matsAt s a → Some x ∉ matsAt s b) →
  paintedAs s a st → paintedAs (setMeshState b st' s) a st.
Proof.
  intros Hne Hapart (mesh & Hm & Hro & Hfix). exists mesh.
  rewrite setMeshState_objects_ne by done. split; [done|]. split; [done|].
  intros i addr m Hi. rewrite setMeshState_frame; [by apply Hfix|].
  apply Hapart. unfold matsAt. rewrite Hm. by eapply list_elem_of_lookup_2.
Qed.

Lemma partKeyOf_setMeshState a st s b : partKeyOf (setMeshState a st s) b = partKeyOf s b.
Proof.
  unfold partKeyOf, setMeshState. destruct (Store.objects s !! a) as [mesh|] eqn:Hm; [|done].
  simpl. destruct (decide (a = b)) as [<-|Hne].
  - rewrite list_lookup_insert_eq by (by eapply lookup_lt_Some). rewrite Hm. by destruct mesh.
  - by rewrite list_lookup_insert_ne.
Qed.

Lemma paintMesh_fst keys hs acc a :
  (paintMesh keys hs acc a).1 = setMeshState a (pickedState keys hs (partKeyOf acc.1 a)) acc.1.
Proof.
  unfold paintMesh, pickedState. destruct (negb hs); [done|]. by destruct (_ && _).
Qed.


Lemma foldl_paintMesh_spec keys hs ML ml s n :
  meshesOk s ML → ml ⊆ ML → NoDup ml →
  let s' := (foldl (paintMesh keys hs) (s, n) ml).1 in
  meshesOk s' ML
  ∧ (∀ b, partKeyOf s' b = partKeyOf s b)
  ∧ (∀ b, matsAt s' b = matsAt s b)
  ∧ ∀ a, a ∈ ml → paintedAs s' a (pickedState keys hs (partKeyOf s a)).
Proof.
  intros Hok. induction ml as [|a ml IH] using rev_ind; intros Hsub Hnd; simpl.
  { split; [done|]. split; [done|]. split; [done|]. intros a Ha. by apply elem_of_nil in Ha. }
  rewrite foldl_app. simpl. rewrite paintMesh_fst.
  apply NoDup_app in Hnd as (Hnd & Hfresh & _).
  destruct IH as (Hok1 & Hpk & Hmats & Hpainted); [set_solver|done|].
  set (s1 := (foldl (paintMesh keys hs) (s, n) ml).1) in *.
  assert (a ∈ ML) as HaML by set_solver.
  split; [by apply meshesOk_setMeshState|].
  split; [intros b; by rewrite partKeyOf_setMeshState|].
  split; [intros b; by rewrite matsAt_setMeshState|].
  intros b [Hb|Hb%list_elem_of_singleton]%elem_of_app.
  - assert (b ≠ a) as Hne.
    { intros ->. apply (Hfresh a Hb). by apply list_elem_of_singleton. }
    apply paintedAs_other; [done| |by apply Hpainted].
    intros x. apply (ms_apart _ _ Hok1); [set_solver|done|done].
  - subst b. rewrite Hpk. destruct (ms_mesh _ _ Hok1 a HaML) as (addrs & base & Hmesh).
    by eapply setMeshState_paintedAs.
Qed.

Lemma applySelectionToMeshes_store v :
  store (applySelectionToMeshes v)
  = (foldl (paintMesh (computeSelectedMeshKeys (groupByKey v) (selectedGroupKeys v))
              (bool_decide (0 < size (computeSelectedMeshKeys (groupByKey v) (selectedGroupKeys v)))))
       (store v, 0) (meshList v)).1.
Proof. done. Qed.

Lemma applySelectionToMeshes_meshesOk v :
  meshesOk (store v) (meshList v) →
  meshesOk (store (applySelectionToMeshes v)) (meshList (applySelectionToMeshes v)).
Proof.
  intros Hok. rewrite applySelectionToMeshes_store.
  change (meshList (applySelectionToMeshes v)) with (meshList v).
  by apply foldl_paintMesh_spec; [|set_solver|apply (ms_nodup _ _ Hok)].
Qed.

(** ** The invariant of the viewer *)

Lemma meshOk_transfer s s' a addrs base :
  Store.objects s' !! a = Store.objects s !! a →
  (∀ x m, Store.materials s !! x = Some m → Store.materials s' !! x = Some m) →
  meshOk s a addrs base → meshOk s' a addrs base.
Proof.
  intros Hobj Hmat [(mesh & Hm & Hmats & Hbase) Hnd Hlen Hall]. split; try done.
  - exists mesh. by rewrite Hobj.
  - intros i addr Hi. destruct (Hall i addr Hi) as (m & o & Hm' & Ho & Hshape).
    exists m, o. eauto.
Qed.

Lemma matsAt_transfer s s' a :
  Store.objects s' !! a = Store.objects s !! a → matsAt s' a = matsAt s a.
Proof. unfold matsAt. by intros ->. Qed.

Lemma meshesOk_transfer s s' ml :
  (∀ a, a ∈ ml → Store.objects s' !! a = Store.objects s !! a) →
  (∀ x m, Store.materials s !! x = Some m → Store.materials s' !! x = Some m) →
  meshesOk s ml → meshesOk s' ml.
Proof.
  intros Hobj Hmat [Hnd Hmesh Hapart]. split; [done| |].
  - intros a Ha. destruct (Hmesh a Ha) as (addrs & base & Hok).
    exists addrs, base. apply (meshOk_transfer s s'); [by apply Hobj|done|done].
  - intros a b x Ha Hb Hne.
    rewrite (matsAt_transfer s s' a), (matsAt_transfer s s' b) by (by apply Hobj).
    by apply Hapart.
Qed.

(** [dispose] only writes the logs. *)
Lemma disposeMaterial_heap s r :
  Store.objects (disposeMaterial s r) = Store.objects s
  ∧ Store.materials (disposeMaterial s r) = Store.materials s.
Proof.
  unfold disposeMaterial. destruct r as [a|]; [|done]. by destruct (Store.materials s !! a).
Qed.

Lemma foldl_disposeMaterial_heap mats s :
  Store.objects (foldl disposeMaterial s mats) = Store.objects s
  ∧ Store.materials (foldl disposeMaterial s mats) = Store.materials s.
Proof.
  revert s. induction mats as [|r mats IH]; intros s; [done|]. simpl.
  destruct (IH (disposeMaterial s r)) as [-> ->]. apply disposeMaterial_heap.
Qed.

Lemma disposeNode_heap s a :
  Store.objects (disposeNode s a) = Store.objects s
  ∧ Store.materials (disposeNode s a) = Store.materials s.
Proof.
  unfold disposeNode. destruct (Store.objects s !! a) as [obj|]; [|done].
  destruct (Object3D.isMesh obj); [|done].
  destruct (foldl_disposeMaterial_heap (matsOf (Object3D.material obj))
              (if Object3D.hasGeometry obj
               then Store.set_disposedGeometries (Store.disposedGeometries s ++ [a]) s
               else s)) as [-> ->].
  by destruct (Object3D.hasGeometry obj).
Qed.

Lemma disposeObject_heap root s :
  Store.objects (disposeObject root s) = Store.objects s
  ∧ Store.materials (disposeObject root s) = Store.materials s.
Proof.
  destruct root as [nodes|]; [|done]. simpl. revert s.
  induction nodes as [|a nodes IH]; intros s; [done|]. simpl.
  destruct (IH (disposeNode s a)) as [-> ->]. apply disposeNode_heap.
Qed.

Lemma meshesOk_same_heap s s' ml :
  Store.objects s' = Store.objects s → Store.materials s' = Store.materials s →
  meshesOk s ml → meshesOk s' ml.
Proof. intros Ho Hm. apply meshesOk_transfer; intros; by rewrite ?Ho, ?Hm. Qed.

Lemma allocAsset_heap asset s :
  Store.objects (allocAsset asset s).1
  = Store.objects s ++ (instantiate (length (Store.materials s)) <$> Asset.nodes asset)
  ∧ Store.materials (allocAsset asset s).1 = Store.materials s ++ Asset.materials asset
  ∧ (allocAsset asset s).2 = seq (length (Store.objects s)) (length (Asset.nodes asset))
  ∧ Store.disposedGeometries (allocAsset asset s).1 = Store.disposedGeometries s
  ∧ Store.disposedMaterials (allocAsset asset s).1 = Store.disposedMaterials s.
Proof. done. Qed.

Lemma meshesOk_allocAsset asset s ml :
  meshesOk s ml → meshesOk (allocAsset asset s).1 ml.
Proof.
  intros Hok. destruct (allocAsset_heap asset s) as (Ho & Hm & _).
  eapply meshesOk_transfer; [| |exact Hok].
  - intros a Ha. destruct (ms_mesh _ _ Hok a Ha) as (? & ? & [(mesh & Hmesh & _) _ _ _]).
    rewrite Ho, Hmesh. by apply lookup_app_l_Some.
  - intros x m Hx. rewrite Hm. by apply lookup_app_l_Some.
Qed.

Lemma meshesOk_nil s : meshesOk s [].
Proof.
  split; [apply NoDup_nil_2| |]; intros a; intros; exfalso; by eapply not_elem_of_nil.
Qed.

(** Registering one mesh of the loaded model. *)
Lemma registerMesh_fields v a :
  selectedGroupKeys (registerMesh v a) = selectedGroupKeys v
  ∧ groupByKey (registerMesh v a) = groupByKey v
  ∧ activeSystem (registerMesh v a) = activeSystem v
  ∧ loadToken (registerMesh v a) = loadToken v
  ∧ modelRoot (registerMesh v a) = modelRoot v
  ∧ scene (registerMesh v a) = scene v
  ∧ tasks (registerMesh v a) = tasks v
  ∧ requests (registerMesh v a) = requests v
  ∧ dom (registerMesh v a) = dom v.
Proof.
  unfold registerMesh. destruct (Store.objects (store v) !! a) as [child|]; [|done].
  by destruct (Object3D.isMesh child).
Qed.

Lemma registerMesh_meshList v a :
  meshList (registerMesh v a)
  = match Store.objects (store v) !! a with
    | Some child => if Object3D.isMesh child then meshList v ++ [a] else meshList v
    | None => meshList v
    end.
Proof.
  unfold registerMesh. destruct (Store.objects (store v) !! a) as [child|]; [|done].
  by destruct (Object3D.isMesh child).
Qed.

Lemma registerMesh_meshesOk v a :
  meshesOk (store v) (meshList v) → a ∉ meshList v →
  meshesOk (store (registerMesh v a)) (meshList (registerMesh v a)).
Proof.
  intros Hok Ha. unfold registerMesh.
  destruct (Store.objects (store v) !! a) as [child|] eqn:Hchild; [|done].
  destruct (Object3D.isMesh child) eqn:Hmesh; [|done]. simpl.
  set (child' := Object3D.set_partKey (Some (partKeyFromName (Object3D.name child))) child).
  set (s' := Store.set_objects (<[a := child']> (Store.objects (store v))) (store v)).
  assert (Store.objects s' !! a = Some child') as Hchild'.
  { simpl. apply list_lookup_insert_eq. by eapply lookup_lt_Some. }
  destruct (ensureUniqueMaterials_unfold a s' child' Hchild')
    as (mesh1 & E & Hmats1 & _).
  pose proof (ensureUniqueMaterials_meshOk a s' child' Hchild') as Hok_a.
  assert (∀ b, b ≠ a →
            Store.objects (ensureUniqueMaterials a s') !! b = Store.objects (store v) !! b) as Hobj.
  { intros b Hb. rewrite E. simpl. by rewrite !list_lookup_insert_ne. }
  assert (∀ x m, Store.materials (store v) !! x = Some m →
            Store.materials (ensureUniqueMaterials a s') !! x = Some m) as Hmat.
  { intros x m Hx. rewrite E. simpl. by apply lookup_app_l_Some. }
  assert (matsAt (ensureUniqueMaterials a s') a
          = Some <$> seq (length (Store.materials (store v)))
                         (length (matsOf (Object3D.material child')))) as HmatsA.
  { by apply (matsAt_meshOk _ _ _ _ Hok_a). }
  assert (∀ b x, b ∈ meshList v → Some x ∈ matsAt (store v) b →
            x < length (Store.materials (store v))) as Hbound.
  { intros b x Hb Hx. destruct (ms_mesh _ _ Hok b Hb) as (addrs & base & Hb').
    rewrite (matsAt_meshOk _ _ _ _ Hb') in Hx.
    apply list_elem_of_fmap in Hx as (y & [= <-] & Hy).
    apply list_elem_of_lookup in Hy as [i Hi].
    destruct (meshOk_valid _ _ _ _ _ _ Hb' Hi) as [m Hm]. by eapply lookup_lt_Some. }
  assert (∀ x, Some x ∈ matsAt (ensureUniqueMaterials a s') a →
            length (Store.materials (store v)) ≤ x) as Hfresh.
  { intros x. rewrite HmatsA. intros (y & [= <-] & Hy)%list_elem_of_fmap.
    apply list_elem_of_lookup in Hy as [i Hi]. apply lookup_seq in Hi as [-> _]. lia. }
  assert (∀ b, b ∈ meshList v → b ≠ a) as Hother.
  { intros b Hb Heq. apply Ha. by rewrite <- Heq. }
  destruct Hok as [Hnd Hmeshes Hapart]. split.
  - apply NoDup_app. split; [done|]. split; [|apply NoDup_singleton].
    intros b Hb Hb'%list_elem_of_singleton. by apply (Hother b).
  - intros b [Hb|Hb%list_elem_of_singleton]%elem_of_app.
    + destruct (Hmeshes b Hb) as (addrs & base & Hb'). exists addrs, base.
      eapply meshOk_transfer; [|exact Hmat|exact Hb']. by apply Hobj, Hother.
    + subst b. eauto.
  - intros b c x [Hb|Hb%list_elem_of_singleton]%elem_of_app
                 [Hc|Hc%list_elem_of_singleton]%elem_of_app Hne.
    + rewrite (matsAt_transfer (store v) _ b), (matsAt_transfer (store v) _ c)
        by (by apply Hobj, Hother).
      by apply Hapart.
    + subst c. rewrite (matsAt_transfer (store v) _ b) by (by apply Hobj, Hother).
      intros Hx Hx'. apply Hfresh in Hx'. apply (Hbound b x Hb) in Hx. lia.
    + subst b. rewrite (matsAt_transfer (store v) _ c) by (by apply Hobj, Hother).
      intros Hx Hx'. apply Hfresh in Hx. apply (Hbound c x Hc) in Hx'. lia.
    + congruence.
Qed.

Lemma foldl_registerMesh_fields v obj :
  selectedGroupKeys (foldl registerMesh v obj) = selectedGroupKeys v
  ∧ groupByKey (foldl registerMesh v obj) = groupByKey v
  ∧ activeSystem (foldl registerMesh v obj) = activeSystem v
  ∧ loadToken (foldl registerMesh v obj) = loadToken v
  ∧ modelRoot (foldl registerMesh v obj) = modelRoot v
  ∧ scene (foldl registerMesh v obj) = scene v
  ∧ tasks (foldl registerMesh v obj) = tasks v
  ∧ requests (foldl registerMesh v obj) = requests v
  ∧ dom (foldl registerMesh v obj) = dom v.
Proof.
  revert v. induction obj as [|a obj IH]; intros v; [done|]. simpl.
  destruct (IH (registerMesh v a)) as (-> & -> & -> & -> & -> & -> & -> & -> & ->).
  apply registerMesh_fields.
Qed.

Lemma foldl_registerMesh_meshesOk v obj :
  meshesOk (store v) (meshList v) → NoDup obj → (∀ a, a ∈ obj → a ∉ meshList v) →
  meshesOk (store (foldl registerMesh v obj)) (meshList (foldl registerMesh v obj)).
Proof.
  revert v. induction obj as [|a obj IH]; intros v Hok Hnd Hfresh; [done|]. simpl.
  apply NoDup_cons in Hnd as [Ha Hnd]. apply IH; [|done|].
  - apply registerMesh_meshesOk; [done|]. apply Hfresh. by left.
  - intros b Hb. rewrite registerMesh_meshList.
    assert (b ∉ meshList v) as Hb' by (apply Hfresh; by right).
    destruct (Store.objects (store v) !! a) as [child|]; [|done].
    destruct (Object3D.isMesh child); [|done].
    rewrite elem_of_app, list_elem_of_singleton. intros [?| ->]; done.
Qed.

(** [loadModel] after its [await], by the token test. *)
Lemma loadModel_resume_stale token asset v :
  token ≠ loadToken v →
  loadModel_resume token asset v
  = set_store (disposeObject (Some (allocAsset asset (store v)).2)
                 (allocAsset asset (store v)).1) v.
Proof.
  intros Hne. unfold loadModel_resume.
  change (loadToken (set_store _ v)) with (loadToken v).
  by rewrite (proj2 (Z.eqb_neq _ _) Hne).
Qed.

Lemma loadModel_resume_current asset v :
  loadModel_resume (loadToken v) asset v
  = applySelectionToMeshes
      (setLoading false TextLoading
         (foldl registerMesh (replaceRoot asset v) (allocAsset asset (store v)).2)).
Proof.
  unfold loadModel_resume.
  change (loadToken (set_store _ v)) with (loadToken v).
  rewrite Z.eqb_refl. unfold replaceRoot. simpl negb. cbv iota.
  change (modelRoot (set_store _ v)) with (modelRoot v).
  by destruct (modelRoot v).
Qed.

Lemma loadModel_resume_cases token asset v :
  (token ≠ loadToken v
   ∧ loadModel_resume token asset v
     = set_store (disposeObject (Some (allocAsset asset (store v)).2)
                    (allocAsset asset (store v)).1) v)
  ∨ (token = loadToken v
     ∧ loadModel_resume token asset v
       = applySelectionToMeshes
           (setLoading false TextLoading
              (foldl registerMesh (replaceRoot asset v) (allocAsset asset (store v)).2))).
Proof.
  destruct (decide (token = loadToken v)) as [->|Hne].
  - right. split; [done|apply loadModel_resume_current].
  - left. split; [done|by apply loadModel_resume_stale].
Qed.

Lemma loadModel_resume_fields token asset v :
  selectedGroupKeys (loadModel_resume token asset v) = selectedGroupKeys v
  ∧ groupByKey (loadModel_resume token asset v) = groupByKey v
  ∧ activeSystem (loadModel_resume token asset v) = activeSystem v
  ∧ loadToken (loadModel_resume token asset v) = loadToken v
  ∧ tasks (loadModel_resume token asset v) = tasks v
  ∧ requests (loadModel_resume token asset v) = requests v.
Proof.
  destruct (loadModel_resume_cases token asset v) as [[_ ->]|[_ ->]]; [done|].
  unfold applySelectionToMeshes, setStatus, setLoading.
  cbn [selectedGroupKeys groupByKey activeSystem loadToken tasks requests set_dom set_store].
  match goal with |- context [foldl registerMesh ?v0 ?o] =>
    destruct (foldl_registerMesh_fields v0 o) as (-> & -> & -> & -> & _ & _ & -> & -> & _)
  end.
  done.
Qed.

Lemma loadModel_resume_meshesOk token asset v :
  meshesOk (store v) (meshList v) →
  meshesOk (store (loadModel_resume token asset v)) (meshList (loadModel_resume token asset v)).
Proof.
  intros Hok. destruct (loadModel_resume_cases token asset v) as [[_ ->]|[_ ->]].
  - cbn [store meshList set_store].
    eapply meshesOk_same_heap; [apply disposeObject_heap..|].
    by apply meshesOk_allocAsset.
  - apply applySelectionToMeshes_meshesOk.
    change (meshesOk (store (foldl registerMesh (replaceRoot asset v) (allocAsset asset (store v)).2))
              (meshList (foldl registerMesh (replaceRoot asset v) (allocAsset asset (store v)).2))).
    apply foldl_registerMesh_meshesOk.
    + apply meshesOk_nil.
    + apply NoDup_seq.
    + intros a _. apply not_elem_of_nil.
Qed.

Lemma toggleKey_nonempty k sel : "" ∉ sel → "" ∉ toggleKey k sel.
Proof.
  intros H. unfold toggleKey. destruct (isEmpty k) eqn:E; [done|].
  apply isEmpty_false in E. case_bool_decide; set_solver.
Qed.

Lemma Inv_initial : Inv initial.
Proof.
  split; simpl.
  - set_solver.
  - by exists [].
  - done.
  - apply meshesOk_nil.
Qed.

Lemma Inv_applySelectionToMeshes v : Inv v → Inv (applySelectionToMeshes v).
Proof.
  intros [H1 H2 H3 H4]. split; try done. by apply applySelectionToMeshes_meshesOk.
Qed.

Lemma Inv_toggleGroup k v : Inv v → Inv (toggleGroup k v).
Proof.
  intros Hinv. unfold toggleGroup. destruct (isEmpty k) eqn:E; [done|].
  apply Inv_applySelectionToMeshes. destruct Hinv as [H1 H2 H3 H4]. split; try done.
  simpl. by apply toggleKey_nonempty.
Qed.

Lemma Inv_loadModel_resume token asset v : Inv v → Inv (loadModel_resume token asset v).
Proof.
  intros [H1 H2 H3 H4].
  destruct (loadModel_resume_fields token asset v) as (E1 & E2 & E3 & _).
  split; rewrite ?E1, ?E2, ?E3; try done. by apply loadModel_resume_meshesOk.
Qed.

Section InvSteps.
Variable localeCompare : string → string → Z.

Lemma Inv_step v e v' : Inv v → step localeCompare v e = Some v' → Inv v'.
Proof.
  intros Hinv. destruct e as [k|i r|i r|k|hit| |text|]; simpl.
  - unfold loadSystem. destruct (SYSTEMS k) as [sys| |] eqn:Hsys.
    + unfold loadGroups_call. rewrite Hsys. intros [= <-].
      destruct Hinv as [H1 H2 H3 H4]. split; simpl; try done; congruence.
    + unfold loadGroups_call. rewrite Hsys. intros [= <-].
      destruct Hinv as [H1 H2 H3 H4]. split; simpl; try done; congruence.
    + intros [= <-]. by destruct Hinv.
  - destruct (tasks v !! i) as [t|] eqn:Ht; [|done].
    destruct (Task.phase t); try done. intros [= <-].
    unfold onFetchSettled. destruct r as [groupsJson|].
    + assert (Inv (loadGroups_resume localeCompare (Task.token t) groupsJson v)) as Hinv'.
      { unfold loadGroups_resume. destruct (negb _); [done|].
        destruct Hinv as [H1 H2 H3 H4]. split; simpl; try done. by eexists. }
      revert Hinv'. generalize (loadGroups_resume localeCompare (Task.token t) groupsJson v).
      intros w Hw. unfold loadModel_call.
      destruct (SYSTEMS (Task.systemKey t)); unfold setPhase; simpl;
        destruct (tasks w !! i); by destruct Hw.
    + unfold setPhase. destruct (tasks v !! i); by destruct Hinv.
  - destruct (tasks v !! i) as [t|] eqn:Ht; [|done].
    destruct (Task.phase t); try done. intros [= <-].
    unfold onModelSettled. destruct r as [asset|].
    + pose proof (Inv_loadModel_resume (Task.token t) asset v Hinv) as Hw.
      revert Hw. generalize (loadModel_resume (Task.token t) asset v). intros w Hw.
      unfold setPhase. destruct (tasks w !! i); by destruct Hw.
    + unfold setPhase. destruct (tasks v !! i); by destruct Hinv.
  - intros [= <-]. by apply Inv_toggleGroup.
  - intros [= <-]. unfold pick. destruct hit as [a|]; [|done].
    match goal with |- Inv (if isEmpty ?k then _ else _) => destruct (isEmpty k) end;
      [done|by apply Inv_toggleGroup].
  - intros [= <-]. unfold clearSelection. apply Inv_applySelectionToMeshes.
    destruct Hinv as [H1 H2 H3 H4]. split; simpl; try done.
  - intros [= <-]. by destruct Hinv.
  - intros [= <-]. by destruct Hinv.
Qed.

Lemma Inv_run v es v' : Inv v → run localeCompare v es = Some v' → Inv v'.
Proof.
  revert v. induction es as [|e es IH]; intros v Hinv; simpl.
  - by intros [= <-].
  - destruct (step localeCompare v e) as [w|] eqn:Hstep; [|done].
    apply IH. by eapply Inv_step.
Qed.

Lemma reachable_Inv v : reachable localeCompare v → Inv v.
Proof. intros [es Hes]. eapply Inv_run; [apply Inv_initial|done]. Qed.

End InvSteps.

(** ** The state machine of the materials *)




Lemma musclesLoaded_reachable : reachable codeUnitCompare musclesLoaded.
Proof. exists musclesLoadedEvents. vm_compute. reflexivity. Qed.

Lemma quadricepsSelected_reachable : reachable codeUnitCompare quadricepsSelected.
Proof. exists (musclesLoadedEvents ++ [ChipClick "quadriceps"]). vm_compute. reflexivity. Qed.


Example quadriceps_states :
  stateFor (computeSelectedMeshKeys (groupByKey quadricepsSelected)
              (selectedGroupKeys quadricepsSelected)) <$>
    (partKeyOf (store quadricepsSelected) <$> meshList quadricepsSelected)
  = [Sel; Sel; Dim].
Proof. vm_compute. reflexivity. Qed.

(** C10: in a state the viewer has reached, painting one mesh of the mesh
    list leaves every other mesh alone: the other mesh's object, its material
    slots and every material in them are as they were, because the two meshes
    hold no material in common; every slot of a mesh holds a material of its
    own, the clone made when the mesh index was built. *)
Theorem setMeshState_isolated (localeCompare : string → string → Z) (v : Viewer)
    (a b : nat) (st : MeshState) (Hv : reachable localeCompare v)
    (Ha : a ∈ meshList v) (Hb : b ∈ meshList v) (Hab : a ≠ b) :
  let s' := setMeshState a st (store v) in
  Store.objects s' !! b = Store.objects (store v) !! b
  ∧ matsAt s' b = matsAt (store v) b
  ∧ (∀ x, Some x ∈ matsAt (store v) b →
       Store.materials s' !! x = Store.materials (store v) !! x
       ∧ is_Some (Store.materials (store v) !! x)
       ∧ Some x ∉ matsAt (store v) a)
  ∧ (∀ r, r ∈ matsAt (store v) b → is_Some r).
Proof.
  intros s'. pose proof (inv_meshes _ (reachable_Inv _ _ Hv)) as Hok.
  destruct (ms_mesh _ _ Hok b Hb) as (addrs & base & Hmesh).
  split; [by apply setMeshState_objects_ne|]. split; [apply matsAt_setMeshState|].
  split.
  - intros x Hx.
    assert (Some x ∉ matsAt (store v) a) as Hxa.
    { intros Hxa. by apply (ms_apart _ _ Hok a b x). }
    split; [by apply setMeshState_frame|]. split; [|done].
    rewrite (matsAt_meshOk _ _ _ _ Hmesh) in Hx.
    apply list_elem_of_fmap in Hx as (y & [= <-] & Hy).
    apply list_elem_of_lookup in Hy as [i Hi]. by eapply meshOk_valid.
  - intros r. rewrite (matsAt_meshOk _ _ _ _ Hmesh).
    intros (y & -> & _)%list_elem_of_fmap. eauto.
Qed.

Lemma setMeshState_isolated_witness :
  reachable codeUnitCompare musclesLoaded
  ∧ 1 ∈ meshList musclesLoaded ∧ 2 ∈ meshList musclesLoaded ∧ 1 ≠ 2
  ∧ Store.objects (setMeshState 1 Sel (store musclesLoaded)) !! 2
    = Store.objects (store musclesLoaded) !! 2.
Proof.
  assert (meshList musclesLoaded = [1; 2; 3]) as E by (vm_compute; reflexivity).
  assert (1 ∈ meshList musclesLoaded) as H1 by (rewrite E; repeat constructor).
  assert (2 ∈ meshList musclesLoaded) as H2 by (rewrite E; repeat constructor).
  assert (1 ≠ 2) as H12 by lia.
  split; [apply musclesLoaded_reachable|]. split; [done|]. split; [done|]. split; [done|].
  exact (proj1 (setMeshState_isolated codeUnitCompare musclesLoaded 1 2 Sel
                  musclesLoaded_reachable H1 H2 H12)).
Defined.

(** The two meshes that shared one material in the asset: selecting one
    changes its clone and not the clone of the other. *)
Example shared_material_isolated :
  Asset.material <$> Asset.nodes sharedMaterialAsset !! 1 = Some (Single (Some 0))
  ∧ Asset.material <$> Asset.nodes sharedMaterialAsset !! 2 = Some (Single (Some 0))
  ∧ matsAt (store musclesLoaded) 1 = [Some 1]
  ∧ matsAt (store musclesLoaded) 2 = [Some 2]
  ∧ Store.materials (setMeshState 1 Sel (store musclesLoaded)) !! 2
    = Store.materials (store musclesLoaded) !! 2
  ∧ Store.materials (setMeshState 1 Sel (store musclesLoaded)) !! 1
    ≠ Store.materials (store musclesLoaded) !! 1.
Proof. vm_compute. repeat split; try reflexivity. discriminate. Qed.

Lemma setMeshState_base_restores_witness :
  Store.objects freshAssetStore !! 3
  = Some (Object3D.mk true "RectusFemorisModel" true (Multi [Some 0; None]) None None 0)
  ∧ ∀ st, paintAll 3 ([Dim; Sel] ++ [st]) (ensureUniqueMaterials 3 freshAssetStore)
          = setMeshState 3 st (ensureUniqueMaterials 3 freshAssetStore).
Proof.
  assert (Store.objects freshAssetStore !! 3
          = Some (Object3D.mk true "RectusFemorisModel" true (Multi [Some 0; None]) None None 0))
    as H by reflexivity.
  split; [exact H|].
  exact (proj2 (setMeshState_base_restores freshAssetStore 3 _ [Dim; Sel] H)).
Defined.

Example base_after_selected_restores :
  Store.materials (paintAll 1 [Sel; Base] (store musclesLoaded)) !! 1
  = Material.set_needsUpdate true <$> Store.materials (store musclesLoaded) !! 1
  ∧ Store.materials (paintAll 1 [Dim; Sel; Base] (store musclesLoaded)) !! 1
    = Material.set_needsUpdate true <$> Store.materials (store musclesLoaded) !! 1.
Proof. vm_compute. split; reflexivity. Qed.

(** ** Frames of the store operations *)

Lemma sameNode_refl o : sameNode o o.
Proof. by repeat split. Qed.

Lemma sameNode_trans o1 o2 o3 : sameNode o1 o2 → sameNode o2 o3 → sameNode o1 o3.
Proof.
  intros (? & ? & ? & ? & ? & ?) (? & ? & ? & ? & ? & ?). repeat split; congruence.
Qed.

Lemma setMeshState_logs a st s :
  Store.disposedGeometries (setMeshState a st s) = Store.disposedGeometries s
  ∧ Store.disposedMaterials (setMeshState a st s) = Store.disposedMaterials s
  ∧ length (Store.objects (setMeshState a st s)) = length (Store.objects s)
  ∧ length (Store.materials (setMeshState a st s)) = length (Store.materials s).
Proof.
  unfold setMeshState. destruct (Store.objects s !! a) as [mesh|]; [|done].
  simpl. by rewrite length_insert, paintMaterials_length.
Qed.

Lemma setMeshState_node a st s b o :
  Store.objects s !! b = Some o →
  ∃ o', Store.objects (setMeshState a st s) !! b = Some o' ∧ sameNode o o'.
Proof.
  intros Hb. unfold setMeshState. destruct (Store.objects s !! a) as [mesh|] eqn:Hm.
  - simpl. destruct (decide (a = b)) as [->|Hne].
    + rewrite list_lookup_insert_eq by (by eapply lookup_lt_Some).
      eexists. split; [done|]. assert (mesh = o) as -> by congruence. by destruct o.
    + rewrite list_lookup_insert_ne by done. exists o. split; [done|apply sameNode_refl].
  - exists o. split; [done|apply sameNode_refl].
Qed.

Lemma isMeshAt_setMeshState a st s b : isMeshAt (setMeshState a st s) b = isMeshAt s b.
Proof.
  unfold isMeshAt. destruct (Store.objects s !! b) as [o|] eqn:Hb.
  - destruct (setMeshState_node a st s b o Hb) as (o' & -> & Hsame). by destruct Hsame.
  - destruct (Store.objects (setMeshState a st s) !! b) as [o'|] eqn:Hb'; [|done].
    apply lookup_lt_Some in Hb'. apply lookup_ge_None in Hb.
    destruct (setMeshState_logs a st s) as (_ & _ & Hlen & _). lia.
Qed.

Lemma foldl_paintMesh_frame keys hs ml s n :
  let s' := (foldl (paintMesh keys hs) (s, n) ml).1 in
  Store.disposedGeometries s' = Store.disposedGeometries s
  ∧ Store.disposedMaterials s' = Store.disposedMaterials s
  ∧ length (Store.objects s') = length (Store.objects s)
  ∧ (∀ b o, Store.objects s !! b = Some o →
       ∃ o', Store.objects s' !! b = Some o' ∧ sameNode o o')
  ∧ (∀ b, isMeshAt s' b = isMeshAt s b)
  ∧ (∀ x, (∀ a, a ∈ ml → Some x ∉ matsAt s a) →
       Store.materials s' !! x = Store.materials s !! x).
Proof.
  revert s n. induction ml as [|a ml IH] using rev_ind; intros s n; simpl.
  { repeat split; try done. intros b o Hb. exists o. split; [done|apply sameNode_refl]. }
  rewrite foldl_app. simpl. rewrite paintMesh_fst.
  destruct (IH s n) as (Hg & Hm & Hlen & Hnode & Hmesh & Hframe). clear IH.
  set (s1 := (foldl (paintMesh keys hs) (s, n) ml).1) in *.
  set (st := pickedState keys hs (partKeyOf s1 a)).
  destruct (setMeshState_logs a st s1) as (Hg' & Hm' & Hlen' & _).
  split; [congruence|]. split; [congruence|]. split; [congruence|]. split; [|split].
  - intros b o Hb. destruct (Hnode b o Hb) as (o1 & Hb1 & Hsame1).
    destruct (setMeshState_node a st s1 b o1 Hb1) as (o2 & Hb2 & Hsame2).
    exists o2. split; [done|]. by eapply sameNode_trans.
  - intros b. by rewrite isMeshAt_setMeshState.
  - intros x Hx. rewrite setMeshState_frame.
    + apply Hframe. intros c Hc. apply Hx. apply elem_of_app. by left.
    + assert (matsAt s1 a = matsAt s a) as ->.
      { unfold matsAt. destruct (Store.objects s !! a) as [o|] eqn:Ho.
        - destruct (Hnode a o Ho) as (o1 & -> & Hsame). destruct Hsame as (_ & _ & _ & -> & _). done.
        - destruct (Store.objects s1 !! a) eqn:Ho1; [|done].
          apply lookup_lt_Some in Ho1. apply lookup_ge_None in Ho. lia. }
      apply Hx. apply elem_of_app. right. by apply list_elem_of_singleton.
Qed.

(** Registering a mesh touches its own node only, and appends materials. *)
Lemma registerMesh_store v a :
  Store.disposedGeometries (store (registerMesh v a)) = Store.disposedGeometries (store v)
  ∧ Store.disposedMaterials (store (registerMesh v a)) = Store.disposedMaterials (store v)
  ∧ length (Store.objects (store (registerMesh v a))) = length (Store.objects (store v))
  ∧ (∀ b, b ≠ a → Store.objects (store (registerMesh v a)) !! b = Store.objects (store v) !! b)
  ∧ (∀ o, Store.objects (store v) !! a = Some o →
       ∃ o', Store.objects (store (registerMesh v a)) !! a = Some o'
             ∧ Object3D.isMesh o' = Object3D.isMesh o
             ∧ Object3D.name o' = Object3D.name o
             ∧ Object3D.hasGeometry o' = Object3D.hasGeometry o
             ∧ (Object3D.isMesh o = true →
                  Object3D.partKey o' = Some (slugify (Object3D.name o))))
  ∧ (∀ x m, Store.materials (store v) !! x = Some m →
       Store.materials (store (registerMesh v a)) !! x = Some m)
  ∧ length (Store.materials (store v)) ≤ length (Store.materials (store (registerMesh v a))).
Proof.
  unfold registerMesh. destruct (Store.objects (store v) !! a) as [child|] eqn:Hchild.
  2:{ repeat split; try done. }
  destruct (Object3D.isMesh child) eqn:Hmesh.
  2:{ repeat split; try done. intros o [= <-]. exists child. rewrite Hmesh. by repeat split. }
  cbn [store set_store set_meshList set_meshByKey].
  set (child' := Object3D.set_partKey (Some (partKeyFromName (Object3D.name child))) child).
  set (s' := Store.set_objects (<[a := child']> (Store.objects (store v))) (store v)).
  assert (Store.objects s' !! a = Some child') as Hchild'.
  { simpl. apply list_lookup_insert_eq. by eapply lookup_lt_Some. }
  destruct (ensureUniqueMaterials_unfold a s' child' Hchild')
    as (mesh1 & -> & _ & _ & Hm1 & Hn1 & Hg1 & Hp1).
  simpl. rewrite !length_insert.
  split; [done|]. split; [done|]. split; [done|]. split; [|split; [|split]].
  - intros b Hb. by rewrite !list_lookup_insert_ne.
  - intros o [= <-]. exists mesh1. rewrite list_lookup_insert_eq.
    2:{ rewrite length_insert. by eapply lookup_lt_Some. }
    split; [done|]. by rewrite Hm1, Hn1, Hg1, Hp1.
  - intros x m Hx. by apply lookup_app_l_Some.
  - rewrite length_app. lia.
Qed.

Lemma isMeshAt_registerMesh v a b : isMeshAt (store (registerMesh v a)) b = isMeshAt (store v) b.
Proof.
  destruct (registerMesh_store v a) as (_ & _ & Hlen & Hne & Heq & _).
  unfold isMeshAt. destruct (decide (b = a)) as [->|Hb]; [|by rewrite Hne].
  destruct (Store.objects (store v) !! a) as [o|] eqn:Ho.
  - destruct (Heq o eq_refl) as (o' & -> & -> & _). done.
  - destruct (Store.objects (store (registerMesh v a)) !! a) eqn:Ho'; [|done].
    apply lookup_lt_Some in Ho'. apply lookup_ge_None in Ho. lia.
Qed.

Lemma partKeyOf_registerMesh_ne v a b :
  b ≠ a → partKeyOf (store (registerMesh v a)) b = partKeyOf (store v) b.
Proof.
  intros Hb. destruct (registerMesh_store v a) as (_ & _ & _ & Hne & _).
  unfold partKeyOf. by rewrite Hne.
Qed.

Lemma foldl_registerMesh_spec obj v :
  NoDup obj →
  let v' := foldl registerMesh v obj in
  meshList v' = meshList v ++ List.filter (isMeshAt (store v)) obj
  ∧ Store.disposedGeometries (store v') = Store.disposedGeometries (store v)
  ∧ Store.disposedMaterials (store v') = Store.disposedMaterials (store v)
  ∧ length (Store.objects (store v')) = length (Store.objects (store v))
  ∧ (∀ b, b ∉ obj → Store.objects (store v') !! b = Store.objects (store v) !! b)
  ∧ (∀ b o, b ∈ obj → Store.objects (store v) !! b = Some o →
       ∃ o', Store.objects (store v') !! b = Some o'
             ∧ Object3D.isMesh o' = Object3D.isMesh o
             ∧ Object3D.name o' = Object3D.name o
             ∧ Object3D.hasGeometry o' = Object3D.hasGeometry o
             ∧ (Object3D.isMesh o = true →
                  Object3D.partKey o' = Some (slugify (Object3D.name o))))
  ∧ (∀ x m, Store.materials (store v) !! x = Some m →
       Store.materials (store v') !! x = Some m)
  ∧ (∀ b, isMeshAt (store v') b = isMeshAt (store v) b)
  ∧ length (Store.materials (store v)) ≤ length (Store.materials (store v')).
Proof.
  revert v. induction obj as [|a obj IH]; intros v Hnd; simpl.
  { rewrite app_nil_r. repeat split; try done.
    intros b o Hb. by apply elem_of_nil in Hb. }
  apply NoDup_cons in Hnd as [Ha Hnd].
  destruct (IH (registerMesh v a) Hnd) as (Hml & Hg & Hm & Hlen & Hout & Hin & Hmat & Hmesh & Hlm).
  clear IH.
  destruct (registerMesh_store v a) as (Hg1 & Hm1 & Hlen1 & Hne1 & Heq1 & Hmat1 & Hlm1).
  split; [|split; [congruence|split; [congruence|split; [congruence|split; [|split; [|split; [|split]]]]]]].
  - rewrite Hml, registerMesh_meshList.
    rewrite (filter_ext (isMeshAt (store (registerMesh v a))) (isMeshAt (store v)))
      by (intros; apply isMeshAt_registerMesh).
    unfold isMeshAt at 2. destruct (Store.objects (store v) !! a) as [o|]; [|done].
    destruct (Object3D.isMesh o); [|done]. by rewrite <- app_assoc.
  - intros b Hb. apply not_elem_of_cons in Hb as [Hba Hb]. rewrite Hout by done. by apply Hne1.
  - intros b o [->|Hb]%elem_of_cons Ho.
    + rewrite (Hout a Ha). by apply Heq1.
    + apply Hin; [done|]. rewrite Hne1; [done|]. intros ->. done.
  - intros x m Hx. by apply Hmat, Hmat1.
  - intros b. by rewrite Hmesh, isMeshAt_registerMesh.
  - lia.
Qed.

(** The key map during the traversal. *)
Lemma registerMesh_meshByKey v a :
  meshByKey (registerMesh v a)
  = match Store.objects (store v) !! a with
    | Some child =>
        if Object3D.isMesh child
        then mapSet (slugify (Object3D.name child))
               (default [] (mapGet (slugify (Object3D.name child)) (meshByKey v)) ++ [a])
               (meshByKey v)
        else meshByKey v
    | None => meshByKey v
    end.
Proof.
  unfold registerMesh. destruct (Store.objects (store v) !! a) as [child|]; [|done].
  by destruct (Object3D.isMesh child).
Qed.

Lemma partKeyOf_registerMesh_eq v a child :
  Store.objects (store v) !! a = Some child → Object3D.isMesh child = true →
  partKeyOf (store (registerMesh v a)) a = slugify (Object3D.name child).
Proof.
  intros Hchild Hmesh. destruct (registerMesh_store v a) as (_ & _ & _ & _ & Heq & _).
  destruct (Heq child Hchild) as (o' & Ho' & _ & _ & _ & Hpk).
  unfold partKeyOf. rewrite Ho'. simpl. by rewrite (Hpk Hmesh).
Qed.

Lemma registerMesh_meshByKeyOk v a :
  meshByKeyOk v → a ∉ meshList v → meshByKeyOk (registerMesh v a).
Proof.
  intros Hok Ha k.
  assert (List.filter (λ b, bool_decide (partKeyOf (store (registerMesh v a)) b = k)) (meshList v)
          = List.filter (λ b, bool_decide (partKeyOf (store v) b = k)) (meshList v)) as Hfilter.
  { apply filter_ext_in. intros b Hb%list_elem_of_In.
    rewrite partKeyOf_registerMesh_ne; [done|]. intros ->. done. }
  rewrite registerMesh_meshByKey, registerMesh_meshList.
  destruct (Store.objects (store v) !! a) as [child|] eqn:Hchild; [|by rewrite Hfilter].
  destruct (Object3D.isMesh child) eqn:Hmesh; [|by rewrite Hfilter].
  rewrite List.filter_app, Hfilter, mapGet_mapSet. simpl.
  rewrite (partKeyOf_registerMesh_eq v a child Hchild Hmesh).
  destruct (decide (slugify (Object3D.name child) = k)) as [->|Hk].
  - rewrite bool_decide_true by done. simpl. by rewrite Hok.
  - rewrite bool_decide_false by done. rewrite app_nil_r. apply Hok.
Qed.

Lemma foldl_registerMesh_meshByKeyOk obj v :
  meshByKeyOk v → NoDup obj → (∀ a, a ∈ obj → a ∉ meshList v) →
  meshByKeyOk (foldl registerMesh v obj).
Proof.
  revert v. induction obj as [|a obj IH]; intros v Hok Hnd Hfresh; [done|]. simpl.
  apply NoDup_cons in Hnd as [Ha Hnd]. apply IH; [|done|].
  - apply registerMesh_meshByKeyOk; [done|]. apply Hfresh. by left.
  - intros b Hb. rewrite registerMesh_meshList.
    assert (b ∉ meshList v) as Hb' by (apply Hfresh; by right).
    destruct (Store.objects (store v) !! a) as [child|]; [|done].
    destruct (Object3D.isMesh child); [|done].
    rewrite elem_of_app, list_elem_of_singleton. intros [?| ->]; done.
Qed.

(** The materials of the registered meshes are the clones: none of them
    existed before the traversal. *)
Lemma registerMesh_fresh_mats bm v a :
  bm ≤ length (Store.materials (store v)) → a ∉ meshList v →
  (∀ b x, b ∈ meshList v → Some x ∈ matsAt (store v) b → bm ≤ x) →
  ∀ b x, b ∈ meshList (registerMesh v a) → Some x ∈ matsAt (store (registerMesh v a)) b → bm ≤ x.
Proof.
  intros Hbm Ha Hold b x. destruct (registerMesh_store v a) as (_ & _ & _ & Hne & _).
  rewrite registerMesh_meshList.
  destruct (decide (b = a)) as [->|Hba].
  - unfold registerMesh.
    destruct (Store.objects (store v) !! a) as [child|] eqn:Hchild; [|done].
    destruct (Object3D.isMesh child) eqn:Hmesh; [|done]. intros _.
    cbn [store set_store set_meshList set_meshByKey].
    set (child' := Object3D.set_partKey (Some (partKeyFromName (Object3D.name child))) child).
    set (s' := Store.set_objects (<[a := child']> (Store.objects (store v))) (store v)).
    assert (Store.objects s' !! a = Some child') as Hchild'.
    { simpl. apply list_lookup_insert_eq. by eapply lookup_lt_Some. }
    rewrite (matsAt_meshOk _ _ _ _ (ensureUniqueMaterials_meshOk a s' child' Hchild')).
    intros (y & [= <-] & Hy)%list_elem_of_fmap.
    apply list_elem_of_lookup in Hy as [i Hi]. apply lookup_seq in Hi as [-> _].
    simpl. lia.
  - intros Hb. rewrite (matsAt_transfer (store v)) by (by apply Hne). apply Hold.
    destruct (Store.objects (store v) !! a) as [child|]; [|done].
    destruct (Object3D.isMesh child); [|done].
    apply elem_of_app in Hb as [?|?%list_elem_of_singleton]; done.
Qed.

Lemma foldl_registerMesh_fresh_mats bm obj v :
  bm ≤ length (Store.materials (store v)) → NoDup obj → (∀ a, a ∈ obj → a ∉ meshList v) →
  (∀ b x, b ∈ meshList v → Some x ∈ matsAt (store v) b → bm ≤ x) →
  ∀ b x, b ∈ meshList (foldl registerMesh v obj) →
         Some x ∈ matsAt (store (foldl registerMesh v obj)) b → bm ≤ x.
Proof.
  revert v. induction obj as [|a obj IH]; intros v Hbm Hnd Hfresh Hold; [done|]. simpl.
  apply NoDup_cons in Hnd as [Ha Hnd].
  destruct (registerMesh_store v a) as (_ & _ & _ & _ & _ & _ & Hlen).
  apply IH; [lia|done| |].
  - intros b Hb. rewrite registerMesh_meshList.
    assert (b ∉ meshList v) as Hb' by (apply Hfresh; by right).
    destruct (Store.objects (store v) !! a) as [child|]; [|done].
    destruct (Object3D.isMesh child); [|done].
    rewrite elem_of_app, list_elem_of_singleton. intros [?| ->]; done.
  - apply registerMesh_fresh_mats; [done| |done]. apply Hfresh. by left.
Qed.

Lemma foldl_paintMesh_objects_ne keys hs ml s n b :
  b ∉ ml →
  Store.objects (foldl (paintMesh keys hs) (s, n) ml).1 !! b = Store.objects s !! b.
Proof.
  revert s n. induction ml as [|a ml IH] using rev_ind; intros s n Hb; [done|].
  rewrite foldl_app. simpl. rewrite paintMesh_fst.
  apply not_elem_of_app in Hb as [Hb Hba]. rewrite list_elem_of_singleton in Hba.
  rewrite setMeshState_objects_ne by done. by apply IH.
Qed.

Lemma partKeyOf_sameNode s s' b :
  length (Store.objects s') = length (Store.objects s) →
  (∀ o, Store.objects s !! b = Some o → ∃ o', Store.objects s' !! b = Some o' ∧ sameNode o o') →
  partKeyOf s' b = partKeyOf s b.
Proof.
  intros Hlen Hnode. unfold partKeyOf. destruct (Store.objects s !! b) as [o|] eqn:Ho.
  - destruct (Hnode o eq_refl) as (o' & -> & (_ & _ & _ & _ & Hpk & _)). simpl. by rewrite Hpk.
  - destruct (Store.objects s' !! b) eqn:Ho'; [|done].
    apply lookup_lt_Some in Ho'. apply lookup_ge_None in Ho. lia.
Qed.

Lemma matsAt_sameNode s s' b :
  length (Store.objects s') = length (Store.objects s) →
  (∀ o, Store.objects s !! b = Some o → ∃ o', Store.objects s' !! b = Some o' ∧ sameNode o o') →
  matsAt s' b = matsAt s b.
Proof.
  intros Hlen Hnode. unfold matsAt. destruct (Store.objects s !! b) as [o|] eqn:Ho.
  - destruct (Hnode o eq_refl) as (o' & -> & (_ & _ & _ & Hm & _)). by rewrite Hm.
  - destruct (Store.objects s' !! b) eqn:Ho'; [|done].
    apply lookup_lt_Some in Ho'. apply lookup_ge_None in Ho. lia.
Qed.

(** ** [dispose] reaches every resource of the model *)

Lemma disposeMaterial_logs s r :
  Store.disposedGeometries (disposeMaterial s r) = Store.disposedGeometries s
  ∧ (∀ y, y ∈ Store.disposedMaterials s → y ∈ Store.disposedMaterials (disposeMaterial s r))
  ∧ (∀ x, r = Some x → is_Some (Store.materials s !! x) →
       x ∈ Store.disposedMaterials (disposeMaterial s r)).
Proof.
  unfold disposeMaterial. destruct r as [a|]; [|by repeat split].
  destruct (Store.materials s !! a) eqn:Ha; simpl.
  - split; [done|]. split.
    + intros y Hy. apply elem_of_app. by left.
    + intros x [= <-] _. apply elem_of_app. right. by apply list_elem_of_singleton.
  - split; [done|]. split; [done|]. intros x [= <-] [? ?]. congruence.
Qed.

Lemma foldl_disposeMaterial_logs mats s :
  Store.disposedGeometries (foldl disposeMaterial s mats) = Store.disposedGeometries s
  ∧ (∀ y, y ∈ Store.disposedMaterials s → y ∈ Store.disposedMaterials (foldl disposeMaterial s mats))
  ∧ (∀ x, Some x ∈ mats → is_Some (Store.materials s !! x) →
       x ∈ Store.disposedMaterials (foldl disposeMaterial s mats)).
Proof.
  revert s. induction mats as [|r mats IH]; intros s; simpl.
  { split; [done|]. split; [done|]. intros x Hx. by apply elem_of_nil in Hx. }
  destruct (IH (disposeMaterial s r)) as (Hg & Hmono & Hin).
  destruct (disposeMaterial_logs s r) as (Hg1 & Hmono1 & Hin1).
  destruct (disposeMaterial_heap s r) as [_ Hmat].
  split; [congruence|]. split; [eauto|].
  intros x [Hr|Hx]%elem_of_cons Hsome.
  - apply Hmono. by apply Hin1.
  - apply Hin; [done|]. by rewrite Hmat.
Qed.

Lemma disposeNode_logs s a :
  (∀ y, y ∈ Store.disposedGeometries s → y ∈ Store.disposedGeometries (disposeNode s a))
  ∧ (∀ y, y ∈ Store.disposedMaterials s → y ∈ Store.disposedMaterials (disposeNode s a))
  ∧ (∀ o, Store.objects s !! a = Some o → Object3D.isMesh o = true →
       (Object3D.hasGeometry o = true → a ∈ Store.disposedGeometries (disposeNode s a))
       ∧ ∀ x, Some x ∈ matsOf (Object3D.material o) → is_Some (Store.materials s !! x) →
              x ∈ Store.disposedMaterials (disposeNode s a)).
Proof.
  unfold disposeNode. destruct (Store.objects s !! a) as [obj|]; [|by repeat split].
  destruct (Object3D.isMesh obj) eqn:Hmesh.
  2:{ split; [done|]. split; [done|]. intros o [= <-]. congruence. }
  set (s1 := if Object3D.hasGeometry obj
             then Store.set_disposedGeometries (Store.disposedGeometries s ++ [a]) s else s).
  destruct (foldl_disposeMaterial_logs (matsOf (Object3D.material obj)) s1) as (Hg & Hmono & Hin).
  assert (Store.materials s1 = Store.materials s ∧ Store.disposedMaterials s1 = Store.disposedMaterials s)
    as [Hm1 Hd1] by (subst s1; by destruct (Object3D.hasGeometry obj)).
  split; [|split].
  - intros y Hy. rewrite Hg. subst s1. destruct (Object3D.hasGeometry obj); [|done].
    simpl. apply elem_of_app. by left.
  - intros y Hy. apply Hmono. by rewrite Hd1.
  - intros o [= <-] _. split.
    + intros Hgeo. rewrite Hg. subst s1. rewrite Hgeo. simpl.
      apply elem_of_app. right. by apply list_elem_of_singleton.
    + intros x Hx Hsome. apply Hin; [done|]. by rewrite Hm1.
Qed.

Lemma disposeObject_logs nodes s :
  let s' := disposeObject (Some nodes) s in
  (∀ y, y ∈ Store.disposedGeometries s → y ∈ Store.disposedGeometries s')
  ∧ (∀ y, y ∈ Store.disposedMaterials s → y ∈ Store.disposedMaterials s')
  ∧ (∀ a o, a ∈ nodes → Store.objects s !! a = Some o → Object3D.isMesh o = true →
       (Object3D.hasGeometry o = true → a ∈ Store.disposedGeometries s')
       ∧ ∀ x, Some x ∈ matsOf (Object3D.material o) → is_Some (Store.materials s !! x) →
              x ∈ Store.disposedMaterials s').
Proof.
  simpl. revert s. induction nodes as [|a nodes IH]; intros s; simpl.
  { split; [done|]. split; [done|]. intros a o Ha. by apply elem_of_nil in Ha. }
  destruct (IH (disposeNode s a)) as (Hg & Hm & Hin).
  destruct (disposeNode_logs s a) as (Hg1 & Hm1 & Hin1).
  destruct (disposeNode_heap s a) as [Hobj Hmat].
  split; [eauto|]. split; [eauto|].
  intros b o [->|Hb]%elem_of_cons Ho Hmesh.
  - destruct (Hin1 o Ho Hmesh) as [H1 H2]. split; [eauto|]. intros x Hx Hsome. eauto.
  - destruct (Hin b o Hb) as [H1 H2]; [by rewrite Hobj|done|].
    split; [done|]. intros x Hx Hsome. apply H2; [done|]. by rewrite Hmat.
Qed.

(** ** The two completions of [loadModel] *)

Lemma replaceRoot_spec asset v :
  let v0 := replaceRoot asset v in
  let obj := seq (length (Store.objects (store v))) (length (Asset.nodes asset)) in
  Store.objects (store v0)
  = Store.objects (store v) ++ (instantiate (length (Store.materials (store v))) <$> Asset.nodes asset)
  ∧ Store.materials (store v0) = Store.materials (store v) ++ Asset.materials asset
  ∧ (∀ y, y ∈ Store.disposedGeometries (store v) → y ∈ Store.disposedGeometries (store v0))
  ∧ (∀ y, y ∈ Store.disposedMaterials (store v) → y ∈ Store.disposedMaterials (store v0))
  ∧ meshList v0 = [] ∧ meshByKey v0 = []
  ∧ modelRoot v0 = Some obj ∧ obj ∈ scene v0.
Proof.
  unfold replaceRoot. cbn [store meshList meshByKey modelRoot scene set_store set_meshList
    set_meshByKey set_modelRoot set_scene].
  destruct (allocAsset_heap asset (store v)) as (Ho & Hm & Hobj & Hg & Hd).
  rewrite Hobj.
  assert (∀ sc : list Object3DRef,
    seq (length (Store.objects (store v))) (length (Asset.nodes asset))
    ∈ sc ++ [seq (length (Store.objects (store v))) (length (Asset.nodes asset))]) as Hscene.
  { intros sc. apply elem_of_app. right. by apply list_elem_of_singleton. }
  destruct (modelRoot v) as [root|].
  - destruct (disposeObject_heap (Some root) (allocAsset asset (store v)).1) as [-> ->].
    destruct (disposeObject_logs root (allocAsset asset (store v)).1) as (Hg' & Hd' & _).
    rewrite Hg in Hg'. rewrite Hd in Hd'. repeat split; auto.
  - rewrite Hg, Hd. repeat split; auto.
Qed.

Lemma applySelectionToMeshes_fields v :
  modelRoot (applySelectionToMeshes v) = modelRoot v
  ∧ scene (applySelectionToMeshes v) = scene v
  ∧ meshList (applySelectionToMeshes v) = meshList v
  ∧ meshByKey (applySelectionToMeshes v) = meshByKey v
  ∧ groupByKey (applySelectionToMeshes v) = groupByKey v
  ∧ selectedGroupKeys (applySelectionToMeshes v) = selectedGroupKeys v.
Proof. done. Qed.

(** The model of the current token becomes the active model; whatever was
    in the store stays as it was. *)
Lemma loadModel_current_spec asset v :
  let v' := loadModel_resume (loadToken v) asset v in
  modelActive asset v'
  ∧ storePreserved (store v) (store v')
  ∧ (∀ y, y ∈ Store.disposedGeometries (store v) → y ∈ Store.disposedGeometries (store v'))
  ∧ (∀ y, y ∈ Store.disposedMaterials (store v) → y ∈ Store.disposedMaterials (store v'))
  ∧ (∀ a, a ∈ meshList v' → length (Store.objects (store v)) ≤ a).
Proof.
  intros v'. subst v'. rewrite loadModel_resume_current.
  set (bo := length (Store.objects (store v))).
  set (bm := length (Store.materials (store v))).
  set (obj := seq bo (length (Asset.nodes asset))).
  destruct (replaceRoot_spec asset v) as (Hobj0 & Hmat0 & Hg0 & Hd0 & Hml0 & Hmk0 & Hroot0 & Hscene0).
  fold bo bm obj in Hobj0, Hroot0, Hscene0.
  change (allocAsset asset (store v)).2 with obj.
  set (v0 := replaceRoot asset v) in *.
  destruct (foldl_registerMesh_spec obj v0 (NoDup_seq _ _))
    as (Hml1 & Hg1 & Hd1 & Hlen1 & Hout1 & Hin1 & Hmat1 & Hmesh1 & Hlm1).
  destruct (foldl_registerMesh_fields v0 obj) as (_ & _ & _ & _ & Hroot1 & Hscene1 & _).
  assert (meshByKeyOk (foldl registerMesh v0 obj)) as Hmk1.
  { apply foldl_registerMesh_meshByKeyOk; [|apply NoDup_seq|].
    - intros k. by rewrite Hmk0, Hml0.
    - intros a _. rewrite Hml0. apply not_elem_of_nil. }
  assert (meshesOk (store (foldl registerMesh v0 obj)) (meshList (foldl registerMesh v0 obj))) as Hok1.
  { apply foldl_registerMesh_meshesOk; [|apply NoDup_seq|].
    - rewrite Hml0. apply meshesOk_nil.
    - intros a _. rewrite Hml0. apply not_elem_of_nil. }
  assert (∀ b x, b ∈ meshList (foldl registerMesh v0 obj) →
            Some x ∈ matsAt (store (foldl registerMesh v0 obj)) b →
            length (Store.materials (store v0)) ≤ x) as Hfresh1.
  { apply foldl_registerMesh_fresh_mats; [done|apply NoDup_seq| |].
    - intros a _. rewrite Hml0. apply not_elem_of_nil.
    - intros b x Hb. rewrite Hml0 in Hb. by apply elem_of_nil in Hb. }
  set (v1 := foldl registerMesh v0 obj) in *.
  set (v2 := setLoading false TextLoading v1).
  rewrite Hml0 in Hml1. simpl in Hml1.
  destruct (applySelectionToMeshes_fields v2) as (Hroot2 & Hscene2 & Hml2 & Hmk2 & _).
  rewrite applySelectionToMeshes_store in *.
  set (keys := computeSelectedMeshKeys (groupByKey v2) (selectedGroupKeys v2)) in *.
  set (hs := bool_decide (0 < size keys)) in *.
  change (store v2) with (store v1) in *. change (meshList v2) with (meshList v1) in *.
  change (modelRoot v2) with (modelRoot v1) in *. change (scene v2) with (scene v1) in *.
  change (meshByKey v2) with (meshByKey v1) in *.
  destruct (foldl_paintMesh_frame keys hs (meshList v1) (store v1) 0)
    as (Hg2 & Hd2 & Hlen2 & Hnode2 & Hmesh2 & Hframe2).
  destruct (foldl_paintMesh_spec keys hs (meshList v1) (meshList v1) (store v1) 0 Hok1)
    as (Hok2 & Hpk2 & Hmats2 & _); [done|apply (ms_nodup _ _ Hok1)|].
  set (s2 := (foldl (paintMesh keys hs) (store v1, 0) (meshList v1)).1) in *.
  assert (∀ a, a ∈ meshList v1 → a ∈ obj) as Hsub.
  { intros a. rewrite Hml1. intros Ha%list_elem_of_In. apply filter_In in Ha as [Ha _].
    by apply list_elem_of_In. }
  split; [|split; [|split; [|split]]].
  - exists bo. fold obj. change (store (applySelectionToMeshes v2)) with s2.
    rewrite Hroot2, Hscene2, Hml2, Hmk2.
    split; [by rewrite Hroot1|]. split; [by rewrite Hscene1|]. split; [|split; [|split]].
    + rewrite Hml1. apply filter_ext. intros a. by rewrite Hmesh2, Hmesh1.
    + intros j node Hj.
      assert (Store.objects (store v0) !! (bo + j) = Some (instantiate bm node)) as H0.
      { rewrite Hobj0, lookup_app_r by (unfold bo; lia).
        replace (bo + j - _) with j by (unfold bo; lia). by rewrite list_lookup_fmap, Hj. }
      assert (bo + j ∈ obj) as Hjobj.
      { apply list_elem_of_lookup. exists j. apply lookup_seq. split; [done|].
        by eapply lookup_lt_Some. }
      destruct (Hin1 _ _ Hjobj H0) as (o1 & Ho1 & Hm & Hn & Hgeo & Hpk).
      destruct (Hnode2 _ _ Ho1) as (o2 & Ho2 & (Hm' & Hn' & Hgeo' & _ & Hpk' & _)).
      exists o2. split; [done|]. simpl in *.
      split; [congruence|]. split; [congruence|]. split; [congruence|].
      intros Hmesh. rewrite Hpk'. by apply Hpk.
    + intros k. rewrite (Hmk1 k). apply filter_ext. intros a. by rewrite Hpk2.
    + intros a Ha x Hx. destruct (ms_mesh _ _ Hok2 a Ha) as (addrs & base & Hmesh).
      rewrite (matsAt_meshOk _ _ _ _ Hmesh) in Hx.
      apply list_elem_of_fmap in Hx as (y & [= <-] & Hy).
      apply list_elem_of_lookup in Hy as [i Hi]. by eapply meshOk_valid.
  - change (store (applySelectionToMeshes v2)) with s2. split.
    + intros a o Ha.
      assert (a ∉ obj) as Hao.
      { intros (i & Hi)%list_elem_of_lookup. apply lookup_seq in Hi as [-> _].
        apply lookup_lt_Some in Ha. unfold bo in *. lia. }
      subst s2. rewrite foldl_paintMesh_objects_ne by (intros Hin; by apply Hao, Hsub).
      rewrite Hout1 by done. rewrite Hobj0. by apply lookup_app_l_Some.
    + intros x m Hx. rewrite Hframe2.
      * apply Hmat1. rewrite Hmat0. by apply lookup_app_l_Some.
      * intros a Ha Hxa. apply (Hfresh1 a x Ha) in Hxa.
        apply lookup_lt_Some in Hx. rewrite Hmat0, length_app in Hxa. lia.
  - change (store (applySelectionToMeshes v2)) with s2.
    intros y Hy. rewrite Hg2, Hg1. by apply Hg0.
  - change (store (applySelectionToMeshes v2)) with s2.
    intros y Hy. rewrite Hd2, Hd1. by apply Hd0.
  - intros a Ha. rewrite Hml2 in Ha. apply Hsub in Ha.
    apply list_elem_of_lookup in Ha as [i Hi]. apply lookup_seq in Hi as [-> _]. lia.
Qed.

(** The model of a stale token is disposed and nothing else happens. *)
Lemma loadModel_stale_spec token asset v :
  token ≠ loadToken v → meshesOk (store v) (meshList v) →
  let v' := loadModel_resume token asset v in
  sharedState v' = sharedState v
  ∧ storePreserved (store v) (store v')
  ∧ (∀ y, y ∈ Store.disposedGeometries (store v) → y ∈ Store.disposedGeometries (store v'))
  ∧ (∀ y, y ∈ Store.disposedMaterials (store v) → y ∈ Store.disposedMaterials (store v'))
  ∧ modelDisposed asset v'.
Proof.
  intros Hne Hok v'. subst v'. rewrite loadModel_resume_stale by done.
  set (bo := length (Store.objects (store v))).
  set (bm := length (Store.materials (store v))).
  destruct (allocAsset_heap asset (store v)) as (Ho & Hm & Hobj & Hg & Hd).
  fold bo bm in Ho, Hobj. rewrite Hobj.
  set (obj := seq bo (length (Asset.nodes asset))).
  set (s1 := (allocAsset asset (store v)).1) in *.
  destruct (disposeObject_heap (Some obj) s1) as [Ho' Hm'].
  destruct (disposeObject_logs obj s1) as (Hg' & Hd' & Hin').
  cbn [store set_store].
  split; [done|]. split; [|split; [|split]].
  - split.
    + intros a o Ha. rewrite Ho', Ho. by apply lookup_app_l_Some.
    + intros x m Hx. rewrite Hm', Hm. by apply lookup_app_l_Some.
  - intros y Hy. apply Hg'. by rewrite Hg.
  - intros y Hy. apply Hd'. by rewrite Hd.
  - exists bo, bm. cbn [store meshList set_store]. split.
    + intros j node Hj.
      assert (Store.objects s1 !! (bo + j) = Some (instantiate bm node)) as H1.
      { rewrite Ho, lookup_app_r by (unfold bo; lia).
        replace (bo + j - _) with j by (unfold bo; lia). by rewrite list_lookup_fmap, Hj. }
      assert (bo + j ∈ obj) as Hjobj.
      { apply list_elem_of_lookup. exists j. apply lookup_seq. split; [done|].
        by eapply lookup_lt_Some. }
      split; [by rewrite Ho'|]. split; [|split].
      * intros Hin. destruct (ms_mesh _ _ Hok _ Hin) as (? & ? & [(mesh & Hmesh & _) _ _ _]).
        apply lookup_lt_Some in Hmesh. unfold bo in *. lia.
      * intros Hmesh Hgeo. by apply (Hin' _ _ Hjobj H1).
      * intros Hmesh k Hk Hlt. apply (Hin' _ _ Hjobj H1 Hmesh).
        -- simpl. destruct (Asset.material node) as [r|rs]; simpl in *.
           ++ apply list_elem_of_singleton in Hk. subst r. simpl.
              by apply list_elem_of_singleton.
           ++ apply (list_elem_of_fmap_2 (shiftRef bm)) in Hk. done.
        -- rewrite Hm. apply lookup_lt_is_Some. rewrite length_app. unfold bm. lia.
    + intros k m Hk. rewrite Hm', Hm, lookup_app_r by (unfold bm; lia).
      by replace (bm + k - _) with k by (unfold bm; lia).
Qed.

(** ** Two overlapping calls of [loadSystem] *)

Lemma modelActive_preserved asset v v' :
  modelRoot v' = modelRoot v → scene v' = scene v → meshList v' = meshList v →
  meshByKey v' = meshByKey v → storePreserved (store v) (store v') →
  modelActive asset v → modelActive asset v'.
Proof.
  intros Hroot Hscene Hml Hmk [Hobj Hmat] (bo & Hr & Hs & Hl & Hnodes & Hkeys & Hvalid).
  assert (∀ j node, Asset.nodes asset !! j = Some node →
            Store.objects (store v') !! (bo + j) = Store.objects (store v) !! (bo + j)) as Hsame.
  { intros j node Hj. destruct (Hnodes j node Hj) as (o & Ho & _). rewrite Ho. by apply Hobj. }
  assert (∀ a, a ∈ seq bo (length (Asset.nodes asset)) →
            Store.objects (store v') !! a = Store.objects (store v) !! a) as Hsame'.
  { intros a (j & Hj)%list_elem_of_lookup. apply lookup_seq in Hj as [-> Hj].
    destruct (lookup_lt_is_Some_2 _ _ Hj) as [node Hnode]. by eapply Hsame. }
  assert (∀ a, a ∈ meshList v → Store.objects (store v') !! a = Store.objects (store v) !! a)
    as Hsame''.
  { intros a Ha. apply Hsame'. rewrite Hl in Ha. apply list_elem_of_In, filter_In in Ha as [Ha _].
    by apply list_elem_of_In. }
  exists bo. rewrite Hroot, Hscene, Hml, Hmk. split; [done|]. split; [done|].
  split; [|split; [|split]].
  - rewrite Hl. apply filter_ext_in. intros a Ha%list_elem_of_In.
    unfold isMeshAt. by rewrite Hsame'.
  - intros j node Hj. rewrite (Hsame j node Hj). by apply Hnodes.
  - intros k. rewrite Hkeys. apply filter_ext_in. intros a Ha%list_elem_of_In.
    unfold partKeyOf. by rewrite Hsame''.
  - intros a Ha x. rewrite (matsAt_transfer (store v)) by (by apply Hsame'').
    intros Hx. destruct (Hvalid a Ha x Hx) as [m Hm]. exists m. by apply Hmat.
Qed.

Lemma modelDisposed_preserved asset v v' :
  (∀ a, a ∈ meshList v' → a ∈ meshList v ∨ length (Store.objects (store v)) ≤ a) →
  storePreserved (store v) (store v') →
  (∀ y, y ∈ Store.disposedGeometries (store v) → y ∈ Store.disposedGeometries (store v')) →
  (∀ y, y ∈ Store.disposedMaterials (store v) → y ∈ Store.disposedMaterials (store v')) →
  modelDisposed asset v → modelDisposed asset v'.
Proof.
  intros Hml [Hobj Hmat] Hg Hd (bo & bm & Hnodes & Hmats).
  exists bo, bm. split; [|by eauto].
  intros j node Hj. destruct (Hnodes j node Hj) as (Ho & Hnot & Hgeo & Hm).
  split; [by apply Hobj|]. split; [|split; by eauto].
  intros [Hin|Hge]%Hml; [done|]. apply lookup_lt_Some in Ho. lia.
Qed.

Lemma Overlap_set_dom n k1 k2 T json2 asset2 loaded1 p1 p2 d v :
  Overlap n k1 k2 T json2 asset2 loaded1 p1 p2 v →
  Overlap n k1 k2 T json2 asset2 loaded1 p1 p2 (set_dom d v).
Proof.
  intros [Hinv Htok Ht1 Ht2 Hsel Hact Hgr Hmod Hstale]. split; try done.
  by destruct Hinv.
Qed.

Section Overlap.
Variable localeCompare : string → string → Z.

Lemma setPhase_tasks i p v t :
  tasks v !! i = Some t → tasks (setPhase i p v) = <[i := Task.set_phase p t]> (tasks v).
Proof. intros Ht. unfold setPhase. by rewrite Ht. Qed.

Lemma setPhase_fields i p v :
  store (setPhase i p v) = store v ∧ dom (setPhase i p v) = dom v
  ∧ sharedState (setPhase i p v) = sharedState v
  ∧ activeSystem (setPhase i p v) = activeSystem v
  ∧ loadToken (setPhase i p v) = loadToken v
  ∧ requests (setPhase i p v) = requests v.
Proof. unfold setPhase. by destruct (tasks v !! i). Qed.

Lemma onFetchSettled_fields i t r v sys :
  tasks v !! i = Some t → SYSTEMS (Task.systemKey t) = Own sys →
  let v' := onFetchSettled localeCompare i t r v in
  store v' = store v
  ∧ meshList v' = meshList v ∧ meshByKey v' = meshByKey v ∧ scene v' = scene v
  ∧ modelRoot v' = modelRoot v ∧ selectedGroupKeys v' = selectedGroupKeys v
  ∧ activeSystem v' = activeSystem v ∧ loadToken v' = loadToken v
  ∧ tasks v' = <[i := Task.set_phase (match r with Some _ => AwaitModel | None => Rejected end) t]> (tasks v)
  ∧ groupByKey v'
    = match r with
      | Some groupsJson =>
          if (Task.token t =? loadToken v)%Z then buildGroupIndex groupsJson else groupByKey v
      | None => groupByKey v
      end.
Proof.
  intros Ht Hsys. unfold onFetchSettled. destruct r as [groupsJson|].
  - unfold loadModel_call. rewrite Hsys. unfold loadGroups_resume.
    destruct (Task.token t =? loadToken v)%Z; simpl negb; cbv iota.
    + unfold setPhase. cbn [tasks set_requests setLoading set_dom renderChips applyFilter
        updateChipSelectionUI set_groupByKey]. rewrite Ht. done.
    + unfold setPhase. cbn [tasks set_requests setLoading set_dom]. rewrite Ht. done.
  - unfold setPhase. rewrite Ht. done.
Qed.

Lemma onModelSettled_tasks i t r v :
  tasks v !! i = Some t →
  tasks (onModelSettled i t r v)
  = <[i := Task.set_phase (match r with Some _ => Fulfilled | None => Rejected end) t]> (tasks v).
Proof.
  intros Ht. unfold onModelSettled. destruct r as [asset|].
  - destruct (loadModel_resume_fields (Task.token t) asset v) as (_ & _ & _ & _ & Htasks & _).
    rewrite (setPhase_tasks _ _ _ t) by (by rewrite Htasks). by rewrite Htasks.
  - unfold setStatus. cbn [tasks set_dom]. by apply setPhase_tasks.
Qed.

(** A completion of the superseded task: the shared state and everything
    in the store stay as they are. *)
Lemma overlap_fetch1 n k1 k2 T json2 asset2 loaded1 p2 v sys1 r :
  Overlap n k1 k2 T json2 asset2 loaded1 AwaitGroups p2 v → SYSTEMS k1 = Own sys1 →
  ∃ v', step localeCompare v (FetchSettled n r) = Some v'
    ∧ Overlap n k1 k2 T json2 asset2 loaded1 (match r with Some _ => AwaitModel | None => Rejected end) p2 v'
    ∧ sharedState v' = sharedState v ∧ storePreserved (store v) (store v').
Proof.
  intros [Hinv Htok Ht1 Ht2 Hsel Hact Hgr Hmod Hstale] Hsys.
  assert (Inv (onFetchSettled localeCompare n (Task.mk k1 (T + 1) AwaitGroups) r v)) as Hinv'.
  { eapply (Inv_step localeCompare v (FetchSettled n r)); [done|]. simpl. by rewrite Ht1. }
  eexists. split; [simpl; by rewrite Ht1|].
  destruct (onFetchSettled_fields n _ r v sys1 Ht1 Hsys)
    as (Hstore & Hml & Hmk & Hsc & Hroot & Hsel' & Hact' & Htok' & Htasks & Hgroups).
  assert (groupByKey (onFetchSettled localeCompare n (Task.mk k1 (T + 1) AwaitGroups) r v)
          = groupByKey v) as Hgroups'.
  { rewrite Hgroups. destruct r; [|done]. simpl.
    rewrite Htok. by rewrite (proj2 (Z.eqb_neq _ _)) by lia. }
  split; [|split].
  - split; [done|congruence| | |congruence|congruence| | |].
    + rewrite Htasks. rewrite list_lookup_insert_eq by (by eapply lookup_lt_Some). done.
    + rewrite Htasks. rewrite list_lookup_insert_ne by lia. done.
    + intros Hp. rewrite Hgroups'. by apply Hgr.
    + intros Hp. apply (modelActive_preserved asset2 v); [done..| |by apply Hmod].
      rewrite Hstore. by split.
    + destruct r; done.
  - unfold sharedState. congruence.
  - rewrite Hstore. by split.
Qed.

Lemma overlap_model1 n k1 k2 T json2 asset2 loaded1 p2 v :
  Overlap n k1 k2 T json2 asset2 loaded1 AwaitModel p2 v →
  ∃ v', step localeCompare v (ModelSettled n loaded1) = Some v'
    ∧ Overlap n k1 k2 T json2 asset2 loaded1 (match loaded1 with Some _ => Fulfilled | None => Rejected end) p2 v'
    ∧ sharedState v' = sharedState v ∧ storePreserved (store v) (store v').
Proof.
  intros [Hinv Htok Ht1 Ht2 Hsel Hact Hgr Hmod Hstale].
  assert (Inv (onModelSettled n (Task.mk k1 (T + 1) AwaitModel) loaded1 v)) as Hinv'.
  { eapply (Inv_step localeCompare v (ModelSettled n loaded1)); [done|]. simpl. by rewrite Ht1. }
  eexists. split; [simpl; by rewrite Ht1|].
  pose proof (onModelSettled_tasks n _ loaded1 v Ht1) as Htasks.
  revert Hinv' Htasks. unfold onModelSettled. destruct loaded1 as [asset1|]; intros Hinv' Htasks.
  - assert ((T + 1)%Z ≠ loadToken v) as Hne by lia.
    destruct (loadModel_stale_spec (T + 1) asset1 v Hne (inv_meshes _ Hinv))
      as (Hshared & Hpres & Hg & Hd & Hdisp).
    destruct (loadModel_resume_fields (T + 1) asset1 v) as (Hsel' & Hgr' & Hact' & Htok' & _).
    simpl Task.token in *.
    set (w := loadModel_resume (T + 1) asset1 v) in *.
    destruct (setPhase_fields n Fulfilled w) as (Hstore & _ & Hshared' & Hact'' & Htok'' & _).
    injection Hshared as Hs1 Hs2 Hs3 Hs4 Hs5 Hs6.
    injection Hshared' as Hp1 Hp2 Hp3 Hp4 Hp5 Hp6.
    split; [|split].
    + split; [done|congruence| | |congruence|congruence| | |].
      * rewrite Htasks. rewrite list_lookup_insert_eq by (by eapply lookup_lt_Some). done.
      * rewrite Htasks. rewrite list_lookup_insert_ne by lia. done.
      * intros Hp. rewrite Hp1, Hs1. by apply Hgr.
      * intros Hp. apply (modelActive_preserved asset2 v); [congruence..| |by apply Hmod].
        by rewrite Hstore.
      * intros _ asset [= <-]. destruct Hdisp as (bo & bm & Hdisp). exists bo, bm.
        by rewrite Hstore, Hp2, Hs2 in *.
    + unfold sharedState. congruence.
    + by rewrite Hstore.
  - destruct (setPhase_fields n Rejected v) as (Hstore & _ & Hshared' & Hact'' & Htok'' & _).
    assert (Inv (setPhase n Rejected v)) as Hinv''.
    { unfold setPhase. by destruct (tasks v !! n), Hinv. }
    injection Hshared' as Hp1 Hp2 Hp3 Hp4 Hp5 Hp6.
    split; [|split].
    + apply Overlap_set_dom.
      split; [done|congruence| | |congruence|congruence| | |done].
      * rewrite (setPhase_tasks _ _ _ _ Ht1).
        rewrite list_lookup_insert_eq by (by eapply lookup_lt_Some). done.
      * rewrite (setPhase_tasks _ _ _ _ Ht1). rewrite list_lookup_insert_ne by lia. done.
      * intros Hp. rewrite Hp1. by apply Hgr.
      * intros Hp. apply (modelActive_preserved asset2 v); [done..| |by apply Hmod].
        rewrite Hstore. by split.
    + change (sharedState (setPhase n Rejected v) = sharedState v).
      unfold sharedState. congruence.
    + change (storePreserved (store v) (store (setPhase n Rejected v))).
      rewrite Hstore. by split.
Qed.

(** The completions of the current task. *)
Lemma overlap_fetch2 n k1 k2 T json2 asset2 loaded1 p1 v sys2 :
  Overlap n k1 k2 T json2 asset2 loaded1 p1 AwaitGroups v → SYSTEMS k2 = Own sys2 →
  ∃ v', step localeCompare v (FetchSettled (S n) (Some json2)) = Some v'
    ∧ Overlap n k1 k2 T json2 asset2 loaded1 p1 AwaitModel v'.
Proof.
  intros [Hinv Htok Ht1 Ht2 Hsel Hact Hgr Hmod Hstale] Hsys.
  assert (Inv (onFetchSettled localeCompare (S n) (Task.mk k2 (T + 2) AwaitGroups) (Some json2) v))
    as Hinv'.
  { eapply (Inv_step localeCompare v (FetchSettled (S n) (Some json2))); [done|].
    simpl. by rewrite Ht2. }
  destruct (onFetchSettled_fields (S n) _ (Some json2) v sys2 Ht2 Hsys)
    as (Hstore & Hml & Hmk & Hsc & Hroot & Hsel' & Hact' & Htok' & Htasks & Hgroups).
  cbn [Task.token] in Hgroups. rewrite Htok, Z.eqb_refl in Hgroups.
  set (v' := onFetchSettled _ _ _ _ v) in *.
  exists v'. split; [simpl; by rewrite Ht2|].
  split; [done|congruence| | |congruence|congruence|done|done|].
  - rewrite Htasks. rewrite list_lookup_insert_ne by lia. done.
  - rewrite Htasks. rewrite list_lookup_insert_eq by (by eapply lookup_lt_Some). done.
  - intros Hp asset1 Hl. destruct (Hstale Hp asset1 Hl) as (bo & bm & Hdisp).
    exists bo, bm. by rewrite Hstore, Hml.
Qed.

Lemma overlap_model2 n k1 k2 T json2 asset2 loaded1 p1 v :
  Overlap n k1 k2 T json2 asset2 loaded1 p1 AwaitModel v →
  ∃ v', step localeCompare v (ModelSettled (S n) (Some asset2)) = Some v'
    ∧ Overlap n k1 k2 T json2 asset2 loaded1 p1 Fulfilled v'.
Proof.
  intros [Hinv Htok Ht1 Ht2 Hsel Hact Hgr Hmod Hstale].
  assert (Inv (onModelSettled (S n) (Task.mk k2 (T + 2) AwaitModel) (Some asset2) v))
    as Hinv'.
  { eapply (Inv_step localeCompare v (ModelSettled (S n) (Some asset2))); [done|].
    simpl. by rewrite Ht2. }
  eexists. split; [simpl; by rewrite Ht2|].
  pose proof (onModelSettled_tasks (S n) _ (Some asset2) v Ht2) as Htasks.
  revert Hinv' Htasks. unfold onModelSettled. simpl Task.token. rewrite <- Htok.
  intros Hinv' Htasks.
  destruct (loadModel_current_spec asset2 v) as (Hactive & Hpres & Hg & Hd & Hnew).
  destruct (loadModel_resume_fields (loadToken v) asset2 v) as (Hsel' & Hgr' & Hact' & Htok' & _).
  set (w := loadModel_resume (loadToken v) asset2 v) in *.
  destruct (setPhase_fields (S n) Fulfilled w) as (Hstore & _ & Hshared' & Hact'' & Htok'' & _).
  injection Hshared' as Hp1 Hp2 Hp3 Hp4 Hp5 Hp6.
  split; [done|congruence| | |congruence|congruence| | |].
  - rewrite Htasks. rewrite list_lookup_insert_ne by lia. done.
  - rewrite Htasks. rewrite list_lookup_insert_eq by (by eapply lookup_lt_Some). by rewrite Htok.
  - intros _. rewrite Hp1, Hgr'. by apply Hgr.
  - intros _. eapply modelActive_preserved; [done..| |exact Hactive].
    rewrite Hstore. by split.
  - intros Hp asset1 Hl. apply (modelDisposed_preserved asset1 v); [| | | |by eapply Hstale].
    + intros a Ha. right. apply Hnew. by rewrite <- Hp2.
    + by rewrite Hstore.
    + by rewrite Hstore.
    + by rewrite Hstore.
Qed.

End Overlap.

(** ** The two calls and the interleavings of their completions *)

Section Supersede.
Variable localeCompare : string → string → Z.

Lemma loadSystem_own k sys v :
  SYSTEMS k = Own sys →
  ∃ v', step localeCompare v (CallLoadSystem k) = Some v'
    ∧ loadToken v' = (loadToken v + 1)%Z
    ∧ tasks v' = tasks v ++ [Task.mk k (loadToken v + 1) AwaitGroups]
    ∧ selectedGroupKeys v' = ∅ ∧ activeSystem v' = k.
Proof.
  intros Hsys. cbn [step]. unfold loadSystem, loadGroups_call. rewrite Hsys.
  eexists. split; [done|]. done.
Qed.

Lemma two_calls_overlap v0 k1 k2 sys1 sys2 json2 asset2 loaded1 :
  Inv v0 → SYSTEMS k1 = Own sys1 → SYSTEMS k2 = Own sys2 →
  ∃ v2, run localeCompare v0 [CallLoadSystem k1; CallLoadSystem k2] = Some v2
    ∧ Overlap (length (tasks v0)) k1 k2 (loadToken v0) json2 asset2 loaded1
        AwaitGroups AwaitGroups v2.
Proof.
  intros Hinv Hs1 Hs2.
  destruct (loadSystem_own k1 sys1 v0 Hs1) as (v1 & Hstep1 & Htok1 & Htasks1 & _ & _).
  destruct (loadSystem_own k2 sys2 v1 Hs2) as (v2 & Hstep2 & Htok2 & Htasks2 & Hsel & Hact).
  exists v2. split.
  { cbn [run]. rewrite Hstep1. by rewrite Hstep2. }
  split; [|lia| | |done|done|done|done|done].
  - eapply Inv_step; [|exact Hstep2]. eapply Inv_step; [|exact Hstep1]. done.
  - rewrite Htasks2, Htasks1. rewrite lookup_app_l by (rewrite length_app; simpl; lia).
    by rewrite lookup_app_r, Nat.sub_diag by lia.
  - rewrite Htasks2. rewrite lookup_app_r by (rewrite Htasks1, length_app; simpl; lia).
    rewrite Htasks1, length_app. simpl length.
    replace (S (length (tasks v0)) - (length (tasks v0) + 1)) with 0 by lia.
    replace (loadToken v1 + 1)%Z with (loadToken v0 + 2)%Z by lia. done.
Qed.

Lemma overlap_settles n k1 k2 sys1 sys2 T fetched1 loaded1 json2 asset2 l1 l2 σ :
  SYSTEMS k1 = Own sys1 → SYSTEMS k2 = Own sys2 →
  Merge l1 l2 σ →
  ∀ p1 p2 v,
    l1 = pending1 n fetched1 loaded1 p1 → l2 = pending2 n json2 asset2 p2 →
    Overlap n k1 k2 T json2 asset2 loaded1 p1 p2 v →
    ∃ v', run localeCompare v σ = Some v'
      ∧ Overlap n k1 k2 T json2 asset2 loaded1 (settled1 fetched1 loaded1 p1) (settled2 p2) v'
      ∧ leavesShared localeCompare n v σ.
Proof.
  intros Hs1 Hs2. induction 1 as [|x l1 l2 l HM IH|x l1 l2 l HM IH]; intros p1 p2 v E1 E2 Hov.
  - exists v. destruct p1, p2; try discriminate E2; try done.
    all: by destruct fetched1.
  - destruct p1; try discriminate E1.
    + destruct (overlap_fetch1 localeCompare n k1 k2 T json2 asset2 loaded1 p2 v sys1 fetched1
                  Hov Hs1) as (v' & Hstep & Hov' & Hsh & Hst).
      assert (x = FetchSettled n fetched1 ∧
              l1 = pending1 n fetched1 loaded1
                     (match fetched1 with Some _ => AwaitModel | None => Rejected end))
        as [-> El1].
      { cbn [pending1] in E1. unfold completions in E1. destruct fetched1; by injection E1. }
      destruct (IH _ _ v' El1 E2 Hov') as (v'' & Hrun & Hov'' & Hleaves).
      exists v''. cbn [run leavesShared]. rewrite Hstep. split; [done|].
      split; [|done]. by destruct fetched1, loaded1.
    + destruct (overlap_model1 localeCompare n k1 k2 T json2 asset2 loaded1 p2 v Hov)
        as (v' & Hstep & Hov' & Hsh & Hst).
      cbn [pending1] in E1. injection E1 as -> ->.
      assert ([] = pending1 n fetched1 loaded1
                     (match loaded1 with Some _ => Fulfilled | None => Rejected end)) as El1.
      { by destruct loaded1. }
      destruct (IH _ _ v' El1 E2 Hov') as (v'' & Hrun & Hov'' & Hleaves).
      exists v''. cbn [run leavesShared]. rewrite Hstep. split; [done|].
      split; [|done]. by destruct loaded1.
  - assert (isCompletionOf n x = false → ∀ v' rest,
              step localeCompare v x = Some v' → leavesShared localeCompare n v' rest →
              leavesShared localeCompare n v (x :: rest)) as Hother.
    { intros Hx v' rest Hstep Hl. cbn [leavesShared]. rewrite Hstep. split; [|done].
      by rewrite Hx. }
    destruct p2; try discriminate E2.
    + destruct (overlap_fetch2 localeCompare n k1 k2 T json2 asset2 loaded1 p1 v sys2 Hov Hs2)
        as (v' & Hstep & Hov').
      cbn [pending2 completions] in E2. injection E2 as -> ->.
      destruct (IH p1 AwaitModel v' E1 eq_refl Hov') as (v'' & Hrun & Hov'' & Hleaves).
      exists v''. cbn [run]. rewrite Hstep. split; [done|]. split; [done|].
      eapply Hother; [|done..]. cbn. apply bool_decide_eq_false. lia.
    + destruct (overlap_model2 localeCompare n k1 k2 T json2 asset2 loaded1 p1 v Hov)
        as (v' & Hstep & Hov').
      cbn [pending2] in E2. injection E2 as -> ->.
      destruct (IH p1 Fulfilled v' E1 eq_refl Hov') as (v'' & Hrun & Hov'' & Hleaves).
      exists v''. cbn [run]. rewrite Hstep. split; [done|]. split; [done|].
      eapply Hother; [|done..]. cbn. apply bool_decide_eq_false. lia.
Qed.

End Supersede.

Section Cancellation.
Variable localeCompare : string → string → Z.

(** C1: [loadSystem] is called for one system and at once for a second
    one, both known, from any state the viewer can be in; the requests of
    the second call succeed, those of the first succeed or fail.  Then,
    however the completions of the two calls interleave, the run goes
    through and at its end the second model is the active one (the mesh
    list and the key map hold its meshes and no others), the group index is
    the one built from the second call's metadata, no completion of the
    first call has changed the group index, the mesh index, the selection,
    the scene or any object or material in the store, and a model the first
    call had loaded has had [dispose] called on its geometries and
    materials. *)
Theorem loadSystem_superseded v0 k1 k2 sys1 sys2 fetched1 loaded1 groupsJson2 asset2 σ :
  reachable localeCompare v0 →
  SYSTEMS k1 = Own sys1 → SYSTEMS k2 = Own sys2 →
  Merge (completions (length (tasks v0)) fetched1 loaded1)
        (completions (S (length (tasks v0))) (Some groupsJson2) (Some asset2)) σ →
  ∃ v2 v',
    run localeCompare v0 [CallLoadSystem k1; CallLoadSystem k2] = Some v2
    ∧ run localeCompare v2 σ = Some v'
    ∧ modelActive asset2 v'
    ∧ groupByKey v' = buildGroupIndex groupsJson2
    ∧ selectedGroupKeys v' = ∅
    ∧ leavesShared localeCompare (length (tasks v0)) v2 σ
    ∧ (∀ groupsJson1 asset1, fetched1 = Some groupsJson1 → loaded1 = Some asset1 →
         modelDisposed asset1 v').
Proof.
  intros Hreach Hs1 Hs2 HM.
  pose proof (reachable_Inv localeCompare v0 Hreach) as Hinv.
  destruct (two_calls_overlap localeCompare v0 k1 k2 sys1 sys2 groupsJson2 asset2 loaded1
              Hinv Hs1 Hs2) as (v2 & Hrun2 & Hov).
  destruct (overlap_settles localeCompare _ k1 k2 sys1 sys2 _ fetched1 loaded1 groupsJson2
              asset2 _ _ σ Hs1 Hs2 HM AwaitGroups AwaitGroups v2 eq_refl eq_refl Hov)
    as (v' & Hrun & [_ _ _ _ Hsel _ Hgr Hmod Hstale] & Hleaves).
  exists v2, v'. split; [done|]. split; [done|]. split; [by apply Hmod|].
  split; [by apply Hgr|]. split; [done|]. split; [done|].
  intros groupsJson1 asset1 -> ->. by apply Hstale.
Qed.

End Cancellation.

Lemma loadSystem_superseded_witness :
  reachable codeUnitCompare initial
  ∧ Merge (completions 0 (Some bonesJson) (Some bonesAsset))
          (completions 1 (Some quadricepsJson) (Some sharedMaterialAsset)) staleModelLast
  ∧ ∃ v2 v',
      run codeUnitCompare initial bonesThenMuscles = Some v2
      ∧ run codeUnitCompare v2 staleModelLast = Some v'
      ∧ modelActive sharedMaterialAsset v'
      ∧ groupByKey v' = buildGroupIndex quadricepsJson
      ∧ selectedGroupKeys v' = ∅
      ∧ leavesShared codeUnitCompare 0 v2 staleModelLast
      ∧ (∀ groupsJson1 asset1, Some bonesJson = Some groupsJson1 → Some bonesAsset = Some asset1 →
           modelDisposed asset1 v').
Proof.
  assert (reachable codeUnitCompare initial) as Hreach by (by exists []).
  assert (Merge (completions 0 (Some bonesJson) (Some bonesAsset))
                (completions 1 (Some quadricepsJson) (Some sharedMaterialAsset)) staleModelLast)
    as HM by (apply merge_left, merge_right, merge_right, merge_left, merge_nil).
  split; [exact Hreach|]. split; [exact HM|].
  exact (loadSystem_superseded codeUnitCompare initial "bones" "muscles" _ _
           (Some bonesJson) (Some bonesAsset) quadricepsJson sharedMaterialAsset staleModelLast
           Hreach eq_refl eq_refl HM).
Defined.

(** The same run, evaluated: the meshes of the muscles are the mesh list,
    those of the bones (objects 5 and 6, sharing material 5) are not in it and have
    been disposed. *)
Example bones_then_muscles :
  meshList afterOverlap = [1; 2; 3]
  ∧ modelRoot afterOverlap = Some [0; 1; 2; 3]
  ∧ scene afterOverlap = [[0; 1; 2; 3]]
  ∧ (Object3D.name <$> Store.objects (store afterOverlap))
    = ["Armature"; "VastusLateralis.l"; "VastusLateralis.r"; "RectusFemorisModel";
       "Skeleton"; "Femur.l"; "Tibia.l"]
  ∧ Store.disposedGeometries (store afterOverlap) = [5; 6]
  ∧ Store.disposedMaterials (store afterOverlap) = [5; 5]
  ∧ activeSystem afterOverlap = "muscles".
Proof. vm_compute. repeat split; reflexivity. Qed.

(** ** [loadSystem] with a key that is not in the catalog *)

Section UnknownSystem.
Variable localeCompare : string → string → Z.

(** A key that is found neither in [SYSTEMS] nor in [Object.prototype]:
    the call throws at its first line and the viewer is as it was. *)
Lemma loadSystem_undefined key v :
  SYSTEMS key = Undefined →
  loadSystem key v = (v, Some (UnknownSystem key)).
Proof. intros Hsys. unfold loadSystem. by rewrite Hsys. Qed.

Lemma step_loadSystem_undefined key v :
  SYSTEMS key = Undefined →
  ∃ v', step localeCompare v (CallLoadSystem key) = Some v'
    ∧ activeSystem v' = activeSystem v ∧ selectedGroupKeys v' = selectedGroupKeys v
    ∧ loadToken v' = loadToken v ∧ groupByKey v' = groupByKey v
    ∧ meshList v' = meshList v ∧ meshByKey v' = meshByKey v
    ∧ requests v' = requests v ∧ tasks v' = tasks v
    ∧ Dom.status (dom v') = TextError (UnknownSystem key).
Proof.
  intros Hsys. cbn [step]. rewrite (loadSystem_undefined _ _ Hsys). by eexists.
Qed.

(** C7, at ["constructor"]: the key is not in the catalog, yet
    [SYSTEMS['constructor']] is the function [Object] inherited from the
    prototype, which the guard takes for a system.  The call does not throw:
    it makes the key the active system, empties the selection, increments
    the load token and issues [fetch(undefined)]. *)
Theorem loadSystem_inherited_key v :
  mapGet "constructor" SYSTEMS_own = None
  ∧ ∃ v', loadSystem "constructor" v = (v', None)
      ∧ activeSystem v' = "constructor"
      ∧ selectedGroupKeys v' = ∅
      ∧ loadToken v' = (loadToken v + 1)%Z
      ∧ requests v' = requests v ++ [Fetch None]
      ∧ tasks v' = tasks v ++ [Task.mk "constructor" (loadToken v + 1) AwaitGroups]
      ∧ Dom.status (dom v') = TextSwitching None.
Proof. split; [reflexivity|]. by eexists. Qed.

End UnknownSystem.

(** With the quadriceps selected in the muscles: the failed switch is
    supposed to leave all of this as it is. *)
Example constructor_after_selection :
  let v' := (loadSystem "constructor" quadricepsSelected).1 in
  (activeSystem quadricepsSelected, activeSystem v') = ("muscles", "constructor")
  ∧ (elements (selectedGroupKeys quadricepsSelected), elements (selectedGroupKeys v'))
    = (["quadriceps"], [])
  ∧ (loadToken quadricepsSelected, loadToken v') = (1, 2)%Z
  ∧ (length (requests quadricepsSelected), length (requests v')) = (2, 3)
  ∧ SYSTEMS "constructor" = Inherited
  ∧ SYSTEMS "skin" = Undefined.
Proof. vm_compute. repeat split; reflexivity. Qed.

(** ** The chips and the filter *)

Lemma includes_empty s : includes s "" = true.
Proof. unfold includes. simpl. by destruct (list_ascii_of_string s). Qed.

Lemma isEmpty_empty q : isEmpty q = true → q = "".
Proof. by destruct q. Qed.

Lemma filterChip_hidden q c :
  Chip.hidden (filterChip q c) = negb (includes (Chip.search c) q).
Proof.
  unfold filterChip. destruct (isEmpty q) eqn:Hq; [|done].
  apply isEmpty_empty in Hq as ->. by rewrite includes_empty.
Qed.

Lemma filterChip_data q c : chipData (filterChip q c) = chipData c.
Proof. unfold filterChip. by destruct (isEmpty q). Qed.

Lemma chipData_applyFilter text v :
  chipData <$> Dom.chips (dom (applyFilter text v)) = chipData <$> Dom.chips (dom v).
Proof.
  unfold applyFilter. cbn [dom set_dom Dom.chips Dom.set_chips].
  rewrite <- list_fmap_compose. apply list_fmap_ext. intros i c _. apply filterChip_data.
Qed.

Lemma chipData_updateChipSelectionUI v :
  chipData <$> Dom.chips (dom (updateChipSelectionUI v)) = chipData <$> Dom.chips (dom v).
Proof.
  unfold updateChipSelectionUI. cbn [dom set_dom Dom.chips Dom.set_chips].
  rewrite <- list_fmap_compose. by apply list_fmap_ext.
Qed.

Lemma chips_loadModel_resume token asset v :
  Dom.chips (dom (loadModel_resume token asset v)) = Dom.chips (dom v).
Proof.
  destruct (loadModel_resume_cases token asset v) as [[_ ->]|[_ ->]]; [done|].
  unfold applySelectionToMeshes, setStatus, setLoading.
  cbn [dom set_dom set_store Dom.chips Dom.set_status Dom.set_loadingText Dom.set_loadingShown].
  match goal with |- context [foldl registerMesh ?v0 ?o] =>
    destruct (foldl_registerMesh_fields v0 o) as (_ & _ & _ & _ & _ & _ & _ & _ & ->)
  end.
  done.
Qed.

Lemma chipsRendered_transfer localeCompare v v' :
  chipData <$> Dom.chips (dom v') = chipData <$> Dom.chips (dom v) →
  groupByKey v' = groupByKey v →
  chipsRendered localeCompare v → chipsRendered localeCompare v'.
Proof. unfold chipsRendered. by intros -> ->. Qed.

Section Chips.
Variable localeCompare : string → string → Z.

Lemma chipsRendered_renderChips v : chipsRendered localeCompare (renderChips localeCompare v).
Proof.
  unfold chipsRendered, renderChips. rewrite chipData_applyFilter.
  rewrite chipData_updateChipSelectionUI.
  cbn [dom set_dom Dom.chips Dom.set_chips groupByKey]. rewrite <- list_fmap_compose.
  done.
Qed.

Lemma chipsRendered_setPhase i p v :
  chipsRendered localeCompare v → chipsRendered localeCompare (setPhase i p v).
Proof. unfold setPhase. by destruct (tasks v !! i). Qed.

Lemma chipsRendered_toggleGroup k v :
  chipsRendered localeCompare v → chipsRendered localeCompare (toggleGroup k v).
Proof.
  unfold toggleGroup. destruct (isEmpty k); [done|].
  apply chipsRendered_transfer; [|done].
  change (Dom.chips (dom (applySelectionToMeshes ?w))) with (Dom.chips (dom w)).
  by rewrite chipData_updateChipSelectionUI.
Qed.

Lemma chipsRendered_step v e v' :
  chipsRendered localeCompare v → step localeCompare v e = Some v' →
  chipsRendered localeCompare v'.
Proof.
  intros Hc. destruct e as [k|i r|i r|k|hit| |text|]; cbn [step].
  - unfold loadSystem, loadGroups_call.
    destruct (SYSTEMS k) as [sys| |]; intros [= <-];
      (apply (chipsRendered_transfer _ v); [|done|done]);
      try (cbn [dom set_dom set_tasks set_requests setLoading setStatus set_loadToken
                set_selectedGroupKeys set_activeSystem Dom.chips Dom.set_status
                Dom.set_loadingText Dom.set_loadingShown];
           by rewrite chipData_updateChipSelectionUI); done.
  - destruct (tasks v !! i) as [t|]; [|done].
    destruct (Task.phase t); try done. intros [= <-].
    unfold onFetchSettled. destruct r as [groupsJson|].
    + assert (chipsRendered localeCompare
                (loadGroups_resume localeCompare (Task.token t) groupsJson v)) as Hc'.
      { unfold loadGroups_resume. destruct (negb _); [done|].
        eapply chipsRendered_transfer; [| |apply chipsRendered_renderChips]; done. }
      revert Hc'. generalize (loadGroups_resume localeCompare (Task.token t) groupsJson v).
      intros w Hw. unfold loadModel_call.
      destruct (SYSTEMS (Task.systemKey t)); unfold setPhase; simpl;
        by destruct (tasks w !! i).
    + unfold setPhase. by destruct (tasks v !! i).
  - destruct (tasks v !! i) as [t|]; [|done].
    destruct (Task.phase t); try done. intros [= <-].
    unfold onModelSettled. destruct r as [asset|].
    + apply chipsRendered_setPhase. apply (chipsRendered_transfer _ v); [| |done].
      * by rewrite chips_loadModel_resume.
      * apply loadModel_resume_fields.
    + unfold setPhase. by destruct (tasks v !! i).
  - intros [= <-]. by apply chipsRendered_toggleGroup.
  - intros [= <-]. unfold pick. destruct hit as [a|]; [|done].
    match goal with |- context [if isEmpty ?k then _ else _] => destruct (isEmpty k) end;
      [done|by apply chipsRendered_toggleGroup].
  - intros [= <-]. unfold clearSelection. apply (chipsRendered_transfer _ v); [|done|done].
    change (Dom.chips (dom (applySelectionToMeshes ?w))) with (Dom.chips (dom w)).
    by rewrite chipData_updateChipSelectionUI.
  - intros [= <-]. apply (chipsRendered_transfer _ v); [|done|done].
    by rewrite chipData_applyFilter.
  - intros [= <-]. apply (chipsRendered_transfer _ v); [|done|done].
    by rewrite chipData_applyFilter.
Qed.

Lemma reachable_chipsRendered v : reachable localeCompare v → chipsRendered localeCompare v.
Proof.
  intros [es Hrun]. revert Hrun.
  assert (chipsRendered localeCompare initial) as Hinit by done.
  revert Hinit. generalize initial. induction es as [|e es IH]; intros v0 Hc; simpl.
  - by intros [= <-].
  - destruct (step localeCompare v0 e) as [v1|] eqn:Hstep; [|done].
    apply IH. by eapply chipsRendered_step.
Qed.

(** The chips shown after [applyFilter(text)] are made of the chips as
    written by [renderChips]. *)
Lemma shownChips_applyFilter text v (gs : list Group.t) :
  chipData <$> Dom.chips (dom v)
  = (λ g, (Group.name g, Group.key g, slugify (Group.name g))) <$> gs →
  shownChips (applyFilter text v)
  = groupEntry <$>
      List.filter (λ g, includes (slugify (Group.name g)) (slugify text)) gs.
Proof.
  unfold shownChips, applyFilter. cbn [dom set_dom Dom.chips Dom.set_chips].
  generalize (Dom.chips (dom v)). intros cs. revert gs.
  induction cs as [|c cs IH]; intros [|g gs] Heq; try discriminate Heq; [done|].
  injection Heq as Hname Hkey Hsearch Hrest.
  cbn [fmap list_fmap List.filter]. rewrite filterChip_hidden, negb_involutive.
  rewrite Hsearch. specialize (IH gs Hrest).
  destruct (includes _ _); [|exact IH].
  rewrite !fmap_cons, IH. f_equal. unfold groupEntry, filterChip.
  destruct (isEmpty _); cbn; congruence.
Qed.

End Chips.

(** ** [Array.prototype.sort] *)

Section Sorting.
Context {A : Type} (cmp : A → A → Z).

Lemma insertBy_Permutation x l : insertBy cmp x l ≡ₚ x :: l.
Proof.
  induction l as [|y l IH]; [done|]. simpl.
  destruct (cmp x y <=? 0)%Z; [done|]. rewrite IH. apply Permutation_swap.
Qed.



(** Whatever order [R] the comparator decides, the sorted list is in that
    order. *)
Variable R : relation A.
Hypothesis R_trans : ∀ a b c, R a b → R b c → R a c.
Hypothesis cmp_le : ∀ a b, (cmp a b ≤ 0)%Z → R a b.
Hypothesis cmp_gt : ∀ a b, (0 < cmp a b)%Z → R b a.

Lemma insertBy_sorted x l : StronglySorted R l → StronglySorted R (insertBy cmp x l).
Proof using R_trans cmp_le cmp_gt.
  induction 1 as [|y l Hsorted IH Hall]; simpl; [by repeat constructor|].
  destruct (Z.leb_spec (cmp x y) 0) as [Hle|Hgt].
  - constructor; [by constructor|]. constructor; [by apply cmp_le|].
    eapply Forall_impl; [exact Hall|]. intros z Hz. apply (R_trans x y z); [|done].
    by apply cmp_le.
  - constructor; [done|]. rewrite insertBy_Permutation. constructor; [|done].
    by apply cmp_gt.
Qed.

Lemma jsSort_sorted l : StronglySorted R (jsSort cmp l).
Proof using R_trans cmp_le cmp_gt.
  induction l as [|x l IH]; [constructor|]. unfold jsSort in *. simpl.
  by apply insertBy_sorted.
Qed.

End Sorting.




(** Where [cmp] is a total preorder, names of one length are in its
    order. *)
Lemma jsSort_byLengthThen {A} (name : A → string) (cmp : string → string → Z) l :
  (∀ a b c, (cmp a b ≤ 0)%Z → (cmp b c ≤ 0)%Z → (cmp a c ≤ 0)%Z) →
  (∀ a b, (0 < cmp a b)%Z → (cmp b a ≤ 0)%Z) →
  StronglySorted (λ a b, (byLengthThen cmp (name a) (name b) ≤ 0)%Z)
    (jsSort (λ a b, byLengthThen cmp (name a) (name b)) l).
Proof.
  intros Htrans Htotal. apply jsSort_sorted.
  - intros a b c. unfold byLengthThen.
    repeat match goal with |- context [Z.eqb ?x ?y] => destruct (Z.eqb_spec x y) end;
      try lia. apply Htrans.
  - done.
  - intros a b. unfold byLengthThen.
    repeat match goal with |- context [Z.eqb ?x ?y] => destruct (Z.eqb_spec x y) end;
      try lia. apply Htotal.
Qed.

(** ** The search of the earlier page *)

Lemma filter_all {A} (l : list A) : List.filter (λ _, true) l = l.
Proof. induction l as [|x l IH]; [done|]. simpl. by rewrite IH. Qed.



(** ** The filter of the viewer against the specification *)

Lemma twoNames_reachable : reachable codeUnitCompare twoNames.
Proof.
  exists [CallLoadSystem "muscles"; FetchSettled 0 (Some twoNamesJson)].
  vm_compute. reflexivity.
Qed.


Section Filter.
Variables localeCompare legacyCompare : string → string → Z.


End Filter.


(** The order of the names, no cap, and the query normalized like the names
    in the viewer; the raw key, the lower-cased name and the cap of 140 in
    the earlier page. *)
Example filter_examples :
  shownChips (filterInput "" twoNames) = [("bb", "bb"); ("c", "c")]
  ∧ shownChips (filterInput "B" twoNames) = [("bb", "bb")]
  ∧ Legacy.renderChipsFromSearch codeUnitCompare "" twoNamesJson = [("c", "c"); ("bb", "bb")]
  ∧ length (shownChips (filterInput "" (manyGroups 150))) = 150
  ∧ length (Legacy.renderChipsFromSearch codeUnitCompare "" (manyJson 150)) = 140
  ∧ Legacy.renderChipsFromSearch codeUnitCompare "zzz" keyedJson
    = [("zzz", "Vastus Lateralis")]
  ∧ Legacy.renderChipsFromSearch codeUnitCompare "vastus-lat" keyedJson = []
  ∧ filterGroups_spec codeUnitCompare 140 (mapValues (buildGroupIndex keyedJson)) "zzz" = []
  ∧ filterGroups_spec codeUnitCompare 140 (mapValues (buildGroupIndex keyedJson)) "vastus-lat"
    = [("vastus_lateralis", "Vastus Lateralis")].
Proof. vm_compute. repeat split; reflexivity. Qed.

(** ** More on keys *)


Lemma sepOk_no_double b l :
  KeyShape.sepOk b l = true →
  Str.includesChars l ["_"; "_"]%char = false
  ∧ (b = true → head l ≠ Some "_"%char).
Proof.
  revert b. induction l as [|c r IH]; intros b H; [by split|].
  simpl in H. destruct (Str.isLowerAlnum c) eqn:Ha.
  - destruct (IH false H) as [IH1 _]. split.
    + cbn [Str.includesChars Str.startsWith]. rewrite IH1.
      replace (Str.code "_" =? Str.code c)%N with false; [done|].
      symmetry. apply N.eqb_neq. intros E.
      assert (Str.isUnderscore c = true) as Hu.
      { unfold Str.isUnderscore. rewrite <- E. done. }
      by rewrite (StrFacts.alnum_not_underscore c Ha) in Hu.
    + intros _ [= ->]. done.
  - apply andb_prop in H as [H1 H3]. apply andb_prop in H1 as [H1 H2].
    apply StrFacts.underscore_eq in H1 as ->. destruct b; [done|].
    destruct (IH true H3) as [IH1 IH2]. split; [|done].
    cbn [Str.includesChars Str.startsWith]. rewrite IH1.
    destruct r as [|c' r]; [done|]. cbn [Str.startsWith].
    replace (Str.code "_" =? Str.code c')%N with false; [done|].
    symmetry. apply N.eqb_neq. intros E. apply (IH2 eq_refl). simpl. f_equal.
    apply (f_equal ascii_of_N) in E. unfold Str.code in E.
    by rewrite !ascii_N_embedding in E.
Qed.

Lemma dropWhileEnd_last (p : ascii → bool) l c :
  Str.dropWhileEnd p l = l → last l = Some c → p c = false.
Proof.
  induction l as [|x l IH]; [done|]. simpl.
  destruct (Str.dropWhileEnd p l) as [|y r] eqn:E.
  - destruct (p x) eqn:Hp; [done|]. intros [= <-]. simpl. by intros [= <-].
  - intros [= Hl]. rewrite last_cons. destruct (last l) as [z|] eqn:Hz.
    + intros [= <-]. by apply IH.
    + apply last_None in Hz. by subst l.
Qed.

(** X1: every key [slugify] returns is made of lower-case ASCII letters,
    digits and the separator [_]; it neither starts nor ends with the
    separator and never has two separators in a row. *)
Theorem slugify_key_shape (s : string) :
  let key := list_ascii_of_string (slugify s) in
  (∀ c, c ∈ key → Str.isLowerAlnum c = true ∨ c = "_"%char)
  ∧ head key ≠ Some "_"%char
  ∧ last key ≠ Some "_"%char
  ∧ includes (slugify s) "__" = false.
Proof.
  intros key. subst key. unfold includes. rewrite slugify_chars.
  destruct (StrFacts.slugifyChars_isKey (list_ascii_of_string s)) as [Hsep Hlead Htrail].
  set (key := Str.slugifyChars (list_ascii_of_string s)) in *.
  split; [|split; [|split]].
  - intros c Hc. pose proof (StrFacts.sepOk_slugChars _ _ Hsep) as Hall.
    rewrite Forall_forall in Hall. specialize (Hall c Hc).
    unfold KeyShape.slugChar in Hall. apply orb_prop in Hall as [H|H]; [by left|].
    right. by apply StrFacts.underscore_eq.
  - destruct key as [|c r]; [done|]. simpl in *. intros [= ->]. done.
  - intros Hl. by pose proof (dropWhileEnd_last _ _ _ Htrail Hl).
  - by apply (sepOk_no_double false).
Qed.


(** ** Case *)

Module CaseFacts.
Import Str.

Ltac by_cases_on c :=
  destruct c as [[] [] [] [] [] [] [] []]; vm_compute; try reflexivity; try discriminate;
  try tauto.

Lemma lower_idem c : toLowerChar (toLowerChar c) = toLowerChar c.
Proof. by_cases_on c. Qed.

Lemma lower_white c : isWhiteSpace (toLowerChar c) = isWhiteSpace c.
Proof. by_cases_on c. Qed.

Lemma lower_nul c : (code (toLowerChar c) =? 0)%N = (code c =? 0)%N.
Proof. by_cases_on c. Qed.

Lemma lower_dot c : (code (toLowerChar c) =? 46)%N = (code c =? 46)%N.
Proof. by_cases_on c. Qed.

Lemma lower_terminator c : isLineTerminator (toLowerChar c) = isLineTerminator c.
Proof. by_cases_on c. Qed.

Lemma lower_side c : isSideLetter (toLowerChar c) = isSideLetter c.
Proof. by_cases_on c. Qed.

(** Under the [i] flag an ASCII character of a pattern matches a character
    and its lower case alike. *)
Lemma lower_eqCI a c : (code a <? 128)%N = true → eqCI a (toLowerChar c) = eqCI a c.
Proof.
  intros Ha. unfold eqCI.
  assert (foldCase (toLowerChar c) = foldCase c
          ∨ ((128 <=? code (foldCase (toLowerChar c)))%N = true
             ∧ (128 <=? code (foldCase c))%N = true)) as [->|[H1 H2]]; [by_cases_on c|done|].
  assert ((code (foldCase a) <? 128)%N = true) as Hf.
  { revert Ha. by_cases_on a. }
  apply N.ltb_lt in Hf. apply N.leb_le in H1, H2.
  rewrite (proj2 (N.eqb_neq _ _)) by lia. by rewrite (proj2 (N.eqb_neq _ _)) by lia.
Qed.

Lemma lower_dropWhile l :
  dropWhile isWhiteSpace (map toLowerChar l) = map toLowerChar (dropWhile isWhiteSpace l).
Proof.
  induction l as [|c l IH]; [done|]. simpl. rewrite lower_white.
  by destruct (isWhiteSpace c).
Qed.

Lemma lower_dropWhileEnd l :
  dropWhileEnd isWhiteSpace (map toLowerChar l)
  = map toLowerChar (dropWhileEnd isWhiteSpace l).
Proof.
  induction l as [|c l IH]; [done|]. simpl. rewrite IH, lower_white.
  destruct (dropWhileEnd isWhiteSpace l); simpl; [by destruct (isWhiteSpace c)|done].
Qed.

Lemma lower_trim l : trim (map toLowerChar l) = map toLowerChar (trim l).
Proof. unfold trim. by rewrite lower_dropWhile, lower_dropWhileEnd. Qed.

Lemma lower_removeNul l : removeNul (map toLowerChar l) = map toLowerChar (removeNul l).
Proof.
  induction l as [|c l IH]; [done|]. unfold removeNul in *. simpl.
  rewrite lower_nul, IH. by destruct (negb _).
Qed.

Lemma lower_startsWithCI p l :
  forallb (λ a, (code a <? 128)%N) p = true →
  startsWithCI p (map toLowerChar l) = startsWithCI p l.
Proof.
  revert l. induction p as [|a p IH]; intros l Hp; [by destruct l|].
  simpl in Hp. apply andb_prop in Hp as [Ha Hp].
  destruct l as [|c l]; [done|]. simpl. by rewrite lower_eqCI, IH.
Qed.

Lemma lower_endsWithCI p l :
  forallb (λ a, (code a <? 128)%N) p = true →
  endsWithCI p (map toLowerChar l) = endsWithCI p l.
Proof.
  intros Hp. unfold endsWithCI. rewrite <- map_rev. apply lower_startsWithCI.
  rewrite forallb_forall in *. intros a Ha. apply Hp. by apply in_rev.
Qed.

Lemma lower_stripExporterSuffix l :
  stripExporterSuffix (map toLowerChar l) = map toLowerChar (stripExporterSuffix l).
Proof.
  unfold stripExporterSuffix. rewrite !lower_endsWithCI by done. rewrite length_map.
  destruct (endsWithCI Model l); [by rewrite <- fmap_take|].
  destruct (endsWithCI Geometry l); [by rewrite <- fmap_take|done].
Qed.

Lemma lower_stripSideSuffix l :
  stripSideSuffix (map toLowerChar l) = map toLowerChar (stripSideSuffix l).
Proof.
  unfold stripSideSuffix. rewrite <- map_rev.
  destruct (rev l) as [|c [|dot m1]]; [done..|]. simpl map. cbv iota.
  rewrite lower_side, lower_dot.
  replace (forallb (λ x, negb (isLineTerminator x)) (map toLowerChar m1))
    with (forallb (λ x, negb (isLineTerminator x)) m1).
  - destruct (_ && _ && _); [|done]. by rewrite <- map_rev, lower_trim.
  - clear. induction m1 as [|x m1 IH]; [done|]. simpl. by rewrite lower_terminator, IH.
Qed.

Lemma lower_collapse b l :
  collapseRuns isWhiteSpace " " b (map toLowerChar l)
  = map toLowerChar (collapseRuns isWhiteSpace " " b l).
Proof.
  revert b. induction l as [|c l IH]; intros b; [done|]. simpl. rewrite lower_white.
  destruct (isWhiteSpace c); [destruct b|]; simpl; by rewrite IH.
Qed.

Lemma lower_normalizeLabelChars l :
  normalizeLabelChars (map toLowerChar l) = map toLowerChar (normalizeLabelChars l).
Proof.
  unfold normalizeLabelChars. rewrite lower_removeNul, lower_trim.
  rewrite lower_stripExporterSuffix, lower_trim, lower_stripSideSuffix, lower_collapse,
    lower_trim.
  by destruct (trim (removeNul l)).
Qed.

Lemma lower_slugifyChars l : slugifyChars (map toLowerChar l) = slugifyChars l.
Proof.
  unfold slugifyChars. rewrite lower_normalizeLabelChars. do 3 f_equal.
  rewrite map_map. apply map_ext. intros c. apply lower_idem.
Qed.

End CaseFacts.

(** X3: keys do not depend on case: a name and its lower-cased form have
    the same key. *)
Theorem slugify_toLowerCase (s : string) : slugify (toLowerCase s) = slugify s.
Proof.
  unfold slugify, toLowerCase. rewrite chars_of_string.
  by rewrite CaseFacts.lower_slugifyChars.
Qed.

(** ** The chips follow the selection *)

Lemma chipsInSync_update v : chipsInSync (updateChipSelectionUI v).
Proof.
  intros c. unfold updateChipSelectionUI. cbn [dom set_dom Dom.chips Dom.set_chips].
  intros (c0 & -> & _)%list_elem_of_fmap. done.
Qed.

Lemma chipsInSync_transfer v v' :
  chipMark <$> Dom.chips (dom v') = chipMark <$> Dom.chips (dom v) →
  selectedGroupKeys v' = selectedGroupKeys v →
  chipsInSync v → chipsInSync v'.
Proof.
  intros Hmarks Hsel Hv c Hc. rewrite Hsel.
  assert (chipMark c ∈ chipMark <$> Dom.chips (dom v)) as Hin.
  { rewrite <- Hmarks. by apply list_elem_of_fmap_2. }
  apply list_elem_of_fmap in Hin as (c0 & Heq & Hc0). injection Heq as -> ->.
  by apply Hv.
Qed.

Lemma chipMark_applyFilter text v :
  chipMark <$> Dom.chips (dom (applyFilter text v)) = chipMark <$> Dom.chips (dom v).
Proof.
  unfold applyFilter. cbn [dom set_dom Dom.chips Dom.set_chips].
  rewrite <- list_fmap_compose. apply list_fmap_ext. intros i c _.
  unfold filterChip. simpl. by destruct (isEmpty _).
Qed.

Lemma chipsInSync_applyFilter text v : chipsInSync v → chipsInSync (applyFilter text v).
Proof. apply chipsInSync_transfer; [apply chipMark_applyFilter|done]. Qed.

Lemma chipsInSync_applySelectionToMeshes v :
  chipsInSync v → chipsInSync (applySelectionToMeshes v).
Proof. by apply chipsInSync_transfer. Qed.

Lemma chipsInSync_toggleGroup k v : chipsInSync v → chipsInSync (toggleGroup k v).
Proof.
  intros Hv. unfold toggleGroup. destruct (isEmpty k); [done|].
  apply chipsInSync_applySelectionToMeshes, chipsInSync_update.
Qed.

Lemma chipsInSync_setPhase i p v : chipsInSync v → chipsInSync (setPhase i p v).
Proof. unfold setPhase. by destruct (tasks v !! i). Qed.

Section ChipsInSync.
Variable localeCompare : string → string → Z.

Lemma chipsInSync_step v e v' :
  chipsInSync v → step localeCompare v e = Some v' → chipsInSync v'.
Proof.
  intros Hc. destruct e as [k|i r|i r|k|hit| |text|]; cbn [step].
  - unfold loadSystem, loadGroups_call.
    destruct (SYSTEMS k) as [sys| |]; intros [= <-]; [| |done].
    + apply (chipsInSync_transfer
               (updateChipSelectionUI (set_selectedGroupKeys ∅ (set_activeSystem k v))));
        [done|done|apply chipsInSync_update].
    + apply (chipsInSync_transfer
               (updateChipSelectionUI (set_selectedGroupKeys ∅ (set_activeSystem k v))));
        [done|done|apply chipsInSync_update].
  - destruct (tasks v !! i) as [t|]; [|done].
    destruct (Task.phase t); try done. intros [= <-].
    unfold onFetchSettled. destruct r as [groupsJson|].
    + assert (chipsInSync (loadGroups_resume localeCompare (Task.token t) groupsJson v)) as Hc'.
      { unfold loadGroups_resume. destruct (negb _); [done|].
        unfold renderChips, setLoading.
        eapply chipsInSync_transfer; [| |apply chipsInSync_applyFilter, chipsInSync_update];
          done. }
      revert Hc'. generalize (loadGroups_resume localeCompare (Task.token t) groupsJson v).
      intros w Hw. unfold loadModel_call.
      destruct (SYSTEMS (Task.systemKey t)); unfold setPhase; simpl;
        by destruct (tasks w !! i).
    + unfold setPhase. by destruct (tasks v !! i).
  - destruct (tasks v !! i) as [t|]; [|done].
    destruct (Task.phase t); try done. intros [= <-].
    unfold onModelSettled. destruct r as [asset|].
    + apply chipsInSync_setPhase. apply (chipsInSync_transfer v); [| |done].
      * by rewrite chips_loadModel_resume.
      * apply loadModel_resume_fields.
    + unfold setPhase. by destruct (tasks v !! i).
  - intros [= <-]. by apply chipsInSync_toggleGroup.
  - intros [= <-]. unfold pick. destruct hit as [a|]; [|done].
    match goal with |- context [if isEmpty ?k then _ else _] => destruct (isEmpty k) end;
      [done|by apply chipsInSync_toggleGroup].
  - intros [= <-]. unfold clearSelection.
    apply chipsInSync_applySelectionToMeshes, chipsInSync_update.
  - intros [= <-]. by apply chipsInSync_applyFilter.
  - intros [= <-]. by apply chipsInSync_applyFilter.
Qed.

(** X4: in every state the viewer can be in, a chip carries the class
    [selected] exactly when the key of its group is in the selection: no
    operation changes the selection without updating the chips, and none
    renders chips without marking them. *)
Theorem chips_follow_selection v :
  reachable localeCompare v →
  ∀ c, c ∈ Dom.chips (dom v) →
       Chip.selected c = bool_decide (Chip.key c ∈ selectedGroupKeys v).
Proof.
  intros [es Hrun]. revert Hrun.
  assert (chipsInSync initial) as Hinit by (intros c Hc; inversion Hc).
  revert Hinit. generalize initial. induction es as [|e es IH]; intros v0 Hc; simpl.
  - by intros [= <-].
  - destruct (step localeCompare v0 e) as [v1|] eqn:Hstep; [|done].
    apply IH. by eapply chipsInSync_step.
Qed.

End ChipsInSync.

Lemma chips_follow_selection_witness :
  reachable codeUnitCompare quadricepsSelected
  ∧ ∀ c, c ∈ Dom.chips (dom quadricepsSelected) →
         Chip.selected c = bool_decide (Chip.key c ∈ selectedGroupKeys quadricepsSelected).
Proof.
  split; [exact quadricepsSelected_reachable|].
  exact (chips_follow_selection codeUnitCompare quadricepsSelected
           quadricepsSelected_reachable).
Defined.

(** ** Selection, expansion and what the meshes show *)

Lemma selection_subset_expansion groupsJson (sel : gset string) :
  sel ⊆ computeSelectedMeshKeys (buildGroupIndex groupsJson) sel.
Proof.
  rewrite computeSelectedMeshKeys_expand by apply buildGroupIndex_inhabited.
  intros k Hk. apply elem_of_expand. exists k. split; [done|]. unfold memberSet.
  rewrite buildGroupIndex_lookup. destruct (groupOf k groupsJson) as [g|] eqn:Hg.
  - apply groupOf_Some in Hg as (_ & _ & -> & e & He & Hkey & _).
    apply elem_of_membersOf. exists e. split; [done|]. split; [done|].
    unfold entryMembers. set_solver.
  - by apply elem_of_singleton.
Qed.

(** X5: on an index built by [buildGroupIndex], every selected key is itself
    one of the expanded mesh keys, whether it names a group (a group has its
    own key as a member) or not; so the expansion is empty only when nothing
    is selected. *)
Theorem selection_in_expansion (groupsJson : GroupsJson) (sel : gset string) :
  sel ⊆ computeSelectedMeshKeys (buildGroupIndex groupsJson) sel
  ∧ (computeSelectedMeshKeys (buildGroupIndex groupsJson) sel = ∅ ↔ sel = ∅).
Proof.
  split; [apply selection_subset_expansion|]. split.
  - intros Hempty. pose proof (selection_subset_expansion groupsJson sel) as Hsub.
    rewrite Hempty in Hsub. set_solver.
  - intros ->. unfold computeSelectedMeshKeys. by rewrite elements_empty.
Qed.





Section Repaints.
Variable localeCompare : string → string → Z.


End Repaints.


(** ** Picking a mesh *)




Section Picking.
Variable localeCompare : string → string → Z.


End Picking.


(** A mesh that no group of the metadata names is highlighted by a tap all
    the same. *)
Example pick_without_group :
  mapGet "rectusfemoris" (groupByKey musclesLoaded) = None
  ∧ elements (selectedGroupKeys (pick (Some 3) musclesLoaded)) = ["rectusfemoris"]
  ∧ (Object3D.renderOrder <$> Store.objects (store (pick (Some 3) musclesLoaded)))
    = [0; 0; 0; 2]%Z.
Proof. vm_compute. repeat split; reflexivity. Qed.

(** ** The status line and the filter box *)


Section Status.
Variable localeCompare : string → string → Z.


(** X9: a query whose normalized form is empty hides no chip: blanks and
    punctuation, but also a query such as [Model], which [slugify] strips as
    an exporter suffix. *)
Theorem applyFilter_empty_query v text :
  reachable localeCompare v → slugify text = "" →
  ∃ v', step localeCompare v (FilterInput text) = Some v'
    ∧ shownChips v' = groupEntry <$> groupsByName localeCompare (groupByKey v)
    ∧ ∀ c, c ∈ Dom.chips (dom v') → Chip.hidden c = false.
Proof.
  intros Hreach Hq. eexists. split; [done|]. split.
  - rewrite (shownChips_applyFilter text _ (groupsByName localeCompare (groupByKey v)))
      by exact (reachable_chipsRendered localeCompare v Hreach).
    f_equal. rewrite Hq. erewrite filter_ext; [apply filter_all|].
    intros g. apply includes_empty.
  - intros c. unfold applyFilter. cbn [dom set_dom Dom.chips Dom.set_chips].
    intros (c0 & -> & _)%list_elem_of_fmap. rewrite filterChip_hidden, Hq.
    by rewrite includes_empty.
Qed.

End Status.


Lemma applyFilter_empty_query_witness :
  reachable codeUnitCompare twoNames ∧ slugify "Model" = ""
  ∧ ∃ v', step codeUnitCompare twoNames (FilterInput "Model") = Some v'
      ∧ shownChips v' = groupEntry <$> groupsByName codeUnitCompare (groupByKey twoNames)
      ∧ ∀ c, c ∈ Dom.chips (dom v') → Chip.hidden c = false.
Proof.
  assert (slugify "Model" = "") as Hq by reflexivity.
  split; [exact twoNames_reachable|]. split; [exact Hq|].
  exact (applyFilter_empty_query codeUnitCompare twoNames "Model" twoNames_reachable Hq).
Defined.

Example status_after_selection :
  Dom.status (dom quadricepsSelected) = TextSummary (Some "Muscles") 3 1 2.
Proof. vm_compute. reflexivity. Qed.

(** ** Load tokens and superseded calls *)

Lemma tokensOk_setPhase i p v : tokensOk v → tokensOk (setPhase i p v).
Proof.
  intros [Htok Htasks]. unfold setPhase. destruct (tasks v !! i) as [t|] eqn:Ht; [|done].
  split; cbn [loadToken tasks set_tasks].
  - by rewrite length_insert.
  - intros j t'. destruct (decide (i = j)) as [<-|Hne].
    + rewrite list_lookup_insert_eq by (by eapply lookup_lt_Some).
      intros [= <-]. simpl. by apply (Htasks i t).
    + rewrite list_lookup_insert_ne by done. apply Htasks.
Qed.

Lemma tokensOk_transfer v v' :
  loadToken v' = loadToken v → tasks v' = tasks v → tokensOk v → tokensOk v'.
Proof. unfold tokensOk. by intros -> ->. Qed.

Lemma tokensOk_push k p v :
  tokensOk v →
  ∀ v', loadToken v' = (loadToken v + 1)%Z →
        tasks v' = tasks v ++ [Task.mk k (loadToken v + 1) p] → tokensOk v'.
Proof.
  intros [Htok Htasks] v' Htok' Htasks'. split.
  - rewrite Htok', Htasks', length_app, Htok. simpl. lia.
  - intros i t. rewrite Htasks'. intros Hi.
    apply lookup_app_Some in Hi as [Hi|[Hlen Hi]]; [by apply Htasks|].
    apply list_lookup_singleton_Some in Hi as [Hi <-]. simpl. rewrite Htok. lia.
Qed.

Section Tokens.
Variable localeCompare : string → string → Z.

Lemma tokensOk_step v e v' : tokensOk v → step localeCompare v e = Some v' → tokensOk v'.
Proof.
  intros Hc. destruct e as [k|i r|i r|k|hit| |text|]; cbn [step].
  - unfold loadSystem, loadGroups_call.
    destruct (SYSTEMS k) as [sys| |]; intros [= <-]; [| |done];
      by eapply (tokensOk_push k AwaitGroups v Hc).
  - destruct (tasks v !! i) as [t|]; [|done].
    destruct (Task.phase t); try done. intros [= <-].
    unfold onFetchSettled. destruct r as [groupsJson|].
    + assert (tokensOk (loadGroups_resume localeCompare (Task.token t) groupsJson v)) as Hc'.
      { unfold loadGroups_resume. by destruct (negb _). }
      revert Hc'. generalize (loadGroups_resume localeCompare (Task.token t) groupsJson v).
      intros w Hw. unfold loadModel_call.
      destruct (SYSTEMS (Task.systemKey t)).
      * apply tokensOk_setPhase. by eapply tokensOk_transfer.
      * apply tokensOk_setPhase. by eapply tokensOk_transfer.
      * apply (tokensOk_transfer (setPhase i Rejected w)); [done..|].
        by apply tokensOk_setPhase.
    + apply (tokensOk_transfer (setPhase i Rejected v)); [done..|].
      by apply tokensOk_setPhase.
  - destruct (tasks v !! i) as [t|]; [|done].
    destruct (Task.phase t); try done. intros [= <-].
    unfold onModelSettled. destruct r as [asset|].
    + apply tokensOk_setPhase.
      destruct (loadModel_resume_fields (Task.token t) asset v) as (_ & _ & _ & Ht & Hts & _).
      by eapply tokensOk_transfer.
    + apply (tokensOk_transfer (setPhase i Rejected v)); [done..|].
      by apply tokensOk_setPhase.
  - intros [= <-]. unfold toggleGroup. by destruct (isEmpty k).
  - intros [= <-]. unfold pick. destruct hit as [a|]; [|done].
    match goal with |- context [if isEmpty ?k then _ else _] => destruct (isEmpty k) end;
      [done|]. unfold toggleGroup.
    by match goal with |- context [if isEmpty ?k then _ else _] => destruct (isEmpty k) end.
  - by intros [= <-].
  - by intros [= <-].
  - by intros [= <-].
Qed.

Lemma reachable_tokensOk v : reachable localeCompare v → tokensOk v.
Proof.
  intros [es Hrun]. revert Hrun.
  assert (tokensOk initial) as Hinit by (split; [done|intros i t Hi; inversion Hi]).
  revert Hinit. generalize initial. induction es as [|e es IH]; intros v0 Hc; simpl.
  - by intros [= <-].
  - destruct (step localeCompare v0 e) as [v1|] eqn:Hstep; [|done].
    apply IH. by eapply tokensOk_step.
Qed.

(** X10: in every state the viewer can be in, the calls of [loadSystem] that
    passed the guard hold the tokens 1, 2, 3, ... in the order of the calls,
    and the load token is the number of those calls; so a call holds the
    current token exactly when no call came after it. *)
Theorem load_tokens_in_order v :
  reachable localeCompare v →
  loadToken v = Z.of_nat (length (tasks v))
  ∧ ∀ i t, tasks v !! i = Some t →
           Task.token t = Z.of_nat (S i)
           ∧ (Task.token t = loadToken v ↔ S i = length (tasks v)).
Proof.
  intros Hreach. destruct (reachable_tokensOk v Hreach) as [Htok Htasks].
  split; [done|]. intros i t Hi. split; [by apply Htasks|].
  rewrite (Htasks i t Hi), Htok. lia.
Qed.

End Tokens.

Lemma afterOverlap_reachable : reachable codeUnitCompare afterOverlap.
Proof. exists (bonesThenMuscles ++ staleModelLast). vm_compute. reflexivity. Qed.

Lemma load_tokens_in_order_witness :
  reachable codeUnitCompare afterOverlap
  ∧ loadToken afterOverlap = Z.of_nat (length (tasks afterOverlap)).
Proof.
  split; [exact afterOverlap_reachable|].
  exact (proj1 (load_tokens_in_order codeUnitCompare afterOverlap afterOverlap_reachable)).
Defined.

(** ** Completions of superseded calls, in any state *)

Lemma storePreserved_refl s : storePreserved s s.
Proof. by split. Qed.

Section Stale.
Variable localeCompare : string → string → Z.

Lemma onFetchSettled_stale i t r v :
  Task.token t ≠ loadToken v →
  let v' := onFetchSettled localeCompare i t r v in
  sharedState v' = sharedState v ∧ store v' = store v
  ∧ activeSystem v' = activeSystem v ∧ loadToken v' = loadToken v
  ∧ Dom.chips (dom v') = Dom.chips (dom v).
Proof.
  intros Hne v'. subst v'. unfold onFetchSettled. destruct r as [groupsJson|].
  - unfold loadGroups_resume. rewrite (proj2 (Z.eqb_neq _ _) Hne). simpl negb. cbv iota.
    unfold loadModel_call.
    destruct (SYSTEMS (Task.systemKey t)); unfold setPhase, setStatus, setLoading;
      cbn [tasks set_requests set_dom]; by destruct (tasks v !! i).
  - unfold setPhase, setStatus. by destruct (tasks v !! i).
Qed.

Lemma onModelSettled_stale i t r v :
  Task.token t ≠ loadToken v → meshesOk (store v) (meshList v) →
  let v' := onModelSettled i t r v in
  sharedState v' = sharedState v ∧ storePreserved (store v) (store v')
  ∧ activeSystem v' = activeSystem v ∧ loadToken v' = loadToken v
  ∧ Dom.chips (dom v') = Dom.chips (dom v).
Proof.
  intros Hne Hok v'. subst v'. unfold onModelSettled. destruct r as [asset|].
  - destruct (loadModel_stale_spec (Task.token t) asset v Hne Hok) as (Hsh & Hst & _).
    destruct (loadModel_resume_fields (Task.token t) asset v) as (_ & _ & Hact & Htok & _).
    pose proof (chips_loadModel_resume (Task.token t) asset v) as Hchips.
    revert Hsh Hst Hact Htok Hchips. generalize (loadModel_resume (Task.token t) asset v).
    intros w Hsh Hst Hact Htok Hchips. unfold setPhase. by destruct (tasks w !! i).
  - unfold setPhase, setStatus. destruct (tasks v !! i); by repeat split.
Qed.

(** X11: in any state the viewer can be in, when a request of a call of
    [loadSystem] that a later call has superseded settles, with a result or
    with a failure, the group index, the mesh index, the selection, the scene,
    the active system, the chips and every object and material that exists
    stay as they are. *)
Theorem superseded_completion_noop v i e v' :
  reachable localeCompare v → superseded v i → isCompletionOf i e = true →
  step localeCompare v e = Some v' →
  sharedState v' = sharedState v ∧ storePreserved (store v) (store v')
  ∧ activeSystem v' = activeSystem v ∧ loadToken v' = loadToken v
  ∧ Dom.chips (dom v') = Dom.chips (dom v).
Proof.
  intros Hreach Hsup He Hstep.
  pose proof (reachable_Inv _ _ Hreach) as Hinv.
  destruct (reachable_tokensOk localeCompare v Hreach) as [Htok Htasks].
  assert (∀ t, tasks v !! i = Some t → Task.token t ≠ loadToken v) as Hstale.
  { intros t Ht. rewrite (Htasks i t Ht), Htok. unfold superseded in Hsup. lia. }
  destruct e as [k|j r|j r|k|hit| |text|]; try discriminate He; cbn [step] in Hstep;
    apply bool_decide_eq_true in He as <-.
  - destruct (tasks v !! i) as [t|] eqn:Ht; [|done].
    destruct (Task.phase t); try done. injection Hstep as <-.
    destruct (onFetchSettled_stale i t r v (Hstale t eq_refl)) as (? & -> & ? & ? & ?).
    split; [done|]. split; [apply storePreserved_refl|done].
  - destruct (tasks v !! i) as [t|] eqn:Ht; [|done].
    destruct (Task.phase t); try done. injection Hstep as <-.
    apply onModelSettled_stale; [by apply Hstale|apply (inv_meshes _ Hinv)].
Qed.

(** X12: a superseded call goes on all the same.  When its metadata
    arrives, nothing is built from it, but [loadModel] is still called for its
    system: the model is requested and the loading overlay is put up with the
    text of that system. *)
Theorem superseded_call_still_loads v i t sys groupsJson :
  reachable localeCompare v → superseded v i →
  tasks v !! i = Some t → Task.phase t = AwaitGroups →
  SYSTEMS (Task.systemKey t) = Own sys →
  ∃ v', step localeCompare v (FetchSettled i (Some groupsJson)) = Some v'
    ∧ groupByKey v' = groupByKey v
    ∧ requests v' = requests v ++ [LoadFbx (Some (System.fbx sys))]
    ∧ Dom.loadingShown (dom v') = true
    ∧ Dom.loadingText (dom v') = TextLoadingModel (Some (System.label sys))
    ∧ tasks v' !! i = Some (Task.set_phase AwaitModel t).
Proof.
  intros Hreach Hsup Ht Hphase Hsys.
  destruct (reachable_tokensOk localeCompare v Hreach) as [Htok Htasks].
  assert (Task.token t ≠ loadToken v) as Hne.
  { rewrite (Htasks i t Ht), Htok. unfold superseded in Hsup. lia. }
  eexists. split; [cbn [step]; by rewrite Ht, Hphase|].
  unfold onFetchSettled, loadGroups_resume. rewrite (proj2 (Z.eqb_neq _ _) Hne).
  simpl negb. cbv iota. unfold loadModel_call. rewrite Hsys.
  unfold setPhase, setLoading. cbn [tasks set_requests set_dom]. rewrite Ht.
  repeat split; try done. cbn [tasks set_tasks].
  by rewrite list_lookup_insert_eq by (by eapply lookup_lt_Some).
Qed.

End Stale.

Lemma twoCalls_reachable : reachable codeUnitCompare twoCalls.
Proof. exists bonesThenMuscles. vm_compute. reflexivity. Qed.

Lemma superseded_completion_noop_witness :
  reachable codeUnitCompare twoCalls ∧ superseded twoCalls 0
  ∧ sharedState (onFetchSettled codeUnitCompare 0 (Task.mk "bones" 1 AwaitGroups)
                   (Some bonesJson) twoCalls)
    = sharedState twoCalls.
Proof.
  assert (superseded twoCalls 0) as Hsup by (vm_compute; lia).
  split; [exact twoCalls_reachable|]. split; [exact Hsup|].
  exact (proj1 (superseded_completion_noop codeUnitCompare twoCalls 0
                  (FetchSettled 0 (Some bonesJson)) _ twoCalls_reachable Hsup
                  eq_refl eq_refl)).
Defined.

Lemma superseded_call_still_loads_witness :
  reachable codeUnitCompare twoCalls ∧ superseded twoCalls 0
  ∧ ∃ v', step codeUnitCompare twoCalls (FetchSettled 0 (Some bonesJson)) = Some v'
      ∧ groupByKey v' = groupByKey twoCalls
      ∧ requests v' = requests twoCalls ++ [LoadFbx (Some "./assets/bones.fbx")]
      ∧ Dom.loadingShown (dom v') = true
      ∧ Dom.loadingText (dom v') = TextLoadingModel (Some "Bones")
      ∧ tasks v' !! 0 = Some (Task.mk "bones" 1 AwaitModel).
Proof.
  assert (superseded twoCalls 0) as Hsup by (vm_compute; lia).
  split; [exact twoCalls_reachable|]. split; [exact Hsup|].
  exact (superseded_call_still_loads codeUnitCompare twoCalls 0
           (Task.mk "bones" 1 AwaitGroups)
           (System.mk "Bones" "./assets/bones.fbx" "./meta/bones_groups.json") bonesJson
           twoCalls_reachable Hsup eq_refl eq_refl eq_refl).
Defined.

(** ** Loads that fail *)

Section Failures.
Variable localeCompare : string → string → Z.

Lemma loadSystem_own_fields k sys v :
  SYSTEMS k = Own sys →
  ∃ v1, step localeCompare v (CallLoadSystem k) = Some v1
    ∧ tasks v1 = tasks v ++ [Task.mk k (loadToken v + 1) AwaitGroups]
    ∧ loadToken v1 = (loadToken v + 1)%Z
    ∧ activeSystem v1 = k ∧ selectedGroupKeys v1 = ∅
    ∧ sharedState v1 = sharedState (set_selectedGroupKeys ∅ v)
    ∧ store v1 = store v
    ∧ requests v1 = requests v ++ [Fetch (Some (System.groups sys))]
    ∧ Dom.loadingShown (dom v1) = true.
Proof.
  intros Hsys. cbn [step]. unfold loadSystem, loadGroups_call. rewrite Hsys.
  eexists. split; [done|]. done.
Qed.

Lemma onFetchSettled_current i t groupsJson v sys :
  Task.token t = loadToken v → SYSTEMS (Task.systemKey t) = Own sys →
  let v' := onFetchSettled localeCompare i t (Some groupsJson) v in
  chipsRendered localeCompare v'
  ∧ requests v' = requests v ++ [LoadFbx (Some (System.fbx sys))]
  ∧ Dom.loadingShown (dom v') = true
  ∧ Dom.loadingText (dom v') = TextLoadingModel (Some (System.label sys)).
Proof.
  intros Htok Hsys v'. subst v'.
  unfold onFetchSettled, loadGroups_resume, loadModel_call.
  rewrite Htok, Z.eqb_refl, Hsys. simpl negb. cbv iota.
  set (w := renderChips localeCompare (set_groupByKey (buildGroupIndex groupsJson) v)).
  assert (chipsRendered localeCompare w) as Hw by apply chipsRendered_renderChips.
  assert (requests w = requests v) as Hreq by done.
  clearbody w. unfold setPhase, setLoading. cbn [tasks set_requests set_dom].
  destruct (tasks w !! i); (split; [exact Hw|]); cbn; by rewrite Hreq.
Qed.

(** X13: a switch whose metadata request fails.  The call has already made
    the key the active system and emptied the selection; after the failure
    the group index, the mesh index, the scene and every object and material
    are those of before the call (the meshes keep the appearance they had),
    no model was requested, the status line shows the error, and the loading
    overlay is still up. *)
Theorem loadSystem_metadata_fails v k sys :
  SYSTEMS k = Own sys →
  ∃ v', run localeCompare v [CallLoadSystem k; FetchSettled (length (tasks v)) None] = Some v'
    ∧ activeSystem v' = k ∧ selectedGroupKeys v' = ∅
    ∧ groupByKey v' = groupByKey v ∧ meshList v' = meshList v ∧ meshByKey v' = meshByKey v
    ∧ scene v' = scene v ∧ modelRoot v' = modelRoot v ∧ store v' = store v
    ∧ requests v' = requests v ++ [Fetch (Some (System.groups sys))]
    ∧ Dom.status (dom v') = TextError FetchFailed
    ∧ Dom.loadingShown (dom v') = true
    ∧ tasks v' = tasks v ++ [Task.mk k (loadToken v + 1) Rejected].
Proof.
  intros Hsys.
  destruct (loadSystem_own_fields k sys v Hsys)
    as (v1 & Hstep & Htasks & Htok & Hact & Hsel & Hsh & Hstore & Hreq & Hshown).
  assert (tasks v1 !! length (tasks v) = Some (Task.mk k (loadToken v + 1) AwaitGroups)) as Ht.
  { rewrite Htasks. by apply list_lookup_middle. }
  eexists. split.
  { cbn [run]. rewrite Hstep. cbn [step]. rewrite Ht. cbn [Task.phase]. done. }
  unfold onFetchSettled, setStatus, setPhase. rewrite Ht.
  injection Hsh as Hg Hml Hmk _ Hsc Hroot.
  cbn [activeSystem selectedGroupKeys groupByKey meshList meshByKey scene modelRoot store
       requests dom tasks set_dom set_tasks Dom.status Dom.set_status Dom.loadingShown].
  repeat split; try done.
  rewrite Htasks. replace (length (tasks v)) with (length (tasks v) + 0) by lia.
  by rewrite insert_app_r.
Qed.

(** X14: a switch whose metadata arrives and whose model request fails.  The
    group index and the chips are those of the new system; the mesh index, the
    scene and every object and material are still those of before the call;
    the status line shows the error and the loading overlay is still up. *)
Theorem loadSystem_model_fails v k sys groupsJson :
  SYSTEMS k = Own sys →
  ∃ v', run localeCompare v
          [CallLoadSystem k; FetchSettled (length (tasks v)) (Some groupsJson);
           ModelSettled (length (tasks v)) None] = Some v'
    ∧ activeSystem v' = k ∧ selectedGroupKeys v' = ∅
    ∧ groupByKey v' = buildGroupIndex groupsJson
    ∧ chipsRendered localeCompare v'
    ∧ meshList v' = meshList v ∧ meshByKey v' = meshByKey v
    ∧ scene v' = scene v ∧ modelRoot v' = modelRoot v ∧ store v' = store v
    ∧ requests v'
      = requests v ++ [Fetch (Some (System.groups sys)); LoadFbx (Some (System.fbx sys))]
    ∧ Dom.status (dom v') = TextError LoadFailed
    ∧ Dom.loadingShown (dom v') = true
    ∧ tasks v' = tasks v ++ [Task.mk k (loadToken v + 1) Rejected].
Proof.
  intros Hsys.
  destruct (loadSystem_own_fields k sys v Hsys)
    as (v1 & Hstep & Htasks & Htok & Hact & Hsel & Hsh & Hstore & Hreq & Hshown).
  assert (tasks v1 !! length (tasks v) = Some (Task.mk k (loadToken v + 1) AwaitGroups)) as Ht.
  { rewrite Htasks. by apply list_lookup_middle. }
  destruct (onFetchSettled_fields localeCompare (length (tasks v)) _ (Some groupsJson) v1 sys
              Ht Hsys)
    as (Hstore2 & Hml2 & Hmk2 & Hsc2 & Hroot2 & Hsel2 & Hact2 & Htok2 & Htasks2 & Hgroups2).
  cbn [Task.token] in Hgroups2. rewrite Htok, Z.eqb_refl in Hgroups2.
  destruct (onFetchSettled_current (length (tasks v)) (Task.mk k (loadToken v + 1) AwaitGroups)
              groupsJson v1 sys) as (Hchips & Hreq2 & Hshown2 & _); [by rewrite Htok|done|].
  set (v2 := onFetchSettled _ _ _ _ v1) in *.
  assert (tasks v2 !! length (tasks v) = Some (Task.mk k (loadToken v + 1) AwaitModel)) as Ht2.
  { rewrite Htasks2. by rewrite list_lookup_insert_eq by (by eapply lookup_lt_Some). }
  eexists. split.
  { cbn [run]. rewrite Hstep. cbn [step]. rewrite Ht. cbn [Task.phase].
    fold v2. rewrite Ht2. cbn [Task.phase]. done. }
  unfold onModelSettled, setStatus, setPhase. rewrite Ht2.
  injection Hsh as Hg Hml Hmk _ Hsc Hroot.
  cbn [activeSystem selectedGroupKeys groupByKey meshList meshByKey scene modelRoot store
       requests dom tasks set_dom set_tasks Dom.status Dom.set_status Dom.loadingShown].
  split; [congruence|]. split; [congruence|]. split; [done|].
  split; [by apply (chipsRendered_transfer localeCompare v2)|].
  split; [congruence|]. split; [congruence|]. split; [congruence|]. split; [congruence|].
  split; [congruence|]. split; [by rewrite Hreq2, Hreq, <- app_assoc|].
  split; [done|]. split; [done|].
  rewrite Htasks2, Htasks. replace (length (tasks v)) with (length (tasks v) + 0) by lia.
  by rewrite !insert_app_r.
Qed.

End Failures.

Lemma loadSystem_metadata_fails_witness :
  SYSTEMS "bones" = Own (System.mk "Bones" "./assets/bones.fbx" "./meta/bones_groups.json")
  ∧ ∃ v', run codeUnitCompare quadricepsSelected
            [CallLoadSystem "bones"; FetchSettled (length (tasks quadricepsSelected)) None]
          = Some v'
      ∧ activeSystem v' = "bones" ∧ selectedGroupKeys v' = ∅.
Proof.
  split; [reflexivity|].
  destruct (loadSystem_metadata_fails codeUnitCompare quadricepsSelected "bones" _ eq_refl)
    as (v' & Hrun & Hact & Hsel & _).
  exists v'. split; [exact Hrun|]. split; [exact Hact|exact Hsel].
Defined.

Lemma loadSystem_model_fails_witness :
  SYSTEMS "bones" = Own (System.mk "Bones" "./assets/bones.fbx" "./meta/bones_groups.json")
  ∧ ∃ v', run codeUnitCompare quadricepsSelected
            [CallLoadSystem "bones";
             FetchSettled (length (tasks quadricepsSelected)) (Some bonesJson);
             ModelSettled (length (tasks quadricepsSelected)) None]
          = Some v'
      ∧ activeSystem v' = "bones" ∧ selectedGroupKeys v' = ∅.
Proof.
  split; [reflexivity|].
  destruct (loadSystem_model_fails codeUnitCompare quadricepsSelected "bones" _ bonesJson
              eq_refl) as (v' & Hrun & Hact & Hsel & _).
  exists v'. split; [exact Hrun|]. split; [exact Hact|exact Hsel].
Defined.

(** The quadriceps were selected in the muscles; the switch to the bones
    fails: the muscles are still in the scene, two of them highlighted and
    one dimmed, with nothing selected. *)
Example failed_switch_keeps_highlight :
  let v' := default initial
              (run codeUnitCompare quadricepsSelected
                 [CallLoadSystem "bones"; FetchSettled 1 None]) in
  activeSystem v' = "bones"
  ∧ elements (selectedGroupKeys v') = []
  ∧ meshList v' = [1; 2; 3]
  ∧ (Object3D.renderOrder <$> Store.objects (store v')) = [0; 2; 2; 0]%Z
  ∧ Dom.loadingShown (dom v') = true.
Proof. vm_compute. repeat split; reflexivity. Qed.

(** ** The mesh index describes the model in the scene *)

Lemma isMeshAt_sameNode s s' b :
  length (Store.objects s') = length (Store.objects s) →
  (∀ o, Store.objects s !! b = Some o → ∃ o', Store.objects s' !! b = Some o' ∧ sameNode o o') →
  isMeshAt s' b = isMeshAt s b.
Proof.
  intros Hlen Hsame. unfold isMeshAt.
  destruct (Store.objects s !! b) as [o|] eqn:Ho.
  - destruct (Hsame o eq_refl) as (o' & -> & Hiso & _). done.
  - apply lookup_ge_None in Ho. rewrite <- Hlen in Ho. apply lookup_ge_None in Ho.
    by rewrite Ho.
Qed.

(** Repainting keeps the active model the active model. *)
Lemma modelActive_sameNodes asset v v' :
  modelRoot v' = modelRoot v → scene v' = scene v → meshList v' = meshList v →
  meshByKey v' = meshByKey v →
  length (Store.objects (store v')) = length (Store.objects (store v)) →
  (∀ b o, Store.objects (store v) !! b = Some o →
     ∃ o', Store.objects (store v') !! b = Some o' ∧ sameNode o o') →
  length (Store.materials (store v')) = length (Store.materials (store v)) →
  modelActive asset v → modelActive asset v'.
Proof.
  intros Hroot Hscene Hml Hmk Hlen Hsame Hmats (bo & Hr & Hs & Hl & Hnodes & Hkeys & Hvalid).
  exists bo. rewrite Hroot, Hscene, Hml, Hmk. split; [done|]. split; [done|].
  split; [|split; [|split]].
  - rewrite Hl. apply filter_ext. intros a. symmetry.
    apply isMeshAt_sameNode; [done|apply Hsame].
  - intros j node Hj. destruct (Hnodes j node Hj) as (o & Ho & Hn & Hm & Hg & Hpk).
    destruct (Hsame _ _ Ho) as (o' & Ho' & Hm' & Hn' & Hg' & _ & Hpk' & _).
    exists o'. split; [done|]. rewrite Hn', Hm', Hg', Hpk'. done.
  - intros k. rewrite Hkeys. apply filter_ext. intros a.
    by rewrite (partKeyOf_sameNode (store v) (store v') a Hlen (Hsame a)).
  - intros a Ha x. rewrite (matsAt_sameNode (store v) (store v') a Hlen (Hsame a)).
    intros Hx. destruct (Hvalid a Ha x Hx) as [m Hm].
    apply lookup_lt_is_Some. rewrite Hmats. by eapply lookup_lt_Some.
Qed.

Lemma foldl_paintMesh_materials keys hs ml s n :
  length (Store.materials (foldl (paintMesh keys hs) (s, n) ml).1)
  = length (Store.materials s).
Proof.
  revert s n. induction ml as [|a ml IH]; intros s n; [done|]. simpl.
  destruct (paintMesh keys hs (s, n) a) as [s1 n1] eqn:E. rewrite IH.
  pose proof (paintMesh_fst keys hs (s, n) a) as H1. rewrite E in H1. simpl in H1.
  rewrite H1. apply setMeshState_logs.
Qed.

Lemma modelActive_applySelectionToMeshes asset v :
  modelActive asset v → modelActive asset (applySelectionToMeshes v).
Proof.
  destruct (foldl_paintMesh_frame (selectedMeshKeys v)
              (bool_decide (0 < size (selectedMeshKeys v))) (meshList v) (store v) 0)
    as (_ & _ & Hlen & Hsame & _).
  apply modelActive_sameNodes; try done; rewrite applySelectionToMeshes_store;
    first [exact Hlen | exact Hsame | apply foldl_paintMesh_materials].
Qed.

Lemma modelShown_transfer v v' :
  modelRoot v' = modelRoot v → scene v' = scene v → meshList v' = meshList v →
  meshByKey v' = meshByKey v → storePreserved (store v) (store v') →
  modelShown v → modelShown v'.
Proof.
  intros Hroot Hscene Hml Hmk Hst. unfold modelShown. rewrite Hroot, Hscene, Hml, Hmk.
  destruct (modelRoot v) as [root|] eqn:Hr; [|done].
  intros [Hsc [asset Hact]]. split; [done|]. exists asset.
  apply (modelActive_preserved asset v); [congruence|done..].
Qed.

Lemma modelShown_applySelectionToMeshes v :
  modelShown v → modelShown (applySelectionToMeshes v).
Proof.
  unfold modelShown. change (modelRoot (applySelectionToMeshes v)) with (modelRoot v).
  destruct (modelRoot v) as [root|]; [|done].
  intros [Hsc [asset Hact]]. split; [done|]. exists asset.
  by apply modelActive_applySelectionToMeshes.
Qed.

Lemma modelShown_toggleGroup k v : modelShown v → modelShown (toggleGroup k v).
Proof.
  intros Hv. unfold toggleGroup. destruct (isEmpty k); [done|].
  apply modelShown_applySelectionToMeshes.
  apply (modelShown_transfer v); first [done | apply storePreserved_refl].
Qed.

Lemma scene_loadModel_current asset v :
  scene (loadModel_resume (loadToken v) asset v)
  = match modelRoot v with
    | Some root => filter (λ x, x ≠ root) (scene v)
    | None => scene v
    end ++ [(allocAsset asset (store v)).2]
  ∧ modelRoot (loadModel_resume (loadToken v) asset v) = Some (allocAsset asset (store v)).2.
Proof.
  rewrite loadModel_resume_current.
  change (scene (applySelectionToMeshes ?w)) with (scene w).
  change (modelRoot (applySelectionToMeshes ?w)) with (modelRoot w).
  unfold setLoading. cbn [scene modelRoot set_dom].
  destruct (foldl_registerMesh_fields (replaceRoot asset v) (allocAsset asset (store v)).2)
    as (_ & _ & _ & _ & -> & -> & _).
  done.
Qed.

Section Shown.
Variable localeCompare : string → string → Z.

Lemma modelShown_step v e v' :
  Inv v → modelShown v → step localeCompare v e = Some v' → modelShown v'.
Proof.
  intros Hinv Hc. destruct e as [k|i r|i r|k|hit| |text|]; cbn [step].
  - unfold loadSystem, loadGroups_call.
    destruct (SYSTEMS k) as [sys| |]; intros [= <-];
      (apply (modelShown_transfer v); first [done | apply storePreserved_refl]).
  - destruct (tasks v !! i) as [t|]; [|done].
    destruct (Task.phase t); try done. intros [= <-].
    unfold onFetchSettled. destruct r as [groupsJson|].
    + assert (modelShown (loadGroups_resume localeCompare (Task.token t) groupsJson v)) as Hc'.
      { unfold loadGroups_resume. destruct (negb _); [done|].
        apply (modelShown_transfer v); first [done | apply storePreserved_refl]. }
      revert Hc'. generalize (loadGroups_resume localeCompare (Task.token t) groupsJson v).
      intros w Hw. unfold loadModel_call.
      destruct (SYSTEMS (Task.systemKey t)); unfold setPhase; simpl;
        destruct (tasks w !! i);
        (apply (modelShown_transfer w); first [done | apply storePreserved_refl]).
    + unfold setPhase. destruct (tasks v !! i);
        (apply (modelShown_transfer v); first [done | apply storePreserved_refl]).
  - destruct (tasks v !! i) as [t|]; [|done].
    destruct (Task.phase t); try done. intros [= <-].
    unfold onModelSettled. destruct r as [asset|].
    + assert (modelShown (loadModel_resume (Task.token t) asset v)) as Hc'.
      { destruct (decide (Task.token t = loadToken v)) as [->|Hne].
        - destruct (loadModel_current_spec asset v) as (Hactive & _).
          destruct (scene_loadModel_current asset v) as [Hscene Hroot].
          unfold modelShown. rewrite Hroot. split; [|by exists asset].
          rewrite Hscene. unfold modelShown in Hc.
          destruct (modelRoot v) as [root|].
          + destruct Hc as [-> _]. rewrite filter_cons_False by (intros H; by apply H). done.
          + by destruct Hc as [-> _].
        - destruct (loadModel_stale_spec (Task.token t) asset v Hne (inv_meshes _ Hinv))
            as (Hsh & Hst & _).
          injection Hsh as _ Hml Hmk _ Hsc Hroot.
          by apply (modelShown_transfer v). }
      revert Hc'. generalize (loadModel_resume (Task.token t) asset v). intros w Hw.
      unfold setPhase. destruct (tasks w !! i);
        (apply (modelShown_transfer w); first [done | apply storePreserved_refl]).
    + unfold setPhase. destruct (tasks v !! i);
        (apply (modelShown_transfer v); first [done | apply storePreserved_refl]).
  - intros [= <-]. by apply modelShown_toggleGroup.
  - intros [= <-]. unfold pick. destruct hit as [a|]; [|done].
    match goal with |- context [if isEmpty ?k then _ else _] => destruct (isEmpty k) end;
      [done|by apply modelShown_toggleGroup].
  - intros [= <-]. unfold clearSelection. apply modelShown_applySelectionToMeshes.
    apply (modelShown_transfer v); first [done | apply storePreserved_refl].
  - intros [= <-]. apply (modelShown_transfer v); first [done | apply storePreserved_refl].
  - intros [= <-]. apply (modelShown_transfer v); first [done | apply storePreserved_refl].
Qed.

Lemma reachable_modelShown v : reachable localeCompare v → modelShown v.
Proof.
  intros [es Hrun]. revert Hrun.
  assert (Inv initial ∧ modelShown initial) as Hinit by (split; [apply Inv_initial|done]).
  revert Hinit. generalize initial. induction es as [|e es IH]; intros v0 [Hi Hc]; simpl.
  - by intros [= <-].
  - destruct (step localeCompare v0 e) as [v1|] eqn:Hstep; [|done].
    apply IH. split; [by eapply Inv_step|by eapply modelShown_step].
Qed.

End Shown.

(** ** The model that is loaded and the model it replaces *)

Lemma loadModel_current_logs asset v root :
  modelRoot v = Some root →
  Store.disposedGeometries (store (loadModel_resume (loadToken v) asset v))
  = Store.disposedGeometries (disposeObject (Some root) (allocAsset asset (store v)).1)
  ∧ Store.disposedMaterials (store (loadModel_resume (loadToken v) asset v))
    = Store.disposedMaterials (disposeObject (Some root) (allocAsset asset (store v)).1).
Proof.
  intros Hroot. rewrite loadModel_resume_current, applySelectionToMeshes_store.
  match goal with |- context [foldl (paintMesh ?keys ?hs) (?s, 0) ?ml] =>
    destruct (foldl_paintMesh_frame keys hs ml s 0) as (-> & -> & _)
  end.
  unfold setLoading. cbn [store set_dom].
  destruct (foldl_registerMesh_spec (allocAsset asset (store v)).2 (replaceRoot asset v))
    as (_ & -> & -> & _).
  { destruct (allocAsset_heap asset (store v)) as (_ & _ & -> & _). apply NoDup_seq. }
  unfold replaceRoot. rewrite Hroot. done.
Qed.

Section ModelLoad.
Variable localeCompare : string → string → Z.

(** X15: in every state the viewer can be in, the scene holds the active
    model and no other; the mesh list is the mesh nodes of that model in
    traversal order (empty while there is none); every mesh of the list
    carries as part key the key of its name; and the key map lists under
    every key exactly the meshes of the list with that part key. *)
Theorem mesh_index_describes_scene v :
  reachable localeCompare v →
  scene v = match modelRoot v with Some root => [root] | None => [] end
  ∧ meshList v = match modelRoot v with
                 | Some root => List.filter (isMeshAt (store v)) root
                 | None => []
                 end
  ∧ (∀ a, a ∈ meshList v →
       ∃ o, Store.objects (store v) !! a = Some o ∧ Object3D.isMesh o = true
            ∧ Object3D.partKey o = Some (slugify (Object3D.name o)))
  ∧ (∀ k, default [] (mapGet k (meshByKey v))
          = List.filter (λ a, bool_decide (partKeyOf (store v) a = k)) (meshList v)).
Proof.
  intros Hreach. pose proof (reachable_modelShown localeCompare v Hreach) as Hshown.
  unfold modelShown in Hshown. destruct (modelRoot v) as [root|] eqn:Hroot.
  - destruct Hshown as [Hscene (asset & bo & Hr & _ & Hl & Hnodes & Hkeys & _)].
    rewrite Hroot in Hr. injection Hr as ->. split; [done|]. split; [done|]. split; [|done].
    intros a Ha. rewrite Hl in Ha. apply list_elem_of_In, filter_In in Ha as [Ha Hmesh].
    apply list_elem_of_In, list_elem_of_lookup in Ha as (j & Hj).
    apply lookup_seq in Hj as [-> Hj].
    destruct (lookup_lt_is_Some_2 _ _ Hj) as [node Hnode].
    destruct (Hnodes j node Hnode) as (o & Ho & Hn & Hm & _ & Hpk).
    exists o. unfold isMeshAt in Hmesh. rewrite Ho in Hmesh.
    split; [done|]. split; [done|]. rewrite Hn. apply Hpk. congruence.
  - destruct Hshown as (-> & -> & ->). split; [done|]. split; [done|].
    split; [|done]. intros a Ha. inversion Ha.
Qed.


(** X17: when the model of the latest call arrives and replaces a model,
    every mesh of the old mesh list is out of the new one, and [dispose] has
    been called on its geometry, where it has one, and on every material in
    its slots. *)
Theorem replaced_model_disposed v i t asset :
  reachable localeCompare v →
  tasks v !! i = Some t → Task.phase t = AwaitModel → S i = length (tasks v) →
  ∃ v', step localeCompare v (ModelSettled i (Some asset)) = Some v'
    ∧ ∀ a, a ∈ meshList v →
        (a ∉ meshList v')
        ∧ ∃ o, Store.objects (store v) !! a = Some o
               ∧ (Object3D.hasGeometry o = true → a ∈ Store.disposedGeometries (store v'))
               ∧ ∀ x, Some x ∈ matsOf (Object3D.material o) →
                      x ∈ Store.disposedMaterials (store v').
Proof.
  intros Hreach Ht Hphase Hlast.
  destruct (reachable_tokensOk localeCompare v Hreach) as [Htok Htasks].
  assert (Task.token t = loadToken v) as Hcur.
  { rewrite (Htasks i t Ht), Htok, <- Hlast. done. }
  eexists. split; [cbn [step]; by rewrite Ht, Hphase|].
  unfold onModelSettled. rewrite Hcur.
  assert (∀ w, meshList (setPhase i Fulfilled w) = meshList w
               ∧ store (setPhase i Fulfilled w) = store w) as Hphase'.
  { intros w. unfold setPhase. by destruct (tasks w !! i). }
  destruct (Hphase' (loadModel_resume (loadToken v) asset v)) as [-> ->].
  intros a Ha.
  pose proof (reachable_modelShown localeCompare v Hreach) as Hshown.
  unfold modelShown in Hshown. destruct (modelRoot v) as [root|] eqn:Hroot; cycle 1.
  { destruct Hshown as (_ & Hml & _). rewrite Hml in Ha. inversion Ha. }
  destruct Hshown as [_ (old & bo & Hr & _ & Hl & Hnodes & _ & Hvalid)].
  rewrite Hroot in Hr. injection Hr as Hr.
  assert (a ∈ root ∧ isMeshAt (store v) a = true) as [Hin Hmesh].
  { rewrite Hl in Ha. apply list_elem_of_In, filter_In in Ha as [Ha Hm].
    split; [|done]. rewrite Hr. by apply list_elem_of_In. }
  unfold isMeshAt in Hmesh.
  destruct (Store.objects (store v) !! a) as [o|] eqn:Ho; [|done].
  destruct (loadModel_current_spec asset v) as (_ & _ & _ & _ & Hnew).
  split.
  { intros Ha'. apply Hnew in Ha'. apply lookup_lt_Some in Ho. lia. }
  exists o. split; [done|].
  destruct (loadModel_current_logs asset v root Hroot) as [-> ->].
  destruct (allocAsset_heap asset (store v)) as (Hobjs & Hmats & _).
  destruct (disposeObject_logs root (allocAsset asset (store v)).1) as (_ & _ & Hdisp).
  destruct (Hdisp a o Hin) as [Hgeo Hmat]; [|done|].
  { rewrite Hobjs. by apply lookup_app_l_Some. }
  split; [done|]. intros x Hx. apply Hmat; [done|].
  rewrite Hmats. destruct (Hvalid a Ha x) as [m Hm].
  { unfold matsAt. by rewrite Ho. }
  exists m. by apply lookup_app_l_Some.
Qed.

End ModelLoad.


Lemma mesh_index_describes_scene_witness :
  reachable codeUnitCompare afterOverlap
  ∧ scene afterOverlap
    = match modelRoot afterOverlap with Some root => [root] | None => [] end.
Proof.
  split; [exact afterOverlap_reachable|].
  exact (proj1 (mesh_index_describes_scene codeUnitCompare afterOverlap
                  afterOverlap_reachable)).
Defined.


(** The quadriceps chip was clicked while the model was on its way: the
    model arrives with the two heads highlighted and the third mesh
    dimmed. *)
Example selection_before_model :
  (Object3D.renderOrder <$>
     Store.objects (store (default initial
       (step codeUnitCompare musclesPending (ModelSettled 0 (Some sharedMaterialAsset))))))
  = [0; 2; 2; 0]%Z.
Proof. vm_compute. reflexivity. Qed.

Lemma bonesPending_reachable : reachable codeUnitCompare bonesPending.
Proof.
  exists (musclesLoadedEvents ++ [CallLoadSystem "bones"; FetchSettled 1 (Some bonesJson)]).
  vm_compute. reflexivity.
Qed.

Lemma replaced_model_disposed_witness :
  reachable codeUnitCompare bonesPending
  ∧ tasks bonesPending !! 1 = Some (Task.mk "bones" 2 AwaitModel)
  ∧ 2 = length (tasks bonesPending)
  ∧ ∃ v', step codeUnitCompare bonesPending (ModelSettled 1 (Some bonesAsset)) = Some v'
      ∧ ∀ a, a ∈ meshList bonesPending →
          (a ∉ meshList v')
          ∧ ∃ o, Store.objects (store bonesPending) !! a = Some o
                 ∧ (Object3D.hasGeometry o = true → a ∈ Store.disposedGeometries (store v'))
                 ∧ ∀ x, Some x ∈ matsOf (Object3D.material o) →
                        x ∈ Store.disposedMaterials (store v').
Proof.
  assert (tasks bonesPending !! 1 = Some (Task.mk "bones" 2 AwaitModel)) as Ht
    by (vm_compute; reflexivity).
  assert (2 = length (tasks bonesPending)) as Hlast by (vm_compute; reflexivity).
  split; [exact bonesPending_reachable|]. split; [exact Ht|]. split; [exact Hlast|].
  exact (replaced_model_disposed codeUnitCompare bonesPending 1 _ bonesAsset
           bonesPending_reachable Ht eq_refl Hlast).
Defined.

(** The muscles' three meshes, with their four cloned materials, are
    disposed when the bones replace them. *)
Example muscles_replaced_by_bones :
  let v' := default initial
              (step codeUnitCompare bonesPending (ModelSettled 1 (Some bonesAsset))) in
  meshList bonesPending = [1; 2; 3]
  ∧ meshList v' = [5; 6]
  ∧ scene v' = [[4; 5; 6]]
  ∧ Store.disposedGeometries (store v') = [1; 2; 3]
  ∧ Store.disposedMaterials (store v') = [1; 2; 3; 4].
Proof. vm_compute. repeat split; reflexivity. Qed.

(** ** The loading overlay after overlapping calls *)

Section Overlay.
Variable localeCompare : string → string → Z.

Lemma onFetchSettled_overlay i t groupsJson v sys :
  tasks v !! i = Some t → SYSTEMS (Task.systemKey t) = Own sys →
  Dom.loadingShown (dom (onFetchSettled localeCompare i t (Some groupsJson) v)) = true
  ∧ Dom.loadingText (dom (onFetchSettled localeCompare i t (Some groupsJson) v))
    = TextLoadingModel (Some (System.label sys)).
Proof.
  intros Ht Hsys. unfold onFetchSettled, loadModel_call. rewrite Hsys.
  generalize (loadGroups_resume localeCompare (Task.token t) groupsJson v). intros w.
  unfold setPhase, setLoading. cbn [tasks set_requests set_dom].
  by destruct (tasks w !! i).
Qed.

Lemma onModelSettled_stale_overlay i t r v :
  Task.token t ≠ loadToken v →
  Dom.loadingShown (dom (onModelSettled i t r v)) = Dom.loadingShown (dom v)
  ∧ Dom.loadingText (dom (onModelSettled i t r v)) = Dom.loadingText (dom v).
Proof.
  intros Hne. unfold onModelSettled. destruct r as [asset|].
  - rewrite (loadModel_resume_stale _ asset v Hne). unfold setPhase.
    cbn [tasks set_store]. by destruct (tasks v !! i).
  - unfold setPhase, setStatus. by destruct (tasks v !! i).
Qed.

(** X18: two overlapping calls for known systems, where the metadata of the
    superseded call arrives only after the model of the latest call has been
    loaded.  The latest call's model is the active one, yet the loading
    overlay, which the superseded call put up again for its own model
    request, stays up with that system's text: nothing takes it down once
    the superseded model has arrived or failed. *)
Theorem overlay_left_up v0 k1 k2 sys1 sys2 groupsJson1 loaded1 groupsJson2 asset2 :
  reachable localeCompare v0 →
  SYSTEMS k1 = Own sys1 → SYSTEMS k2 = Own sys2 →
  ∃ v', run localeCompare v0
          [CallLoadSystem k1; CallLoadSystem k2;
           FetchSettled (S (length (tasks v0))) (Some groupsJson2);
           ModelSettled (S (length (tasks v0))) (Some asset2);
           FetchSettled (length (tasks v0)) (Some groupsJson1);
           ModelSettled (length (tasks v0)) loaded1] = Some v'
    ∧ modelActive asset2 v'
    ∧ Dom.loadingShown (dom v') = true
    ∧ Dom.loadingText (dom v') = TextLoadingModel (Some (System.label sys1)).
Proof.
  intros Hreach Hs1 Hs2. pose proof (reachable_Inv _ _ Hreach) as Hinv.
  set (n := length (tasks v0)).
  destruct (two_calls_overlap localeCompare v0 k1 k2 sys1 sys2 groupsJson2 asset2 loaded1
              Hinv Hs1 Hs2) as (v2 & Hrun2 & Hov2).
  fold n in Hov2.
  destruct (overlap_fetch2 localeCompare _ _ _ _ _ _ _ _ _ sys2 Hov2 Hs2) as (v3 & Hstep3 & Hov3).
  destruct (overlap_model2 localeCompare _ _ _ _ _ _ _ _ _ Hov3) as (v4 & Hstep4 & Hov4).
  destruct (overlap_fetch1 localeCompare _ _ _ _ _ _ _ _ _ sys1 (Some groupsJson1) Hov4 Hs1)
    as (v5 & Hstep5 & Hov5 & _).
  destruct (overlap_model1 localeCompare _ _ _ _ _ _ _ _ _ Hov5) as (v6 & Hstep6 & Hov6 & _).
  exists v6. split.
  { cbn [run] in Hrun2 |- *.
    destruct (step localeCompare v0 (CallLoadSystem k1)) as [v1|]; [|done].
    destruct (step localeCompare v1 (CallLoadSystem k2)) as [v2'|]; [|done].
    injection Hrun2 as ->. fold n. by rewrite Hstep3, Hstep4, Hstep5, Hstep6. }
  split; [by apply (ov_model _ _ _ _ _ _ _ _ _ _ Hov6)|].
  pose proof (ov_task1 _ _ _ _ _ _ _ _ _ _ Hov4) as Ht4.
  pose proof (ov_task1 _ _ _ _ _ _ _ _ _ _ Hov5) as Ht5.
  pose proof (ov_token _ _ _ _ _ _ _ _ _ _ Hov5) as Htok5.
  assert (v5 = onFetchSettled localeCompare n
                 (Task.mk k1 (loadToken v0 + 1) AwaitGroups) (Some groupsJson1) v4) as Hv5.
  { apply (inj Some). rewrite <- Hstep5. cbn [step]. by rewrite Ht4. }
  assert (v6 = onModelSettled n (Task.mk k1 (loadToken v0 + 1) AwaitModel) loaded1 v5) as Hv6.
  { apply (inj Some). rewrite <- Hstep6. cbn [step]. by rewrite Ht5. }
  destruct (onFetchSettled_overlay n (Task.mk k1 (loadToken v0 + 1) AwaitGroups)
              groupsJson1 v4 sys1 Ht4 Hs1) as [Hshown Htext].
  rewrite <- Hv5 in Hshown, Htext.
  destruct (onModelSettled_stale_overlay n (Task.mk k1 (loadToken v0 + 1) AwaitModel) loaded1 v5)
    as [Hshown' Htext'].
  { cbn [Task.token]. rewrite Htok5. lia. }
  rewrite <- Hv6 in Hshown', Htext'. by rewrite Hshown', Htext'.
Qed.

End Overlay.

Lemma overlay_left_up_witness :
  reachable codeUnitCompare initial
  ∧ ∃ v', run codeUnitCompare initial
            [CallLoadSystem "bones"; CallLoadSystem "muscles";
             FetchSettled 1 (Some quadricepsJson); ModelSettled 1 (Some sharedMaterialAsset);
             FetchSettled 0 (Some bonesJson); ModelSettled 0 (Some bonesAsset)] = Some v'
      ∧ modelActive sharedMaterialAsset v'
      ∧ Dom.loadingShown (dom v') = true
      ∧ Dom.loadingText (dom v') = TextLoadingModel (Some "Bones").
Proof.
  assert (reachable codeUnitCompare initial) as Hreach by (by exists []).
  split; [exact Hreach|].
  exact (overlay_left_up codeUnitCompare initial "bones" "muscles" _ _ bonesJson
           (Some bonesAsset) quadricepsJson sharedMaterialAsset Hreach eq_refl eq_refl).
Defined.

(** ** [disposeObject] *)

Lemma foldl_disposeMaterial_exact mats s :
  Store.disposedGeometries (foldl disposeMaterial s mats) = Store.disposedGeometries s
  ∧ Store.disposedMaterials (foldl disposeMaterial s mats)
    = Store.disposedMaterials s
      ++ omap (existingMaterial s) mats.
Proof.
  revert s. induction mats as [|r mats IH]; intros s; simpl.
  - by rewrite app_nil_r.
  - destruct (IH (disposeMaterial s r)) as [-> ->].
    assert (omap (existingMaterial (disposeMaterial s r)) mats
            = omap (existingMaterial s) mats) as ->.
    { apply list_omap_ext, Forall2_same_length_lookup. split; [done|].
      intros i r1 r2 H1 H2. rewrite H1 in H2. injection H2 as <-.
      unfold existingMaterial. by destruct (disposeMaterial_heap s r) as [_ ->]. }
    unfold disposeMaterial, existingMaterial. destruct r as [x|]; simpl; [|done].
    destruct (Store.materials s !! x); simpl; [|done]. by rewrite <- app_assoc.
Qed.

Lemma disposeNode_exact s a :
  Store.disposedGeometries (disposeNode s a)
  = Store.disposedGeometries s ++ (if hasMeshGeometry s a then [a] else [])
  ∧ Store.disposedMaterials (disposeNode s a) = Store.disposedMaterials s ++ meshMaterials s a.
Proof.
  unfold disposeNode, hasMeshGeometry, meshMaterials.
  destruct (Store.objects s !! a) as [o|]; [|by rewrite !app_nil_r].
  destruct (Object3D.isMesh o); [|by rewrite !app_nil_r]. simpl.
  match goal with |- context [foldl disposeMaterial ?s0 ?m] =>
    destruct (foldl_disposeMaterial_exact m s0) as [-> ->] end.
  destruct (Object3D.hasGeometry o); simpl; [done|by rewrite app_nil_r].
Qed.

(** X19: [disposeObject] changes no object and no material.  On a tree it
    calls [dispose] on the geometry of every mesh node that has one and on the
    material of every slot of every mesh node, in traversal order, and on
    nothing else: nothing of a node that is not a mesh, and a material that
    several meshes share once for each of them.  Without a root it does
    nothing. *)
Theorem disposeObject_exact (root : option Object3DRef) (s : Store.t) :
  let s' := disposeObject root s in
  Store.objects s' = Store.objects s
  ∧ Store.materials s' = Store.materials s
  ∧ Store.disposedGeometries s'
    = Store.disposedGeometries s ++ List.filter (hasMeshGeometry s) (default [] root)
  ∧ Store.disposedMaterials s'
    = Store.disposedMaterials s ++ concat (meshMaterials s <$> default [] root)
  ∧ (root = None → s' = s).
Proof.
  intros s'. subst s'. destruct (disposeObject_heap root s) as [Hobj Hmat].
  split; [done|]. split; [done|]. clear Hobj Hmat.
  destruct root as [nodes|]; simpl; [|by rewrite !app_nil_r].
  assert (Store.disposedGeometries (foldl disposeNode s nodes)
          = Store.disposedGeometries s ++ List.filter (hasMeshGeometry s) nodes
          ∧ Store.disposedMaterials (foldl disposeNode s nodes)
            = Store.disposedMaterials s ++ concat (meshMaterials s <$> nodes)) as [-> ->];
    [|done].
  revert s. induction nodes as [|a nodes IH]; intros s; simpl.
  - by rewrite !app_nil_r.
  - destruct (IH (disposeNode s a)) as [-> ->].
    destruct (disposeNode_exact s a) as [-> ->].
    destruct (disposeNode_heap s a) as [Hobj Hmat].
    assert (∀ b, hasMeshGeometry (disposeNode s a) b = hasMeshGeometry s b) as Hg.
    { intros b. unfold hasMeshGeometry. by rewrite Hobj. }
    assert (∀ b, meshMaterials (disposeNode s a) b = meshMaterials s b) as Hm.
    { intros b. unfold meshMaterials, existingMaterial. by rewrite Hobj, Hmat. }
    rewrite (filter_ext _ _ Hg). rewrite (list_fmap_ext _ _ nodes (λ _ b _, Hm b)).
    rewrite <- !app_assoc. by destruct (hasMeshGeometry s a).
Qed.

(** ** Taps *)

Lemma Pointer_no_down_no_pick st rest :
  Pointer.down st.1 = None → forallb (λ e, negb (Pointer.isDown e)) rest = true →
  (foldl Pointer.handle st rest).2 = st.2.
Proof.
  revert st. induction rest as [|e rest IH]; intros st Hdown Hrest; [done|].
  simpl in Hrest. apply andb_prop in Hrest as [He Hrest]. cbn [foldl].
  destruct e as [id x y|id x y hit|]; [done| |].
  - assert (Pointer.handle st (Pointer.Up id x y hit)
            = (Pointer.mk (Pointer.activePointers st.1 ∖ {[id]}) None, st.2)) as ->.
    { cbn [Pointer.handle]. unfold Pointer.pointerup. by rewrite Hdown. }
    by rewrite IH.
  - by rewrite IH.
Qed.

(** X20: a pointer that goes down while another one is down starts no tap:
    whatever pointers go up or are cancelled after that, nothing is picked
    until a pointer goes down again.  The same holds after
    [pointercancel]. *)
Theorem multi_touch_never_selects (p : Pointer.t) (v : Viewer) (id : Z) (x y : float)
    (rest : list Pointer.Event) :
  Pointer.activePointers p ∖ {[id]} ≠ ∅ →
  forallb (λ e, negb (Pointer.isDown e)) rest = true →
  (foldl Pointer.handle (Pointer.handle (p, v) (Pointer.Down id x y)) rest).2 = v
  ∧ (foldl Pointer.handle (Pointer.handle (p, v) Pointer.Cancel) rest).2 = v.
Proof.
  intros Hother Hrest. split.
  - rewrite Pointer_no_down_no_pick; [done| |done].
    cbn. rewrite bool_decide_eq_false_2; [done|].
    assert (∃ j, j ∈ Pointer.activePointers p ∧ j ≠ id) as (j & Hj & Hne).
    { apply set_choose_L in Hother as [j Hj]. exists j. set_solver. }
    intros Hsize. apply size_1_elem_of in Hsize as [z Hz].
    assert (j = z) by set_solver. assert (id = z) by set_solver. congruence.
  - by rewrite Pointer_no_down_no_pick.
Qed.

(** X21: with no pointer down, a pointer that goes down and up again picks
    what is under it exactly when it has not moved more than six pixels;
    either way no tap is pending afterwards. *)
Theorem single_pointer_tap (p : Pointer.t) (v : Viewer) (id : Z) (x0 y0 x y : float)
    (hit : option nat) :
  Pointer.activePointers p = ∅ →
  Pointer.handle (Pointer.handle (p, v) (Pointer.Down id x0 y0)) (Pointer.Up id x y hit)
  = (Pointer.mk ∅ None, if Pointer.isDrag (x0, y0) x y then v else pick hit v).
Proof.
  intros Hnone. cbn [Pointer.handle fst snd].
  unfold Pointer.pointerup, Pointer.pointerdown. cbn [fst snd Pointer.down Pointer.activePointers].
  rewrite Hnone. replace (∅ ∪ {[id]}) with ({[id]} : gset Z) by set_solver.
  rewrite bool_decide_eq_true_2 by apply size_singleton.
  replace ({[id]} ∖ {[id]}) with (∅ : gset Z) by set_solver.
  by destruct (Pointer.isDrag _ _ _).
Qed.

Lemma multi_touch_never_selects_witness :
  Pointer.activePointers (Pointer.mk {[1%Z]} (Some (0, 0)%float)) ∖ {[2%Z]} ≠ ∅
  ∧ (foldl Pointer.handle
       (Pointer.handle (Pointer.mk {[1%Z]} (Some (0, 0)%float), musclesLoaded)
          (Pointer.Down 2 5 5))
       [Pointer.Up 2 5 5 (Some 1); Pointer.Up 1 0 0 (Some 1)]).2 = musclesLoaded.
Proof.
  assert (Pointer.activePointers (Pointer.mk {[1%Z]} (Some (0, 0)%float)) ∖ {[2%Z]} ≠ ∅)
    as Hother.
  { cbn. intros H. assert (1%Z ∈ ({[1%Z]} ∖ {[2%Z]} : gset Z)) as Hin by set_solver.
    rewrite H in Hin. set_solver. }
  split; [exact Hother|].
  exact (proj1 (multi_touch_never_selects _ musclesLoaded 2 5 5
                  [Pointer.Up 2 5 5 (Some 1); Pointer.Up 1 0 0 (Some 1)] Hother eq_refl)).
Defined.

Lemma single_pointer_tap_witness :
  Pointer.activePointers Pointer.initial = ∅
  ∧ Pointer.handle (Pointer.handle (Pointer.initial, musclesLoaded) (Pointer.Down 1 10 10))
      (Pointer.Up 1 13 14 (Some 3))
    = (Pointer.mk ∅ None,
       if Pointer.isDrag (10, 10)%float 13 14 then musclesLoaded
       else pick (Some 3) musclesLoaded).
Proof.
  split; [reflexivity|].
  exact (single_pointer_tap Pointer.initial musclesLoaded 1 10 10 13 14 (Some 3) eq_refl).
Defined.

(** Six pixels are a tap, seven a drag; so are five pixels along the
    diagonal. *)
Example tap_and_drag :
  Pointer.isDrag (10, 10)%float 16 10 = false
  ∧ Pointer.isDrag (10, 10)%float 17 10 = true
  ∧ Pointer.isDrag (10, 10)%float 13 14 = false
  ∧ Pointer.isDrag (10, 10)%float 15 15 = true.
Proof. vm_compute. repeat split; reflexivity. Qed.

(** * The earlier page: selection and materials *)

Section PageFacts.
Import Page.

Lemma sameButMaterial_refl o : sameButMaterial o o.
Proof. by repeat split. Qed.

Lemma sameButMaterial_trans o1 o2 o3 :
  sameButMaterial o1 o2 → sameButMaterial o2 o3 → sameButMaterial o1 o3.
Proof.
  intros (?&?&?&?&?&?&?) (?&?&?&?&?&?&?). repeat split; congruence.
Qed.

Lemma sameShape_refl objs : sameShape objs objs.
Proof. split; [done|]. intros a o Ha. exists o. split; [done|apply sameButMaterial_refl]. Qed.

Lemma sameShape_trans o1 o2 o3 : sameShape o1 o2 → sameShape o2 o3 → sameShape o1 o3.
Proof.
  intros [Hl1 H1] [Hl2 H2]. split; [congruence|].
  intros a o Ha. destruct (H1 a o Ha) as (o' & Ha' & Hs).
  destruct (H2 a o' Ha') as (o'' & Ha'' & Hs'). exists o''. split; [done|].
  by eapply sameButMaterial_trans.
Qed.

Lemma sameShape_isMeshAt objs objs' a : sameShape objs objs' → isMeshAt objs' a = isMeshAt objs a.
Proof.
  intros [Hl H]. unfold isMeshAt. destruct (objs !! a) as [o|] eqn:Ha.
  - destruct (H a o Ha) as (o' & -> & Hs). apply Hs.
  - rewrite (proj2 (lookup_ge_None objs' a)); [done|].
    rewrite Hl. by apply lookup_ge_None.
Qed.

Lemma sameShape_meshNamed objs objs' n a :
  sameShape objs objs' → meshNamed objs' n a = meshNamed objs n a.
Proof.
  intros [Hl H]. unfold meshNamed. destruct (objs !! a) as [o|] eqn:Ha.
  - destruct (H a o Ha) as (o' & -> & Hm & Hn & _). by rewrite Hm, Hn.
  - rewrite (proj2 (lookup_ge_None objs' a)); [done|].
    rewrite Hl. by apply lookup_ge_None.
Qed.

Lemma sameShape_entryOk objs objs' e : sameShape objs objs' → entryOk objs e → entryOk objs' e.
Proof.
  intros Hs [Hr Hi]. split.
  - intros a Ha. rewrite (proj1 Hs). by apply Hr.
  - intros n. rewrite Hi. apply List.filter_ext. intros a.
    symmetry. by apply sameShape_meshNamed.
Qed.

(** One assignment to [material], and a loop of them. *)
Lemma restoreBase_lookup objs m a o :
  objs !! a = Some o →
  ∃ o', restoreBase objs m !! a = Some o' ∧ sameButMaterial o o'
        ∧ material o' = (if decide (a = m)
                         then match baseMat o with Some b => Some b | None => material o end
                         else material o).
Proof.
  intros Ha. unfold restoreBase. destruct (decide (a = m)) as [->|Hne].
  - rewrite Ha. destruct (baseMat o) as [b|] eqn:Hb.
    + eexists. split; [apply list_lookup_insert_eq; by eapply lookup_lt_Some|].
      split; [by repeat split|done].
    + exists o. split; [done|]. split; [apply sameButMaterial_refl|done].
  - exists o. split; [|split; [apply sameButMaterial_refl|done]].
    destruct (objs !! m) as [om|]; [|done].
    destruct (baseMat om); [|done]. by rewrite list_lookup_insert_ne.
Qed.

Lemma restoreBase_length objs m : length (restoreBase objs m) = length objs.
Proof.
  unfold restoreBase. destruct (objs !! m) as [o|]; [|done].
  destruct (baseMat o); [|done]. by rewrite length_insert.
Qed.

Lemma foldl_restoreBase_length l objs : length (foldl restoreBase objs l) = length objs.
Proof.
  revert objs. induction l as [|m l IH]; intros objs; [done|].
  simpl. by rewrite IH, restoreBase_length.
Qed.

Lemma foldl_restoreBase_lookup l objs a o :
  objs !! a = Some o →
  ∃ o', foldl restoreBase objs l !! a = Some o' ∧ sameButMaterial o o'
        ∧ material o' = (if bool_decide (a ∈ l)
                         then match baseMat o with Some b => Some b | None => material o end
                         else material o).
Proof.
  revert objs o. induction l as [|m l IH]; intros objs o Ha.
  - exists o. split; [done|]. split; [apply sameButMaterial_refl|done].
  - destruct (restoreBase_lookup objs m a o Ha) as (o1 & H1 & Hs1 & Hm1).
    destruct (IH _ _ H1) as (o' & H' & Hs' & Hm'). exists o'.
    split; [done|]. split; [by eapply sameButMaterial_trans|].
    rewrite Hm'. destruct Hs1 as (_&_&_&_&Hb&_). rewrite Hb.
    destruct (decide (a = m)) as [->|Hne].
    + rewrite (bool_decide_eq_true_2 (m ∈ m :: l)) by set_solver.
      rewrite Hm1. destruct (baseMat o); by destruct (bool_decide (m ∈ l)).
    + rewrite Hm1. destruct (bool_decide (a ∈ l)) eqn:Hl.
      * apply bool_decide_eq_true in Hl. rewrite bool_decide_eq_true_2; [done|set_solver].
      * apply bool_decide_eq_false in Hl. rewrite bool_decide_eq_false_2; [done|set_solver].
Qed.

Lemma foldl_restoreBase_sameShape l objs : sameShape objs (foldl restoreBase objs l).
Proof.
  split; [apply foldl_restoreBase_length|]. intros a o Ha.
  destruct (foldl_restoreBase_lookup l objs a o Ha) as (o' & H' & Hs & _). by exists o'.
Qed.

Lemma highlight_lookup objs m a o :
  objs !! a = Some o →
  ∃ o', highlight objs m !! a = Some o' ∧ sameButMaterial o o'
        ∧ material o' = (if decide (a = m) then Some highlightMat else material o).
Proof.
  intros Ha. unfold highlight. destruct (decide (a = m)) as [->|Hne].
  - rewrite Ha. eexists. split; [apply list_lookup_insert_eq; by eapply lookup_lt_Some|].
    split; [by repeat split|done].
  - exists o. split; [|split; [apply sameButMaterial_refl|done]].
    destruct (objs !! m) as [om|]; [|done]. by rewrite list_lookup_insert_ne.
Qed.

Lemma highlight_length objs m : length (highlight objs m) = length objs.
Proof.
  unfold highlight. destruct (objs !! m) as [o|]; [|done]. by rewrite length_insert.
Qed.

Lemma foldl_highlight_length l objs : length (foldl highlight objs l) = length objs.
Proof.
  revert objs. induction l as [|m l IH]; intros objs; [done|].
  simpl. by rewrite IH, highlight_length.
Qed.

Lemma foldl_highlight_lookup l objs a o :
  objs !! a = Some o →
  ∃ o', foldl highlight objs l !! a = Some o' ∧ sameButMaterial o o'
        ∧ material o' = (if bool_decide (a ∈ l) then Some highlightMat else material o).
Proof.
  revert objs o. induction l as [|m l IH]; intros objs o Ha.
  - exists o. split; [done|]. split; [apply sameButMaterial_refl|done].
  - destruct (highlight_lookup objs m a o Ha) as (o1 & H1 & Hs1 & Hm1).
    destruct (IH _ _ H1) as (o' & H' & Hs' & Hm'). exists o'.
    split; [done|]. split; [by eapply sameButMaterial_trans|].
    rewrite Hm'. destruct (decide (a = m)) as [->|Hne].
    + rewrite (bool_decide_eq_true_2 (m ∈ m :: l)) by set_solver.
      rewrite Hm1. by destruct (bool_decide (m ∈ l)).
    + rewrite Hm1. destruct (bool_decide (a ∈ l)) eqn:Hl.
      * apply bool_decide_eq_true in Hl. rewrite bool_decide_eq_true_2; [done|set_solver].
      * apply bool_decide_eq_false in Hl. rewrite bool_decide_eq_false_2; [done|set_solver].
Qed.

Lemma foldl_highlight_sameShape l objs : sameShape objs (foldl highlight objs l).
Proof.
  split; [apply foldl_highlight_length|]. intros a o Ha.
  destruct (foldl_highlight_lookup l objs a o Ha) as (o' & H' & Hs & _). by exists o'.
Qed.

Lemma sameShape_lookup objs objs' a o' :
  sameShape objs objs' → objs' !! a = Some o' →
  ∃ o, objs !! a = Some o ∧ sameButMaterial o o'.
Proof.
  intros [Hl H] Ha'. destruct (objs !! a) as [o|] eqn:Ha.
  - destruct (H a o Ha) as (o2 & Ha2 & Hs). exists o. split; [done|]. congruence.
  - apply lookup_ge_None in Ha. apply lookup_lt_Some in Ha'. lia.
Qed.

End PageFacts.

(** * The earlier page: what every step keeps *)

Section PageInv.
Import Page.

Lemma Inv_ext st st' :
  nextMat st' = nextMat st →
  (∀ l, l ∈ loads st' → ∃ l0, l0 ∈ loads st ∧ loadMat l = loadMat l0) →
  objects st' = objects st →
  selectedMeshes st' = selectedMeshes st →
  loaded st' = loaded st →
  disposedMaterials st' = disposedMaterials st →
  Inv st → Inv st'.
Proof.
  intros Hn Hl Ho Hs Hld Hd [I1 I2 I3 I4 I5 I6]. split.
  - by rewrite Hn.
  - intros l Hin. destruct (Hl l Hin) as (l0 & Hin0 & ->). by apply I2.
  - unfold wears. rewrite Ho, Hs. apply I3.
  - rewrite Ho, Hs. apply I4.
  - rewrite Ho, Hld. apply I5.
  - by rewrite Hd.
Qed.

Lemma clearSelection_objects st :
  objects (clearSelection st) = foldl restoreBase (objects st) (selectedMeshes st).
Proof. done. Qed.

Lemma selectMeshes_objects meshes label st :
  objects (selectMeshes meshes label st) = foldl highlight (objects (clearSelection st)) meshes.
Proof. done. Qed.

Lemma Inv_clearSelection st : Inv st → Inv (clearSelection st).
Proof.
  intros [I1 I2 I3 I4 I5 I6]. split; simpl; try done.
  - intros a o' Ha' Hmesh. rewrite clearSelection_objects in Ha'.
    destruct (sameShape_lookup _ _ _ _ (foldl_restoreBase_sameShape (selectedMeshes st) (objects st)) Ha')
      as (o & Ha & _).
    destruct (foldl_restoreBase_lookup (selectedMeshes st) _ _ _ Ha) as (o2 & Ha2 & Hs & Hm).
    assert (o2 = o') as -> by congruence.
    destruct Hs as (Hmesh' & _ & _ & _ & Hb & _).
    destruct (I3 a o Ha) as (b & Hbase & Hne & Hmat); [congruence|].
    exists b. split; [congruence|]. split; [done|].
    rewrite Hm, Hbase, Hmat. by destruct (bool_decide (a ∈ selectedMeshes st)).
  - intros a Ha. by apply elem_of_nil in Ha.
  - intros k e Hin. eapply sameShape_entryOk; [apply foldl_restoreBase_sameShape|]. by eapply I5.
Qed.

Lemma clearSelection_selected st : selectedMeshes (clearSelection st) = [].
Proof. done. Qed.

Lemma clearSelection_sameShape st : sameShape (objects st) (objects (clearSelection st)).
Proof. apply foldl_restoreBase_sameShape. Qed.

Lemma Inv_selectMeshes meshes label st :
  Inv st → (∀ a, a ∈ meshes → isMeshAt (objects st) a = true) →
  Inv (selectMeshes meshes label st).
Proof.
  intros HI Hmeshes. pose proof (Inv_clearSelection st HI) as [I1 I2 I3 I4 I5 I6].
  pose proof (clearSelection_sameShape st) as Hsh.
  set (st1 := clearSelection st) in *.
  assert (Hsh2 : sameShape (objects st1) (foldl highlight (objects st1) meshes))
    by apply foldl_highlight_sameShape.
  split; simpl; try done.
  - intros a o' Ha' Hmesh. rewrite selectMeshes_objects in Ha'. fold st1 in Ha'.
    destruct (sameShape_lookup _ _ _ _ Hsh2 Ha') as (o & Ha & _).
    destruct (foldl_highlight_lookup meshes _ _ _ Ha) as (o2 & Ha2 & Hs & Hm).
    assert (o2 = o') as -> by congruence.
    destruct Hs as (Hmesh' & _ & _ & _ & Hb & _).
    destruct (I3 a o Ha) as (b & Hbase & Hne & Hmat); [congruence|].
    exists b. split; [congruence|]. split; [done|].
    rewrite Hm, Hmat. simpl. by destruct (bool_decide (a ∈ meshes)).
  - intros a Ha. change (isMeshAt (foldl highlight (objects st1) meshes) a = true).
    rewrite (sameShape_isMeshAt _ _ a Hsh2).
    rewrite (sameShape_isMeshAt _ _ a Hsh). by apply Hmeshes.
  - intros k e Hin. change (entryOk (foldl highlight (objects st1) meshes) e).
    eapply sameShape_entryOk; [exact Hsh2|]. by eapply I5.
Qed.

Lemma firstMesh_Some fuel objs a m : firstMesh fuel objs a = Some m → isMeshAt objs m = true.
Proof.
  revert a. induction fuel as [|fuel IH]; intros a; simpl;
    destruct (objs !! a) as [o|] eqn:Ha; try done.
  - destruct (isMesh o) eqn:Hm; [|done]. intros [= <-]. unfold isMeshAt. by rewrite Ha.
  - destruct (isMesh o) eqn:Hm.
    + intros [= <-]. unfold isMeshAt. by rewrite Ha.
    + destruct (parent o) as [p|]; [apply IH|done].
Qed.

Lemma Inv_set_info i st : Inv st → Inv (set_info i st).
Proof. apply Inv_ext; try done. intros x Hx. by exists x. Qed.

Lemma Inv_pick hit st : Inv st → Inv (pick hit st).
Proof.
  intros HI. unfold pick. destruct hit as [a|].
  - destruct (firstMesh _ _ a) as [m|] eqn:Hf; [|done].
    apply Inv_selectMeshes; [done|]. intros x Hx. apply list_elem_of_singleton in Hx as ->.
    by eapply firstMesh_Some.
  - by apply Inv_set_info, Inv_clearSelection.
Qed.

(** [disposeObject3D] touches the two logs only: it adds the meshes of the
    nodes that have a geometry, and what each mesh of the nodes wears. *)
Lemma page_disposeNode_exact st a :
  disposeNode st a =
  set_disposedMaterials
    (disposedMaterials st
     ++ omap (λ a, objects st !! a ≫= λ o, if isMesh o then material o else None) [a])
    (set_disposedGeometries
       (disposedGeometries st
        ++ List.filter (λ a, match objects st !! a with
                             | Some o => isMesh o && hasGeometry o
                             | None => false
                             end) [a])
       st).
Proof.
  unfold disposeNode. destruct st as [objs ? ? ? ? ? ? ? ? ? geos mats ? ? ?]. simpl.
  destruct (objs !! a) as [o|]; simpl.
  - destruct (isMesh o), (hasGeometry o), (material o); simpl;
      by rewrite ?app_nil_r.
  - by rewrite !app_nil_r.
Qed.

Lemma disposeObject3D_exact nodes st :
  disposeObject3D nodes st =
  set_disposedMaterials
    (disposedMaterials st
     ++ omap (λ a, objects st !! a ≫= λ o, if isMesh o then material o else None) nodes)
    (set_disposedGeometries
       (disposedGeometries st
        ++ List.filter (λ a, match objects st !! a with
                             | Some o => isMesh o && hasGeometry o
                             | None => false
                             end) nodes)
       st).
Proof.
  unfold disposeObject3D. revert st. induction nodes as [|a nodes IH]; intros st.
  - destruct st. simpl. by rewrite !app_nil_r.
  - change (foldl disposeNode st (a :: nodes)) with (foldl disposeNode (disposeNode st a) nodes).
    rewrite IH, page_disposeNode_exact. destruct st as [objs ? ? ? ? ? ? ? ? ? geos mats ? ? ?].
    simpl. destruct (objs !! a) as [o|]; simpl;
      [destruct (isMesh o), (hasGeometry o), (material o); simpl|];
      by rewrite <- ?app_assoc, ?app_nil_r.
Qed.

Lemma Inv_unloadSystem sysKey st : Inv st → Inv (unloadSystem sysKey st).
Proof.
  intros HI. unfold unloadSystem. destruct (mapGet sysKey (loaded st)) as [entry|] eqn:Hget; [|done].
  pose proof (Inv_clearSelection st HI) as [I1 I2 I3 I4 I5 I6].
  pose proof (clearSelection_selected st) as Hsel.
  set (st1 := clearSelection st) in *. clearbody st1.
  rewrite disposeObject3D_exact. split; cbn; try done.
  - intros k e Hin. apply I5 with k.
    apply list_elem_of_In, List.filter_In in Hin as [Hin _]. by apply list_elem_of_In.
  - intros [Hin|Hin]%elem_of_app; [done|].
    apply list_elem_of_omap in Hin as (a & _ & Ha).
    destruct (objects st1 !! a) as [o|] eqn:Ho; [|done]. simpl in Ha.
    destruct (isMesh o) eqn:Hm; [|done].
    destruct (I3 a o Ho Hm) as (b & _ & Hne & Hmat).
    rewrite Hsel in Hmat. rewrite Hmat in Ha. simpl in Ha. congruence.
Qed.

Lemma Inv_loadSystem_call sysKey st : Inv st → Inv (loadSystem_call sysKey st).
Proof.
  intros [I1 I2 I3 I4 I5 I6]. unfold loadSystem_call.
  destruct (mapHas sysKey (loaded st)); [done|].
  assert (Hloads : ∀ p l, l ∈ loads st ++ [mkLoad sysKey (nextMat st) p] →
                          loadMat l ≠ highlightMat).
  { intros p l [Hin| ->%list_elem_of_singleton]%elem_of_app; [by apply I2|done]. }
  destruct (SYSTEMS sysKey); split; cbn; try done; apply Hloads.
Qed.

Lemma Inv_setLoadPhase i p st : Inv st → Inv (setLoadPhase i p st).
Proof.
  intros HI. unfold setLoadPhase. destruct (loads st !! i) as [l|] eqn:Hl; [|done].
  revert HI. apply Inv_ext; try done. cbn. intros l' Hin.
  apply list_elem_of_lookup in Hin as [j Hj].
  destruct (decide (i = j)) as [<-|Hne].
  - rewrite list_lookup_insert_eq in Hj by (by eapply lookup_lt_Some).
    injection Hj as <-. exists l. split; [by eapply list_elem_of_lookup_2|done].
  - rewrite list_lookup_insert_ne in Hj by done. exists l'.
    split; [by eapply list_elem_of_lookup_2|done].
Qed.

Lemma Inv_setRenderPhase i p st : Inv st → Inv (setRenderPhase i p st).
Proof.
  intros HI. unfold setRenderPhase. destruct (renders st !! i); [|done].
  revert HI. apply Inv_ext; try done. intros l' Hl. by exists l'.
Qed.

Lemma Inv_renderChipsFromSearch_call st : Inv st → Inv (renderChipsFromSearch_call st).
Proof.
  unfold renderChipsFromSearch_call. change (metaCache (set_chips [] st)) with (metaCache st).
  destruct (mapGet "muscles" (metaCache st)); apply Inv_ext; try done;
    intros x Hx; by exists x.
Qed.

Lemma Inv_renderChipsFromSearch_resume cmp i r fetched st :
  Inv st → Inv (renderChipsFromSearch_resume cmp i r fetched st).
Proof.
  intros HI. unfold renderChipsFromSearch_resume.
  destruct (renderCached r); [|destruct fetched]; apply Inv_setRenderPhase; try done;
    revert HI; apply Inv_ext; try done; intros x Hx; by exists x.
Qed.

Lemma instantiate_isMesh bo k mat n : isMesh (instantiate bo k mat n) = nodeIsMesh n.
Proof. unfold instantiate. by destruct (nodeIsMesh n). Qed.

Lemma instantiate_objName bo k mat n : objName (instantiate bo k mat n) = nodeName n.
Proof. unfold instantiate. by destruct (nodeIsMesh n). Qed.

Lemma instantiate_hasGeometry bo k mat n :
  hasGeometry (instantiate bo k mat n) = nodeHasGeometry n.
Proof. unfold instantiate. by destruct (nodeIsMesh n). Qed.

Lemma instantiate_parent bo k mat n :
  parent (instantiate bo k mat n) = (λ p, bo + p) <$> nodeParent n.
Proof. unfold instantiate. by destruct (nodeIsMesh n). Qed.

Lemma instantiate_mats bo k mat n :
  nodeIsMesh n = true →
  material (instantiate bo k mat n) = Some mat ∧ baseMat (instantiate bo k mat n) = Some mat.
Proof. unfold instantiate. by intros ->. Qed.

(** The index built by the traversal. *)
Lemma foldl_indexMesh objs nodes acc n :
  default [] (mapGet n (foldl (indexMesh objs) acc nodes))
  = default [] (mapGet n acc) ++ List.filter (meshNamed objs n) nodes.
Proof.
  revert acc. induction nodes as [|a nodes IH]; intros acc; simpl.
  - by rewrite app_nil_r.
  - rewrite IH. unfold indexMesh.
    assert (Hn : meshNamed objs n a = match objs !! a with
                                      | Some o => isMesh o && String.eqb (objName o) n
                                      | None => false
                                      end) by done.
    rewrite Hn. clear Hn. destruct (objs !! a) as [o|]; [|done].
    destruct (isMesh o); [|done]. simpl.
    destruct (String.eqb_spec (objName o) n) as [->|Hne].
    + rewrite mapGet_mapSet_eq. simpl. by rewrite <- app_assoc.
    + by rewrite mapGet_mapSet_ne.
Qed.

Lemma elem_of_mapSet {V} k (v : V) m k' v' :
  (k', v') ∈ mapSet k v m → (k', v') = (k, v) ∨ (k', v') ∈ m.
Proof.
  induction m as [|[k0 v0] m IH]; simpl.
  - intros ->%list_elem_of_singleton. by left.
  - destruct (decide (k = k0)) as [->|Hne].
    + intros [->|Hin]%elem_of_cons; [by left|]. right. by apply elem_of_cons; right.
    + intros [->|Hin]%elem_of_cons; [right; by apply elem_of_cons; left|].
      destruct (IH Hin) as [?|?]; [by left|]. right. by apply elem_of_cons; right.
Qed.

Lemma app_isMeshAt objs new a : a < length objs → isMeshAt (objs ++ new) a = isMeshAt objs a.
Proof. intros Ha. unfold isMeshAt. by rewrite lookup_app_l. Qed.

Lemma app_meshNamed objs new n a :
  a < length objs → meshNamed (objs ++ new) n a = meshNamed objs n a.
Proof. intros Ha. unfold meshNamed. by rewrite lookup_app_l. Qed.

Lemma isMeshAt_lt objs a : isMeshAt objs a = true → a < length objs.
Proof.
  unfold isMeshAt. destruct (objs !! a) eqn:Ha; [|done]. intros _. by eapply lookup_lt_Some.
Qed.

Lemma app_entryOk objs new e : entryOk objs e → entryOk (objs ++ new) e.
Proof.
  intros [Hr Hi]. split.
  - intros a Ha. rewrite length_app. specialize (Hr a Ha). lia.
  - intros n. rewrite Hi. apply List.filter_ext_in. intros a Ha.
    symmetry. apply app_meshNamed, Hr. by apply list_elem_of_In.
Qed.

Lemma Inv_loadSystem_resume i l asset st :
  Inv st → loads st !! i = Some l → Inv (loadSystem_resume i l asset st).
Proof.
  intros [I1 I2 I3 I4 I5 I6] Hl. unfold loadSystem_resume.
  assert (Hmat : loadMat l ≠ highlightMat) by (by eapply I2, list_elem_of_lookup_2).
  set (bo := length (objects st)).
  set (new := instantiate bo (loadKey l) (loadMat l) <$> asset).
  set (nodes := seq bo (length asset)).
  cbn [objects set_objects set_scene set_loaded loaded set_info].
  set (index := foldl (indexMesh (objects st ++ new)) [] nodes).
  match goal with |- Inv (if _ then renderChipsFromSearch_call ?s else ?s) =>
    assert (Inv s) as HI; [|destruct (String.eqb _ _); [by apply Inv_renderChipsFromSearch_call|done]]
  end.
  apply Inv_setLoadPhase, Inv_set_info. split; cbn; try done.
  - intros a o Ha Hmesh. change ((objects st ++ new) !! a = Some o) in Ha.
    change (selectedMeshes (set_loaded _ _)) with (selectedMeshes st).
    destruct (decide (a < bo)) as [Hlt|Hge].
    + rewrite lookup_app_l in Ha by done. by apply I3.
    + rewrite lookup_app_r in Ha by lia. unfold new in Ha.
      rewrite list_lookup_fmap in Ha.
      destruct (asset !! _) as [n|]; [|done]. injection Ha as <-.
      rewrite instantiate_isMesh in Hmesh.
      destruct (instantiate_mats bo (loadKey l) (loadMat l) n Hmesh) as [Hm Hb].
      exists (loadMat l). split; [done|]. split; [done|]. rewrite Hm.
      rewrite bool_decide_eq_false_2; [done|].
      intros Hin. apply I4, isMeshAt_lt in Hin. unfold bo in Hge. lia.
  - intros a Ha. rewrite app_isMeshAt; [by apply I4|]. by apply isMeshAt_lt, I4.
  - intros k e [[= -> ->]|Hin]%elem_of_mapSet.
    + split; cbn.
      * intros a Ha%elem_of_seq. rewrite length_app. unfold new. rewrite length_fmap.
        unfold bo in *. lia.
      * intros n. unfold index. by rewrite foldl_indexMesh.
    + by eapply app_entryOk, I5.
Qed.

Lemma chipMeshes_mesh objs mus it a :
  entryOk objs mus → a ∈ chipMeshes mus it → isMeshAt objs a = true ∧ a ∈ root mus.
Proof.
  intros [Hr Hi] Hin. unfold chipMeshes in Hin.
  apply list_elem_of_In, in_concat in Hin as (l & Hl & Ha).
  apply list_elem_of_In, list_elem_of_fmap in Hl as (r & -> & _).
  rewrite Hi in Ha. apply List.filter_In in Ha as [Ha Hm].
  split; [|by apply list_elem_of_In].
  unfold meshNamed in Hm. unfold isMeshAt. destruct (objs !! a); [|done].
  by apply andb_true_iff in Hm as [-> _].
Qed.

Lemma Inv_chipClick i st : Inv st → Inv (chipClick i st).
Proof.
  intros HI. unfold chipClick. destruct (chips st !! i) as [chip|]; [|done].
  case_bool_decide; [by apply Inv_set_info, Inv_clearSelection|].
  destruct (mapGet "muscles" (loaded st)) as [mus|] eqn:Hmus; [|by apply Inv_set_info].
  match goal with |- context [selectMeshes _ _ ?s] =>
    assert (Inv s) as HI' by (revert HI; apply Inv_ext; try done; intros x Hx; by exists x)
  end.
  destruct (chipMeshes mus (item chip)) as [|m ms] eqn:Hmeshes; [by apply Inv_set_info|].
  apply Inv_selectMeshes; [done|]. intros a Ha. rewrite <- Hmeshes in Ha.
  eapply chipMeshes_mesh in Ha as [Ha _]; [exact Ha|].
  eapply (inv_loaded st HI), mapGet_elem_of, Hmus.
Qed.

Lemma page_Inv_initial : Inv initial.
Proof.
  split; try done.
  - intros l Hl. by apply elem_of_nil in Hl.
  - intros a Ha. by apply elem_of_nil in Ha.
  - intros k e Hin. by apply elem_of_nil in Hin.
  - by intros Hin%elem_of_nil.
Qed.

Lemma page_Inv_step cmp st e st' : Inv st → step cmp st e = Some st' → Inv st'.
Proof.
  intros HI. destruct e as [k|k|i res| |text| |i fetched|i|hit|]; simpl.
  - destruct (SYSTEMS k); [| |by intros [= <-]];
      (destruct (mapHas k (loaded st)); intros [= <-];
       [by apply Inv_unloadSystem|by apply Inv_loadSystem_call]).
  - intros [= <-]. by apply Inv_loadSystem_call.
  - destruct (loads st !! i) as [l|] eqn:Hl; [|done].
    destruct (loadPhase l); try done. destruct res as [asset|]; intros [= <-].
    + by apply Inv_loadSystem_resume.
    + by apply Inv_setLoadPhase.
  - intros [= <-]. by apply Inv_renderChipsFromSearch_call.
  - intros [= <-]. apply Inv_renderChipsFromSearch_call. revert HI.
    apply Inv_ext; try done. intros x Hx. by exists x.
  - intros [= <-]. apply Inv_renderChipsFromSearch_call. revert HI.
    apply Inv_ext; try done. intros x Hx. by exists x.
  - destruct (renders st !! i) as [r|]; [|done]. destruct (renderPhase r); try done.
    intros [= <-]. by apply Inv_renderChipsFromSearch_resume.
  - intros [= <-]. by apply Inv_chipClick.
  - intros [= <-]. by apply Inv_pick.
  - intros [= <-]. by apply Inv_set_info, Inv_clearSelection.
Qed.

Lemma page_Inv_run cmp es st st' : Inv st → run cmp st es = Some st' → Inv st'.
Proof.
  revert st. induction es as [|e es IH]; intros st HI; simpl.
  - by intros [= <-].
  - destruct (step cmp st e) as [st1|] eqn:Hstep; [|done].
    apply IH. by eapply page_Inv_step.
Qed.

Lemma page_reachable_Inv cmp st : reachable cmp st → Inv st.
Proof. intros [es Hrun]. eapply page_Inv_run; [apply page_Inv_initial|exact Hrun]. Qed.

End PageInv.

(** * The earlier page: highlight, index and disposal *)

Section PageSelection.
Import Page.

Lemma opened_reachable : reachable codeUnitCompare opened.
Proof. exists (startup tinyBones tinyAsset tinyGroups). vm_compute. reflexivity. Qed.

Lemma chipClicked_reachable : reachable codeUnitCompare chipClicked.
Proof.
  exists (startup tinyBones tinyAsset tinyGroups ++ [ChipClick 0]). vm_compute. reflexivity.
Qed.

Lemma musclesUnloaded_reachable : reachable codeUnitCompare musclesUnloaded.
Proof.
  exists (startup tinyBones tinyAsset tinyGroups ++ [ChipClick 0; ClickSystem "muscles"]).
  vm_compute. reflexivity.
Qed.

(** X22: on the earlier page, whatever has happened, a mesh wears the
    highlight material exactly when it is among the selected meshes, and a
    mesh that is not selected wears the base material of its system. *)
Theorem page_highlight_iff_selected cmp st a o :
  reachable cmp st → objects st !! a = Some o → isMesh o = true →
  (material o = Some highlightMat ↔ a ∈ selectedMeshes st)
  ∧ (a ∉ selectedMeshes st → material o = baseMat o).
Proof.
  intros Hreach Ha Hmesh. pose proof (page_reachable_Inv cmp st Hreach) as [_ _ I3 _ _ _].
  destruct (I3 a o Ha Hmesh) as (b & Hb & Hne & Hmat). rewrite Hmat, Hb.
  case_bool_decide as Hsel; split.
  - by split.
  - done.
  - split; [|done]. intros [= ->]. done.
  - done.
Qed.

Lemma page_highlight_iff_selected_witness :
  reachable codeUnitCompare chipClicked
  ∧ objects chipClicked !! 3 = Some (mkObj true "Biceps.l" true (Some 2) (Some 0) (Some 2)
                                       (Some "muscles") (Some "Biceps.l"))
  ∧ (Some 0 = Some highlightMat ↔ 3 ∈ selectedMeshes chipClicked)
  ∧ (3 ∉ selectedMeshes chipClicked → Some 0 = Some 2).
Proof.
  assert (objects chipClicked !! 3
          = Some (mkObj true "Biceps.l" true (Some 2) (Some 0) (Some 2)
                    (Some "muscles") (Some "Biceps.l"))) as Ho by (vm_compute; reflexivity).
  split; [exact chipClicked_reachable|]. split; [exact Ho|].
  exact (page_highlight_iff_selected codeUnitCompare chipClicked 3 _
           chipClicked_reachable Ho eq_refl).
Defined.

(** X23: on the earlier page [dispose] is never called on the highlight
    material, whatever is unloaded and whatever was selected at the time. *)
Theorem page_highlight_never_disposed cmp st :
  reachable cmp st → highlightMat ∉ disposedMaterials st.
Proof. intros Hreach. apply (inv_disposed st), (page_reachable_Inv cmp st Hreach). Qed.

Lemma page_highlight_never_disposed_witness :
  reachable codeUnitCompare musclesUnloaded
  ∧ highlightMat ∉ disposedMaterials musclesUnloaded.
Proof.
  split; [exact musclesUnloaded_reachable|].
  exact (page_highlight_never_disposed codeUnitCompare musclesUnloaded
           musclesUnloaded_reachable).
Defined.

(** X24: the index [rawToMeshes] of a loaded system lists under every name
    exactly the meshes of the system's root that have this name, in
    [traverse] order; a name no mesh has is not in it or has no mesh. *)
Theorem page_index_describes_root cmp st sysKey entry n :
  reachable cmp st → mapGet sysKey (loaded st) = Some entry →
  default [] (mapGet n (rawToMeshes entry))
  = List.filter (meshNamed (objects st) n) (root entry).
Proof.
  intros Hreach Hget. pose proof (page_reachable_Inv cmp st Hreach) as HI.
  apply (inv_loaded st HI sysKey entry). by apply mapGet_elem_of.
Qed.

Lemma page_index_describes_root_witness :
  reachable codeUnitCompare opened
  ∧ mapGet "muscles" (loaded opened)
    = Some (mkEntry [2; 3; 4] [("Biceps.l", [3]); ("Biceps.r", [4])] 2)
  ∧ default [] (mapGet "Biceps.r" [("Biceps.l", [3]); ("Biceps.r", [4])])
    = List.filter (meshNamed (objects opened) "Biceps.r") [2; 3; 4].
Proof.
  assert (mapGet "muscles" (loaded opened)
          = Some (mkEntry [2; 3; 4] [("Biceps.l", [3]); ("Biceps.r", [4])] 2)) as Hget
    by (vm_compute; reflexivity).
  split; [exact opened_reachable|]. split; [exact Hget|].
  exact (page_index_describes_root codeUnitCompare opened "muscles" _ "Biceps.r"
           opened_reachable Hget).
Defined.

Lemma mapGet_filter_out {V} k (m : list (string * V)) :
  mapGet k (List.filter (λ e, negb (String.eqb e.1 k)) m) = None.
Proof.
  induction m as [|[k0 v0] m IH]; [done|]. simpl.
  destruct (String.eqb_spec k0 k) as [->|Hne]; simpl; [done|].
  destruct (decide (k = k0)) as [->|_]; [done|]. exact IH.
Qed.

Lemma omap_pointwise {A B} (f g : A → option B) (l : list A) : (∀ a, f a = g a) → omap f l = omap g l.
Proof.
  intros H. induction l as [|a l IH]; [done|].
  rewrite !(omap_app _ [a] l : omap _ (a :: l) = _), IH. f_equal. simpl. by rewrite H.
Qed.

(** X25: [unloadSystem] on a loaded system takes it out of [loaded] and its
    root out of the scene, leaves nothing selected, and calls [dispose] on
    the geometry of every mesh of the root that has one and, once for every
    mesh of the root, even a highlighted one, on the base material of the
    mesh. *)
Theorem page_unloadSystem_disposes cmp st sysKey entry :
  reachable cmp st → mapGet sysKey (loaded st) = Some entry →
  let st' := unloadSystem sysKey st in
  mapGet sysKey (loaded st') = None
  ∧ (root entry ∉ scene st')
  ∧ selectedMeshes st' = []
  ∧ disposedGeometries st'
    = disposedGeometries st
      ++ List.filter (λ a, match objects st !! a with
                           | Some o => isMesh o && hasGeometry o
                           | None => false
                           end) (root entry)
  ∧ disposedMaterials st'
    = disposedMaterials st
      ++ omap (λ a, objects st !! a ≫= λ o, if isMesh o then baseMat o else None)
           (root entry).
Proof.
  intros Hreach Hget. pose proof (page_reachable_Inv cmp st Hreach) as HI.
  pose proof (Inv_clearSelection st HI) as [_ _ I3 _ _ _].
  pose proof (clearSelection_sameShape st) as Hsh.
  pose proof (clearSelection_selected st) as Hsel.
  assert (Hgeos : disposedGeometries (clearSelection st) = disposedGeometries st) by done.
  assert (Hmats : disposedMaterials (clearSelection st) = disposedMaterials st) by done.
  cbv zeta. unfold unloadSystem. rewrite Hget.
  set (st1 := clearSelection st) in *. clearbody st1.
  rewrite disposeObject3D_exact. cbn. split; [apply mapGet_filter_out|].
  split; [by intros [? _]%list_elem_of_filter|]. split; [done|].
  rewrite Hgeos, Hmats. split; f_equal.
  - apply List.filter_ext. intros a. destruct (objects st !! a) as [o|] eqn:Ho.
    + destruct (proj2 Hsh a o Ho) as (o' & -> & Hm & _ & Hg & _). by rewrite Hm, Hg.
    + rewrite (proj2 (lookup_ge_None (objects st1) a)); [done|].
      rewrite (proj1 Hsh). by apply lookup_ge_None.
  - apply omap_pointwise. intros a. destruct (objects st !! a) as [o|] eqn:Ho.
    + destruct (proj2 Hsh a o Ho) as (o' & Ho' & Hm & _ & _ & _ & Hb & _).
      rewrite Ho'. simpl. rewrite Hm. destruct (isMesh o) eqn:Hmesh; [|done].
      destruct (I3 a o' Ho') as (b & Hb' & _ & Hmat); [congruence|].
      rewrite Hsel in Hmat. rewrite Hmat. simpl. congruence.
    + rewrite (proj2 (lookup_ge_None (objects st1) a)); [done|].
      rewrite (proj1 Hsh). by apply lookup_ge_None.
Qed.

Lemma page_unloadSystem_disposes_witness :
  reachable codeUnitCompare chipClicked
  ∧ mapGet "muscles" (loaded chipClicked)
    = Some (mkEntry [2; 3; 4] [("Biceps.l", [3]); ("Biceps.r", [4])] 2)
  ∧ disposedMaterials (unloadSystem "muscles" chipClicked)
    = disposedMaterials chipClicked
      ++ omap (λ a, objects chipClicked !! a ≫= λ o, if isMesh o then baseMat o else None)
           [2; 3; 4].
Proof.
  assert (mapGet "muscles" (loaded chipClicked)
          = Some (mkEntry [2; 3; 4] [("Biceps.l", [3]); ("Biceps.r", [4])] 2)) as Hget
    by (vm_compute; reflexivity).
  split; [exact chipClicked_reachable|]. split; [exact Hget|].
  exact (proj2 (proj2 (proj2 (proj2
    (page_unloadSystem_disposes codeUnitCompare chipClicked "muscles" _
       chipClicked_reachable Hget))))).
Defined.

Example unload_while_highlighted :
  selectedMeshes chipClicked = [3; 4]
  ∧ disposedMaterials musclesUnloaded = [2; 2]
  ∧ disposedGeometries musclesUnloaded = [3; 4].
Proof. vm_compute. done. Qed.

End PageSelection.

(** * The earlier page: chips and overlapping calls *)

Section PageAsync.
Import Page.

Lemma chipClick_selects i st chip mus :
  chips st !! i = Some chip →
  selectedChipKey st ≠ Some (key (item chip)) →
  mapGet "muscles" (loaded st) = Some mus →
  chipMeshes mus (item chip) ≠ [] →
  chipClick i st
  = selectMeshes (chipMeshes mus (item chip)) (LabelGroup (itemName (item chip)))
      (set_selectedChipKey (Some (key (item chip)))
         (set_chips (<[i := mkChip (item chip) true]>
                       ((λ c, mkChip (item c) false) <$> chips st)) st)).
Proof.
  intros Hchip Hkey Hmus Hne. unfold chipClick. rewrite Hchip.
  rewrite bool_decide_eq_false_2 by done. rewrite Hmus.
  by destruct (chipMeshes mus (item chip)).
Qed.

(** X26: a click on a chip that finds meshes selects them, but leaves no
    chip marked and no chip key remembered, so that a second click on the
    same chip selects the same meshes again instead of clearing the
    selection. *)
Theorem page_chip_click_twice i st chip mus :
  chips st !! i = Some chip →
  selectedChipKey st ≠ Some (key (item chip)) →
  mapGet "muscles" (loaded st) = Some mus →
  chipMeshes mus (item chip) ≠ [] →
  let st1 := chipClick i st in
  selectedChipKey st1 = None
  ∧ Forall (λ c, on c = false) (chips st1)
  ∧ selectedMeshes st1 = chipMeshes mus (item chip)
  ∧ selectedMeshes (chipClick i st1) = chipMeshes mus (item chip)
  ∧ info (chipClick i st1)
    = InfoSelection (LabelGroup (itemName (item chip))) (length (chipMeshes mus (item chip))).
Proof.
  intros Hchip Hkey Hmus Hne. cbv zeta.
  rewrite (chipClick_selects i st chip mus Hchip Hkey Hmus Hne).
  set (st1 := selectMeshes _ _ _).
  assert (Hchips : chips st1
                   = (λ c, mkChip (item c) false)
                     <$> <[i := mkChip (item chip) true]>
                           ((λ c, mkChip (item c) false) <$> chips st)) by done.
  assert (Hk1 : selectedChipKey st1 = None) by done.
  assert (Hl1 : loaded st1 = loaded st) by done.
  assert (Hc1 : chips st1 !! i = Some (mkChip (item chip) false)).
  { rewrite Hchips, list_lookup_fmap, list_lookup_insert_eq; [done|].
    rewrite length_fmap. by eapply lookup_lt_Some. }
  split; [done|]. split.
  { rewrite Hchips. apply Forall_fmap, Forall_forall. by intros c _. }
  split; [done|].
  rewrite (chipClick_selects i st1 (mkChip (item chip) false) mus Hc1);
    [done|by rewrite Hk1|by rewrite Hl1|done].
Qed.

Lemma page_chip_click_twice_witness :
  chips opened !! 0
  = Some (mkChip (mkItem "biceps" "Biceps" (mkMeta (Some "Biceps") ["Biceps.l"] ["Biceps.r"] [] []))
            false)
  ∧ selectedChipKey opened ≠ Some "biceps"
  ∧ mapGet "muscles" (loaded opened)
    = Some (mkEntry [2; 3; 4] [("Biceps.l", [3]); ("Biceps.r", [4])] 2)
  ∧ selectedChipKey (chipClick 0 opened) = None
  ∧ selectedMeshes (chipClick 0 (chipClick 0 opened)) = [3; 4].
Proof.
  assert (chips opened !! 0
          = Some (mkChip (mkItem "biceps" "Biceps"
                            (mkMeta (Some "Biceps") ["Biceps.l"] ["Biceps.r"] [] [])) false))
    as Hchip by (vm_compute; reflexivity).
  assert (selectedChipKey opened ≠ Some "biceps") as Hkey by (vm_compute; discriminate).
  assert (mapGet "muscles" (loaded opened)
          = Some (mkEntry [2; 3; 4] [("Biceps.l", [3]); ("Biceps.r", [4])] 2)) as Hmus
    by (vm_compute; reflexivity).
  assert (chipMeshes (mkEntry [2; 3; 4] [("Biceps.l", [3]); ("Biceps.r", [4])] 2)
            (mkItem "biceps" "Biceps" (mkMeta (Some "Biceps") ["Biceps.l"] ["Biceps.r"] [] []))
          ≠ []) as Hne by (vm_compute; discriminate).
  split; [exact Hchip|]. split; [exact Hkey|]. split; [exact Hmus|].
  pose proof (page_chip_click_twice 0 opened _ _ Hchip Hkey Hmus Hne) as H.
  split; [exact (proj1 H)|exact (proj1 (proj2 (proj2 (proj2 H))))].
Defined.

Lemma setRenderPhase_fields i p st :
  chips (setRenderPhase i p st) = chips st
  ∧ metaCache (setRenderPhase i p st) = metaCache st
  ∧ ∀ j, i ≠ j → renders (setRenderPhase i p st) !! j = renders st !! j.
Proof.
  unfold setRenderPhase. destruct (renders st !! i); [|done].
  split; [done|]. split; [done|]. intros j Hne. cbn. by rewrite list_lookup_insert_ne.
Qed.

Lemma renderChipsFromSearch_resume_fetched cmp i r groups st :
  renderCached r = None →
  chips (renderChipsFromSearch_resume cmp i r (Some groups) st)
  = chips st ++ ((λ it, mkChip it false) <$> renderItems cmp (renderQuery r) groups)
  ∧ ∀ j, i ≠ j →
      renders (renderChipsFromSearch_resume cmp i r (Some groups) st) !! j = renders st !! j.
Proof.
  intros Hc. unfold renderChipsFromSearch_resume. rewrite Hc.
  match goal with |- context [setRenderPhase i Done ?s] =>
    destruct (setRenderPhase_fields i Done s) as (-> & _ & Hr) end.
  split; [done|]. intros j Hne. by rewrite Hr.
Qed.

(** X27: when two runs of [renderChipsFromSearch] wait for the metadata at
    the same time and both get it, the chips of the second are appended to
    those of the first: the list is cleared before the wait only, so every
    group is shown twice. *)
Theorem page_renders_overlap cmp st i j r1 r2 g1 g2 :
  i ≠ j → renders st !! i = Some r1 → renders st !! j = Some r2 →
  renderPhase r1 = Pending → renderPhase r2 = Pending →
  renderCached r1 = None → renderCached r2 = None →
  ∃ st', run cmp st [RenderSettled i (Some g1); RenderSettled j (Some g2)] = Some st'
    ∧ chips st' = chips st
                  ++ ((λ it, mkChip it false) <$> renderItems cmp (renderQuery r1) g1)
                  ++ ((λ it, mkChip it false) <$> renderItems cmp (renderQuery r2) g2).
Proof.
  intros Hne Hr1 Hr2 Hp1 Hp2 Hc1 Hc2.
  destruct (renderChipsFromSearch_resume_fetched cmp i r1 g1 st Hc1) as [Hchips1 Hrest1].
  set (st1 := renderChipsFromSearch_resume cmp i r1 (Some g1) st) in *.
  destruct (renderChipsFromSearch_resume_fetched cmp j r2 g2 st1 Hc2) as [Hchips2 _].
  exists (renderChipsFromSearch_resume cmp j r2 (Some g2) st1). split.
  - cbn [run step]. rewrite Hr1, Hp1. fold st1. rewrite (Hrest1 j Hne), Hr2, Hp2. done.
  - by rewrite Hchips2, Hchips1, <- app_assoc.
Qed.

Lemma page_renders_overlap_witness :
  renders rendersWaiting !! 0 = Some (mkRender "" None Pending)
  ∧ renders rendersWaiting !! 1 = Some (mkRender "" None Pending)
  ∧ ∃ st', run codeUnitCompare rendersWaiting
             [RenderSettled 0 (Some tinyGroups); RenderSettled 1 (Some tinyGroups)] = Some st'
           ∧ chips st' = chips rendersWaiting
                         ++ ((λ it, mkChip it false) <$> renderItems codeUnitCompare "" tinyGroups)
                         ++ ((λ it, mkChip it false) <$> renderItems codeUnitCompare "" tinyGroups).
Proof.
  assert (renders rendersWaiting !! 0 = Some (mkRender "" None Pending)) as H0
    by (vm_compute; reflexivity).
  assert (renders rendersWaiting !! 1 = Some (mkRender "" None Pending)) as H1
    by (vm_compute; reflexivity).
  split; [exact H0|]. split; [exact H1|].
  exact (page_renders_overlap codeUnitCompare rendersWaiting 0 1 _ _ tinyGroups tinyGroups
           (O_S 0) H0 H1 eq_refl eq_refl eq_refl eq_refl).
Defined.

Example startup_shows_every_group_twice :
  (itemName ∘ item) <$> chips opened = ["Biceps"; "Biceps"]
  ∧ requests opened
    = [ LoadFbx (Some "./assets/bones.fbx"); LoadFbx (Some "./assets/muscles.fbx");
        Fetch (Some "./meta/muscles_groups.json"); Fetch (Some "./meta/muscles_groups.json") ].
Proof. vm_compute. done. Qed.

End PageAsync.

(** * The earlier page: two loads of one system *)

Section PageOrphan.
Import Page.





















Example pressed_twice_then_unloaded :
  (λ st, (scene st, (loaded st).*1, disposedGeometries st))
  <$> run codeUnitCompare pressedTwice
        [ LoadSettled 0 (Some tinyBones); LoadSettled 1 (Some tinyBones);
          ClickSystem "bones" ]
  = Some ([[0; 1]], [], [3]).
Proof. vm_compute. reflexivity. Qed.

End PageOrphan.

(** * The earlier page: what a click on a chip highlights, and the walk of [pick] *)

Section PageClick.
Import Page.

Lemma elem_of_chipMeshes objs mus it a :
  entryOk objs mus →
  a ∈ chipMeshes mus it ↔ a ∈ root mus ∧ ∃ r, r ∈ variantRaws it ∧ meshNamed objs r a = true.
Proof.
  intros [_ Hi]. unfold chipMeshes. rewrite list_elem_of_In, in_concat. split.
  - intros (l & Hl & Ha). apply list_elem_of_In, list_elem_of_fmap in Hl as (r & -> & Hr).
    rewrite Hi in Ha. apply List.filter_In in Ha as [Ha Hm].
    split; [by apply list_elem_of_In|]. by exists r.
  - intros (Ha & r & Hr & Hm). exists (default [] (mapGet r (rawToMeshes mus))). split.
    + apply list_elem_of_In, list_elem_of_fmap. by exists r.
    + rewrite Hi. apply List.filter_In. split; [by apply list_elem_of_In|done].
Qed.

(** X29: a click on a chip, when the muscles are loaded and the chip is not
    the one remembered, highlights exactly the meshes of the muscles whose
    name is one of the raw names listed under [L], [R], [M] or [G] of the
    group, provided there is such a mesh; every other mesh of the page wears
    its base material afterwards. *)
Theorem page_chip_click_highlights cmp st i chip mus a o :
  reachable cmp st →
  chips st !! i = Some chip →
  selectedChipKey st ≠ Some (key (item chip)) →
  mapGet "muscles" (loaded st) = Some mus →
  chipMeshes mus (item chip) ≠ [] →
  objects (chipClick i st) !! a = Some o → isMesh o = true →
  (material o = Some highlightMat
     ↔ a ∈ root mus ∧ objName o ∈ variantRaws (item chip))
  ∧ (material o ≠ Some highlightMat → material o = baseMat o).
Proof.
  intros Hreach Hchip Hkey Hmus Hne Ha Hmesh.
  pose proof (page_reachable_Inv cmp st Hreach) as HI.
  pose proof (Inv_chipClick i st HI) as HI1.
  assert (Hentry : entryOk (objects st) mus) by (eapply (inv_loaded st HI), mapGet_elem_of, Hmus).
  destruct (inv_wears _ HI1 a o Ha Hmesh) as (b & Hb & Hbne & Hmat).
  rewrite (chipClick_selects i st chip mus Hchip Hkey Hmus Hne) in Ha, Hmat.
  change (selectedMeshes (selectMeshes _ _ _)) with (chipMeshes mus (item chip)) in Hmat.
  rewrite selectMeshes_objects in Ha.
  match type of Ha with foldl highlight (objects (clearSelection ?s)) _ !! _ = _ =>
    assert (Hsh : sameShape (objects st) (objects (clearSelection s)))
      by apply (clearSelection_sameShape s);
    pose proof (sameShape_trans _ _ _ Hsh
                  (foldl_highlight_sameShape (chipMeshes mus (item chip))
                     (objects (clearSelection s)))) as Hsh2
  end.
  destruct (sameShape_lookup _ _ _ _ Hsh2 Ha) as (o0 & Ha0 & Hm0 & Hn0 & _).
  assert (Hnamed : ∀ r, meshNamed (objects st) r a = true ↔ objName o = r).
  { intros r. unfold meshNamed. rewrite Ha0, <- Hm0, Hmesh, <- Hn0. simpl.
    apply String.eqb_eq. }
  rewrite Hmat, Hb. case_bool_decide as Hsel.
  - apply (elem_of_chipMeshes (objects st)) in Hsel as (Hroot & r & Hr & Hm); [|done].
    apply Hnamed in Hm as <-. split; [by split|]. by intros [].
  - split; [|done]. split; [intros [= ->]; done|].
    intros [Hroot Hr]. destruct Hsel.
    apply (elem_of_chipMeshes (objects st)); [done|]. split; [done|].
    exists (objName o). split; [done|]. by apply Hnamed.
Qed.

Lemma page_chip_click_highlights_witness :
  reachable codeUnitCompare opened
  ∧ chips opened !! 0
    = Some (mkChip (mkItem "biceps" "Biceps"
                      (mkMeta (Some "Biceps") ["Biceps.l"] ["Biceps.r"] [] [])) false)
  ∧ selectedChipKey opened ≠ Some "biceps"
  ∧ mapGet "muscles" (loaded opened)
    = Some (mkEntry [2; 3; 4] [("Biceps.l", [3]); ("Biceps.r", [4])] 2)
  ∧ objects (chipClick 0 opened) !! 4
    = Some (mkObj true "Biceps.r" true (Some 2) (Some 0) (Some 2) (Some "muscles")
              (Some "Biceps.r"))
  ∧ (Some 0 = Some highlightMat
       ↔ 4 ∈ [2; 3; 4] ∧ "Biceps.r" ∈ ["Biceps.l"; "Biceps.r"]).
Proof.
  assert (chips opened !! 0
          = Some (mkChip (mkItem "biceps" "Biceps"
                            (mkMeta (Some "Biceps") ["Biceps.l"] ["Biceps.r"] [] [])) false))
    as Hchip by (vm_compute; reflexivity).
  assert (selectedChipKey opened ≠ Some "biceps") as Hkey by (vm_compute; discriminate).
  assert (mapGet "muscles" (loaded opened)
          = Some (mkEntry [2; 3; 4] [("Biceps.l", [3]); ("Biceps.r", [4])] 2)) as Hmus
    by (vm_compute; reflexivity).
  assert (chipMeshes (mkEntry [2; 3; 4] [("Biceps.l", [3]); ("Biceps.r", [4])] 2)
            (mkItem "biceps" "Biceps" (mkMeta (Some "Biceps") ["Biceps.l"] ["Biceps.r"] [] []))
          ≠ []) as Hne by (vm_compute; discriminate).
  assert (objects (chipClick 0 opened) !! 4
          = Some (mkObj true "Biceps.r" true (Some 2) (Some 0) (Some 2) (Some "muscles")
                    (Some "Biceps.r"))) as Ho by (vm_compute; reflexivity).
  split; [exact opened_reachable|]. split; [exact Hchip|]. split; [exact Hkey|].
  split; [exact Hmus|]. split; [exact Ho|].
  exact (proj1 (page_chip_click_highlights codeUnitCompare opened 0 _ _ 4 _
                  opened_reachable Hchip Hkey Hmus Hne Ho eq_refl)).
Defined.

(** The walk of [pick] from the object hit to its first mesh ancestor: as a
    node of a tree comes after its parent, the walk ends within as many
    steps as there are objects, and more steps find the same mesh. *)
Lemma firstMesh_fuel objs :
  parentsFirst objs → ∀ f1 f2 a, a < f1 → a < f2 → firstMesh f1 objs a = firstMesh f2 objs a.
Proof.
  intros Hp. induction f1 as [|f1 IH]; intros f2 a H1 H2; [lia|].
  destruct f2 as [|f2]; [lia|]. simpl.
  destruct (objs !! a) as [o|] eqn:Ha; [|done].
  destruct (isMesh o); [done|]. destruct (parent o) as [p|] eqn:Hpar; [|done].
  specialize (Hp a o p Ha Hpar). apply IH; lia.
Qed.

Lemma sameShape_parentsFirst objs objs' :
  sameShape objs objs' → parentsFirst objs → parentsFirst objs'.
Proof.
  intros Hsh Hp a o' p Ha' Hpar.
  destruct (sameShape_lookup _ _ _ _ Hsh Ha') as (o & Ha & _ & _ & _ & Hparent & _).
  apply (Hp a o p Ha). congruence.
Qed.

Lemma selectMeshes_sameShape meshes label st :
  sameShape (objects st) (objects (selectMeshes meshes label st)).
Proof.
  rewrite selectMeshes_objects. eapply sameShape_trans; [apply clearSelection_sameShape|].
  apply foldl_highlight_sameShape.
Qed.

Lemma pick_sameShape hit st : sameShape (objects st) (objects (pick hit st)).
Proof.
  unfold pick. destruct hit as [a|].
  - destruct (firstMesh _ _ a); [apply selectMeshes_sameShape|apply sameShape_refl].
  - apply (clearSelection_sameShape st).
Qed.

Lemma chipClick_sameShape i st : sameShape (objects st) (objects (chipClick i st)).
Proof.
  unfold chipClick. destruct (chips st !! i) as [chip|]; [|apply sameShape_refl].
  case_bool_decide; [apply (clearSelection_sameShape st)|].
  destruct (mapGet "muscles" (loaded st)) as [mus|]; [|apply sameShape_refl].
  destruct (chipMeshes mus (item chip)); [apply sameShape_refl|].
  match goal with |- sameShape _ (objects (selectMeshes ?m ?l ?s)) =>
    apply (selectMeshes_sameShape m l s) end.
Qed.

Lemma unloadSystem_sameShape sysKey st : sameShape (objects st) (objects (unloadSystem sysKey st)).
Proof.
  unfold unloadSystem. destruct (mapGet sysKey (loaded st)); [|apply sameShape_refl].
  rewrite disposeObject3D_exact. apply (clearSelection_sameShape st).
Qed.

Lemma loadSystem_resume_objects i l asset st :
  objects (loadSystem_resume i l asset st)
  = objects st ++ (instantiate (length (objects st)) (loadKey l) (loadMat l) <$> asset).
Proof.
  unfold loadSystem_resume.
  cbn [objects set_objects set_scene set_loaded loaded set_info].
  match goal with |- context [setLoadPhase i Done ?s] => set (st3 := s) end.
  assert (Ho : objects (setLoadPhase i Done st3)
               = objects st ++ (instantiate (length (objects st)) (loadKey l) (loadMat l)
                                  <$> asset)).
  { unfold setLoadPhase. by destruct (loads st3 !! i). }
  destruct (String.eqb (loadKey l) "muscles"); [|exact Ho].
  unfold renderChipsFromSearch_call. by destruct (mapGet "muscles" _).
Qed.

Lemma parentsFirst_step cmp st e st' :
  (∀ i asset, e = LoadSettled i (Some asset) → treeOrder asset) →
  parentsFirst (objects st) → step cmp st e = Some st' → parentsFirst (objects st').
Proof.
  intros Htree Hp. destruct e as [k|k|i res| |text| |i fetched|i|hit|]; simpl.
  - destruct (SYSTEMS k); [| |by intros [= <-]];
      (destruct (mapHas k (loaded st)); intros [= <-];
       [by eapply sameShape_parentsFirst; [apply unloadSystem_sameShape|]|]);
      unfold loadSystem_call; destruct (mapHas k (loaded st)); try done;
      by destruct (SYSTEMS k).
  - intros [= <-]. unfold loadSystem_call. destruct (mapHas k (loaded st)); [done|].
    by destruct (SYSTEMS k).
  - destruct (loads st !! i) as [l|] eqn:Hl; [|done].
    destruct (loadPhase l); try done. destruct res as [asset|]; intros [= <-].
    + rewrite loadSystem_resume_objects. intros a o p Ha Hpar.
      destruct (decide (a < length (objects st))) as [Hlt|Hge].
      * rewrite lookup_app_l in Ha by done. by eapply Hp.
      * rewrite lookup_app_r, list_lookup_fmap in Ha by lia.
        destruct (asset !! _) as [n|] eqn:Hn; [|done]. injection Ha as <-.
        rewrite instantiate_parent in Hpar.
        destruct (nodeParent n) as [q|] eqn:Hq; [|done]. injection Hpar as <-.
        specialize (Htree i asset eq_refl _ n q Hn Hq). lia.
    + unfold setLoadPhase. by rewrite Hl.
  - intros [= <-]. unfold renderChipsFromSearch_call. by destruct (mapGet "muscles" _).
  - intros [= <-]. unfold renderChipsFromSearch_call. by destruct (mapGet "muscles" _).
  - intros [= <-]. unfold renderChipsFromSearch_call. by destruct (mapGet "muscles" _).
  - destruct (renders st !! i) as [t|]; [|done]. destruct (renderPhase t); try done.
    intros [= <-]. unfold renderChipsFromSearch_resume, setRenderPhase.
    destruct (renderCached t); [|destruct fetched];
      cbn [renders set_chips set_metaCache];
      by destruct (renders st !! i).
  - intros [= <-]. by eapply sameShape_parentsFirst; [apply chipClick_sameShape|].
  - intros [= <-]. by eapply sameShape_parentsFirst; [apply pick_sameShape|].
  - intros [= <-]. by eapply sameShape_parentsFirst; [apply (clearSelection_sameShape st)|].
Qed.

Lemma parentsFirst_run cmp es st st' :
  loaderTrees es → parentsFirst (objects st) → run cmp st es = Some st' →
  parentsFirst (objects st').
Proof.
  revert st. induction es as [|e es IH]; intros st Htrees Hp; simpl.
  - by intros [= <-].
  - destruct (step cmp st e) as [st1|] eqn:Hstep; [|done].
    apply IH.
    + intros i asset Hin. apply (Htrees i). by right.
    + eapply parentsFirst_step; [|exact Hp|exact Hstep].
      intros i asset ->. apply (Htrees i). by left.
Qed.

Lemma pick_walk_ends cmp es st a n :
  loaderTrees es → run cmp initial es = Some st →
  length (objects st) ≤ n →
  firstMesh n (objects st) a = firstMesh (length (objects st)) (objects st) a.
Proof.
  intros Htrees Hrun Hn.
  assert (Hp : parentsFirst (objects st)).
  { eapply parentsFirst_run; [exact Htrees| |exact Hrun]. by intros a' o p Ha. }
  destruct (decide (a < length (objects st))) as [Hlt|Hge].
  - apply firstMesh_fuel; [done|lia|done].
  - assert (objects st !! a = None) as Hnone by (apply lookup_ge_None; lia).
    destruct n, (length (objects st)); simpl; by rewrite ?Hnone.
Qed.

End PageClick.
